(** * dott: the in-memory object store, the base object model and the
    command handler, embedded from the Python sources.

    - [src/server/objects/in_memory_store.py]  (InMemoryObjectStore)
    - [src/game/parents/base_objects/base.py]  (BaseObject)
    - [src/daemons/server/commands/handler.py] (CommandHandler)
    - [src/game/commands/staff.py]             (CmdDestroy)

    Python objects live in one shared heap: the store's [_objects] dict.
    An object reference is the key under which the store holds the
    instance, so two references are the same object exactly when the keys
    are equal, and a mutation through one reference is seen through every
    other one.  Exceptions leave the mutations made before them in place,
    so a computation returns the world it reached together with either a
    value or the exception raised. *)

From Stdlib Require Import Ascii String ZArith.
From stdpp Require Import base gmap strings list pretty fin_maps sorting.

Open Scope string_scope.

#[local] Set Warnings "-clear-no-such-hyp,-level-tolerance".
#[local] Set Default Proof Using "Type".

(** ** Exceptions and results *)

Inductive Exception : Type :=
| InvalidObjectId (message : string)
| InvalidParent (message : string)
| ObjectHasZoneMembers (message : string)
| CommandError (message : string)
| KeyError (key : string)
| ResourceNotFound (doc_id : string)
| AttributeError (message : string)
| TypeError (message : string)
| ValueError (message : string)
| IndexError (message : string)
| RuntimeError (message : string)
(** A reference to an instance the store no longer holds was read.  Python
    keeps such an instance alive; the embedding identifies instances with
    store entries, and no path the theorems follow reads one. *)
| StaleReference (key : string).

Inductive Result (A : Type) : Type :=
| Ok (a : A)
| Raise (e : Exception).
Arguments Ok {A} a.
Arguments Raise {A} e.

#[export] Instance Result_ret : MRet Result := λ A a, Ok a.
#[export] Instance Result_bind : MBind Result :=
  λ A B f r, match r with Ok a => f a | Raise e => Raise e end.

Definition is_Ok {A} (r : Result A) : Prop := ∃ a, r = Ok a.

(** ** Strings as Python 2 [str] uses them *)

Definition is_upper (c : ascii) : bool :=
  (65 <=? nat_of_ascii c)%nat && (nat_of_ascii c <=? 90)%nat.

Definition lower_ascii (c : ascii) : ascii :=
  if is_upper c then ascii_of_nat (nat_of_ascii c + 32) else c.

(** [str.lower()] *)
Fixpoint lower (s : string) : string :=
  match s with
  | EmptyString => EmptyString
  | String c rest => String (lower_ascii c) (lower rest)
  end.

(** The characters [str.strip()] removes: space, \t, \n, \v, \f, \r. *)
Definition is_whitespace (c : ascii) : bool :=
  let n := nat_of_ascii c in
  (n =? 32)%nat || ((9 <=? n)%nat && (n <=? 13)%nat).

Fixpoint lstrip (s : string) : string :=
  match s with
  | EmptyString => EmptyString
  | String c rest => if is_whitespace c then lstrip rest else s
  end.

(** [rstrip] keeps a character when it, or something after it, is not
    white space. *)
Fixpoint rstrip (s : string) : string :=
  match s with
  | EmptyString => EmptyString
  | String c rest =>
      match rstrip rest with
      | EmptyString => if is_whitespace c then EmptyString else String c EmptyString
      | kept => String c kept
      end
  end.

(** [str.strip()] *)
Definition strip (s : string) : string := rstrip (lstrip s).

(** [s[0]], which raises IndexError on the empty string. *)
Definition str_index0 (s : string) : Result ascii :=
  match s with
  | EmptyString => Raise (IndexError "string index out of range")
  | String c _ => Ok c
  end.

(** [s[1:]], which never raises. *)
Definition str_slice1 (s : string) : string :=
  match s with
  | EmptyString => EmptyString
  | String _ rest => rest
  end.

(** Truth value of [odata.get(key)] for an id: [None] and [''] are false. *)
Definition truthy_id (v : option string) : option string :=
  match v with
  | Some s => if decide (s = "") then None else Some s
  | None => None
  end.

(** ** Data model *)

(** A command as the tables hold it: [name] and [aliases] class attributes
    (staff.py); what [func] does is given to the handler separately. *)
Record BaseCommand : Type := mkCommand {
  cmd_name : string;
  cmd_aliases : list string;
}.

Record CommandTable : Type := mkTable {
  commands : list BaseCommand;
}.

Record ParsedCommand : Type := mkParsed {
  command_str : string;
  arguments : list string;
  argument_string : string;
  switches : list string;
}.

(** What the parent class of an instance fixes: [base_type], [is_admin()]
    and the two class-level command tables of base.py. *)
Record ParentClass : Type := mkClass {
  base_type : string;
  is_admin : bool;
  local_command_table : option CommandTable;
  local_admin_command_table : option CommandTable;
}.

(** The [_odata] dict.  [_odata['_id']] is the key of the instance in the
    store: [save_object] and [_load_object] both file an instance under
    its own id, and [set_id] is never called. *)
Record ODATA : Type := mkOdata {
  parent : string;
  name : string;
  aliases : list string;
  location_id : option string;
  zone_id : option string;
  destination_id : option string;
}.

Record BaseObject : Type := mkObject {
  cls : ParentClass;
  _odata : ODATA;
}.

Definition with_location_id (v : option string) (d : ODATA) : ODATA :=
  mkOdata (parent d) (name d) (aliases d) v (zone_id d) (destination_id d).

Definition with_zone_id (v : option string) (d : ODATA) : ODATA :=
  mkOdata (parent d) (name d) (aliases d) (location_id d) v (destination_id d).

Definition map_odata (f : ODATA → ODATA) (o : BaseObject) : BaseObject :=
  mkObject (cls o) (f (_odata o)).

(** The world: the store ([_objects], the CouchDB documents [_db], the
    dbref counter), and what left the process: lines emitted to sessions
    ([EmitToObjectCmd] calls as (object_id, message)), [logger.error]
    lines, and the failures handed to [twisted.python.log.err]. *)
Record World : Type := mkWorld {
  _objects : gmap string BaseObject;
  _db : gmap string ODATA;
  next_dbref : Z;
  emitted : list (string * string);
  logger_error : list string;
  log_err : list Exception;
}.

Definition with_objects (f : gmap string BaseObject → gmap string BaseObject)
    (w : World) : World :=
  mkWorld (f (_objects w)) (_db w) (next_dbref w) (emitted w) (logger_error w) (log_err w).

Definition with_db (f : gmap string ODATA → gmap string ODATA) (w : World) : World :=
  mkWorld (_objects w) (f (_db w)) (next_dbref w) (emitted w) (logger_error w) (log_err w).

Definition with_next_dbref (n : Z) (w : World) : World :=
  mkWorld (_objects w) (_db w) n (emitted w) (logger_error w) (log_err w).

Definition with_emitted (f : list (string * string) → list (string * string))
    (w : World) : World :=
  mkWorld (_objects w) (_db w) (next_dbref w) (f (emitted w)) (logger_error w) (log_err w).

Definition with_logger_error (f : list string → list string) (w : World) : World :=
  mkWorld (_objects w) (_db w) (next_dbref w) (emitted w) (f (logger_error w)) (log_err w).

Definition with_log_err (f : list Exception → list Exception) (w : World) : World :=
  mkWorld (_objects w) (_db w) (next_dbref w) (emitted w) (logger_error w) (f (log_err w)).

(** ** Computations that change the world *)

Definition M (A : Type) : Type := World → World * Result A.

#[export] Instance M_ret : MRet M := λ A a w, (w, Ok a).
#[export] Instance M_bind : MBind M :=
  λ A B f m w, match m w with
               | (w', Ok a) => f a w'
               | (w', Raise e) => (w', Raise e)
               end.

Definition raise {A} (e : Exception) : M A := λ w, (w, Raise e).

(** A read: evaluates against the current world and leaves it as it is. *)
Definition read {A} (r : World → Result A) : M A := λ w, (w, r w).

Definition modify (f : World → World) : M unit := λ w, (f w, Ok tt).

(** [for x in xs: body(x)] *)
Fixpoint for_each {A} (xs : list A) (body : A → M unit) : M unit :=
  match xs with
  | [] => mret tt
  | x :: rest => body x ;; for_each rest body
  end.

(** [try: m  except: handler(e)] (also a Deferred's [addErrback]). *)
Definition catch {A} (m : M A) (handler : Exception → M A) : M A :=
  λ w, match m w with
       | (w', Ok a) => (w', Ok a)
       | (w', Raise e) => handler e w'
       end.

(** A Python argument that the source tests with [isinstance]: a string,
    an object reference, or [None]. *)
Inductive PyArg : Type :=
| PyStr (s : string)
| PyObj (ref : string)
| PyNone.

(** [int(s)] on a Python 2 [str]: optional surrounding white space, an
    optional sign, then at least one decimal digit. *)
Definition digit_of (c : ascii) : option Z :=
  let n := nat_of_ascii c in
  if (48 <=? n)%nat && (n <=? 57)%nat then Some (Z.of_nat (n - 48)) else None.

Fixpoint digits_value (acc : Z) (s : string) : option Z :=
  match s with
  | EmptyString => Some acc
  | String c rest =>
      match digit_of c with
      | Some d => digits_value (10 * acc + d) rest
      | None => None
      end
  end.

Definition unsigned_value (s : string) : option Z :=
  match s with
  | EmptyString => None
  | _ => digits_value 0 s
  end.

Definition int (s : string) : Result Z :=
  let body := strip s in
  let parsed :=
    match body with
    | String "-"%char rest => Z.opp <$> unsigned_value rest
    | String "+"%char rest => unsigned_value rest
    | _ => unsigned_value body
    end in
  match parsed with
  | Some n => Ok n
  | None => Raise (ValueError ("invalid literal for int() with base 10: " +:+ s))
  end.

Section Dott.

(** [fuzz.partial_ratio] of the fuzzywuzzy library: a score from 0 to 100. *)
Variable partial_ratio : string → string → Z.

(** [parent_loader.load_parent]: the class a parent path names, or no
    class (InvalidParent).  The loader is not among the sources. *)
Variable load_parent : string → option ParentClass.

(** ** InMemoryObjectStore: reads *)

(** Reading an attribute through a reference. *)
Definition deref (w : World) (ref : string) : Result BaseObject :=
  match _objects w !! ref with
  | Some o => Ok o
  | None => Raise (StaleReference ref)
  end.

Definition get_object (w : World) (obj_id : string) : Result string :=
  match _objects w !! obj_id with
  | Some _ => Ok obj_id
  | None => Raise (InvalidObjectId ("Invalid object ID requested: " +:+ obj_id))
  end.

(** An id attribute resolved to the instance it names: the body shared by
    the [location] and [zone] properties. *)
Definition resolve_id (w : World) (v : option string) : Result (option string) :=
  match truthy_id v with
  | Some ref_id => obj ← get_object w ref_id; Ok (Some obj)
  | None => Ok None
  end.

Definition get_location (w : World) (self : string) : Result (option string) :=
  o ← deref w self;
  resolve_id w (location_id (_odata o)).

Definition get_zone (w : World) (self : string) : Result (option string) :=
  o ← deref w self;
  resolve_id w (zone_id (_odata o)).

(** Modelled from the spec: [ExitObject.destination] (exit.py is not among
    the sources).  The spec gives exits an optional [destination_id]
    reference with unset as a valid state; the property resolves it the way
    [location] and [zone] resolve theirs. *)
Definition get_destination (w : World) (self : string) : Result (option string) :=
  o ← deref w self;
  resolve_id w (destination_id (_odata o)).

(** A scan of [self._objects] that collects, in iteration order, the
    entries a test keeps; the test may raise. *)
Fixpoint scan (keep : string → BaseObject → Result bool)
    (items : list (string * BaseObject)) : Result (list string) :=
  match items with
  | [] => Ok []
  | (id, db_obj) :: rest =>
      b ← keep id db_obj;
      found ← scan keep rest;
      Ok (if b : bool then id :: found else found)
  end.

Definition get_object_contents (w : World) (obj : string) : Result (list string) :=
  scan (λ id _, loc ← get_location w id; Ok (bool_decide (loc = Some obj)))
       (map_to_list (_objects w)).

Definition find_exits_linked_to_obj (w : World) (obj : string) : Result (list string) :=
  o ← deref w obj;
  if decide (base_type (cls o) = "exit") then
    (* Exits can't be linked to one another. *)
    Ok []
  else
    scan (λ id db_obj,
            if decide (base_type (cls db_obj) = "exit") then
              destination ← get_destination w id;
              Ok (bool_decide (destination = Some obj))
            else Ok false)
         (map_to_list (_objects w)).

Definition find_objects_in_zone (w : World) (obj : string) : Result (list string) :=
  scan (λ id _, zone ← get_zone w id; Ok (bool_decide (zone = Some obj)))
       (map_to_list (_objects w)).

(** [global_name_search]: the generator's items, in iteration order. *)
Definition global_name_search (w : World) (text : string) : Result (list string) :=
  scan (λ _ obj, Ok (50 <? partial_ratio text (name (_odata obj)))%Z)
       (map_to_list (_objects w)).

(** ** InMemoryObjectStore: writes *)

Definition save_object (id : string) (obj : BaseObject) : M unit :=
  modify (λ w, with_objects (<[id := obj]>) (with_db (<[id := _odata obj]>) w)).

Definition destroy_object (obj : string) : M unit :=
  λ w,
    match _db w !! obj with
    | None => (w, Raise (ResourceNotFound obj))
    | Some _ =>
        let w1 := with_db (delete obj) w in
        match _objects w1 !! obj with
        | None => (w1, Raise (KeyError obj))
        | Some _ => (with_objects (delete obj) w1, Ok tt)
        end
    end.

(** [create_object(parent_path, **kwargs)]; the [parent] of [kwargs] is
    not read, the keyword [parent=parent_path] fills it. *)
Definition create_object (parent_path : string) (kwargs : ODATA) : M string :=
  match load_parent parent_path with
  | None => raise (InvalidParent parent_path)
  | Some NewObject =>
      λ w,
        let _id := pretty (next_dbref w) in
        let obj :=
          mkObject NewObject
            (mkOdata parent_path (name kwargs) (aliases kwargs) (location_id kwargs)
                     (zone_id kwargs) (destination_id kwargs)) in
        (save_object _id obj ;;
         (* Increment the next dbref counter for the next object. *)
         modify (λ w, with_next_dbref (next_dbref w + 1) w) ;;
         mret _id) w
  end.

Definition _load_object (doc_id : string) : M string :=
  λ w,
    match _db w !! doc_id with
    | None => (w, Raise (ResourceNotFound doc_id))
    | Some doc =>
        match load_parent (parent doc) with
        | None =>
            (w, Raise (InvalidParent
                         ("Attempting to load invalid parent on object #" +:+ doc_id
                          +:+ ": " +:+ parent doc)))
        | Some parent_cls =>
            (with_objects (<[doc_id := mkObject parent_cls doc]>) w, Ok doc_id)
        end
    end.

Definition _load_objects_into_ram : M unit :=
  λ w,
    for_each (map_to_list (_db w)).*1
      (λ doc_id,
         _load_object doc_id ;;
         (* See if this is the new highest dbref. *)
         doc_id_int ← read (λ _, int doc_id);
         modify (λ w, if (next_dbref w <=? doc_id_int)%Z
                      then with_next_dbref (doc_id_int + 1) w else w)) w.

Definition reload_object (obj : string) : M string :=
  λ w,
    match _objects w !! obj with
    | None => (w, Raise (KeyError obj))
    | Some _ => _load_object obj (with_objects (delete obj) w)
    end.

(** ** BaseObject: attribute writes, save, destroy *)

Definition update_odata (self : string) (f : ODATA → ODATA) : M unit :=
  λ w,
    match _objects w !! self with
    | Some o => (with_objects (<[self := map_odata f o]>) w, Ok tt)
    | None => (w, Raise (StaleReference self))
    end.

Definition set_location (self : string) (obj_or_id : PyArg) : M unit :=
  o ← read (λ w, deref w self);
  if decide (base_type (cls o) = "room") then
    (* Rooms can't have locations. *)
    mret tt
  else
    match obj_or_id with
    | PyStr s => update_odata self (with_location_id (Some s))
    | PyObj ref => update_odata self (with_location_id (Some ref))
    | PyNone => raise (AttributeError "'NoneType' object has no attribute 'id'")
    end.

Definition set_zone (self : string) (obj_or_id : PyArg) : M unit :=
  match obj_or_id with
  | PyStr s => update_odata self (with_zone_id (Some s))
  | PyNone => update_odata self (with_zone_id None)
  | PyObj ref => update_odata self (with_zone_id (Some ref))
  end.

Definition save (self : string) : M unit :=
  o ← read (λ w, deref w self);
  save_object self o.

(** [BaseObject.destroy].  [depth] bounds the nesting of [exit.destroy()]
    calls the way the interpreter's recursion limit does. *)
Fixpoint destroy (depth : nat) (self : string) : M unit :=
  match depth with
  | O => raise (RuntimeError "maximum recursion depth exceeded")
  | S depth' =>
      (* Destroy all exits that were linked to this object. *)
      exits ← read (λ w, find_exits_linked_to_obj w self);
      for_each exits (λ exit, destroy depth' exit) ;;
      (* Un-set the zones on all objects who are members of this object. *)
      members ← read (λ w, find_objects_in_zone w self);
      for_each members (λ obj, set_zone obj PyNone ;; save obj) ;;
      (* Destroys this object, once all cleanup is done. *)
      destroy_object self
  end.

(** ** BaseObject: emitting, appearance, search *)

Definition emit_to (self : string) (message : string) : M unit :=
  modify (with_emitted (λ out, (out ++ [(self, message)])%list)).

Definition get_contents (w : World) (self : string) : Result (list string) :=
  get_object_contents w self.

Definition ansi_hilight : string := String (ascii_of_nat 27) "[1m".
Definition ansi_normal : string := String (ascii_of_nat 27) "[0m".

(** A call [self.get_appearance_name(invoker, **kwargs)].  The method is
    declared [get_appearance_name(self, invoker)]: a call that passes any
    other keyword raises TypeError before the body runs. *)
Definition get_appearance_name (w : World) (self : string) (invoker : PyArg)
    (kwargs : list string) : Result string :=
  match kwargs with
  | kw :: _ =>
      Raise (TypeError ("get_appearance_name() got an unexpected keyword argument '"
                        +:+ kw +:+ "'"))
  | [] =>
      invoker_is_admin ←
        match invoker with
        | PyObj ref => i ← deref w ref; Ok (is_admin (cls i))
        | PyNone => Raise (AttributeError "'NoneType' object has no attribute 'is_admin'")
        | PyStr _ => Raise (AttributeError "'str' object has no attribute 'is_admin'")
        end;
      o ← deref w self;
      let extra_info :=
        if invoker_is_admin : bool then
          let bt := base_type (cls o) in
          let type_str :=
            if decide (bt = "room") then "R"
            else if decide (bt = "thing") then "T"
            else if decide (bt = "exit") then "E"
            else if decide (bt = "player") then "P"
            else "U" in
          "(#" +:+ self +:+ type_str +:+ ")"
        else "" in
      Ok (ansi_hilight +:+ name (_odata o) +:+ ansi_normal +:+ extra_info)
  end.

(** The loop of [_find_name_or_alias_match], with its two running
    variables [ratio] and [result]. *)
Fixpoint name_or_alias_loop (w : World) (objects : list string) (desc : string)
    (ratio : Z) (result : option string) : Result (option string) :=
  match objects with
  | [] => Ok result
  | obj :: rest =>
      o ← deref w obj;
      (* Start by checking all objects for an alias match. *)
      if bool_decide (lower desc ∈ lower <$> aliases (_odata o)) then
        (* If a match is found, return immediately on said match. *)
        Ok (Some obj)
      else
        (* No alias match found, so now we fuzzy match *)
        let r := partial_ratio desc (name (_odata o)) in
        if ((50 <? r) && (ratio <? r))%Z then name_or_alias_loop w rest desc r (Some obj)
        else name_or_alias_loop w rest desc ratio result
  end.

Definition _find_name_or_alias_match (w : World) (objects : list string)
    (desc : string) : Result (option string) :=
  name_or_alias_loop w objects desc 0%Z None.

Definition _find_object_id_match (w : World) (self : string) (desc : string)
    : Result (option string) :=
  (* Absolute object identifier: lookup the id *)
  obj ← get_object w (str_slice1 desc);
  me ← deref w self;
  if negb (is_admin (cls me)) then
    (* Non-admins can only find objects in their current location. *)
    self_location ← get_location w self;
    obj_location ← match self_location with
                   | Some _ => get_location w obj
                   | None => Ok None
                   end;
    match self_location, obj_location with
    | Some sl, Some ol =>
        if bool_decide (sl = ol) || bool_decide (sl = obj) then Ok (Some obj)
        else Ok None
    | _, _ =>
        target ← deref w obj;
        if decide (base_type (cls target) = "room") then
          match self_location with
          | Some sl => if bool_decide (sl = obj) then Ok (Some obj) else Ok None
          | None => Ok None
          end
        else Ok None
    end
  else
    (* Invoker is an admin, and can find object id matches globally. *)
    Ok (Some obj).

Definition contextual_object_search (w : World) (self : string) (desc : string)
    : Result (option string) :=
  let desc := strip desc in
  if decide (desc = "") then
    (* Probably an empty string, which we can't do much with. *)
    Ok None
  else
    first ← str_index0 desc;
    oid_match ← (if decide (first = "#"%char) then _find_object_id_match w self desc
                 else Ok None);
    match oid_match with
    | Some found => Ok (Some found)
    | None =>
        if decide (lower desc = "me") then Ok (Some self)
        else if decide (lower desc = "here") then get_location w self
        else
          (* First search the objects in the room *)
          location ← get_location w self;
          neighboring_match ←
            match location with
            | Some loc =>
                neighbors ← get_contents w loc;
                _find_name_or_alias_match w neighbors desc
            | None => Ok None
            end;
          match neighboring_match with
          | Some found => Ok (Some found)
          | None =>
              (* Next search the objects inside the invoker *)
              inventory ← get_contents w self;
              _find_name_or_alias_match w inventory desc
          end
    end.

(** ** CommandHandler *)

(** [CommandParser.parse], [CommandTable.lookup_command], a command's
    [func] and [Failure.getTraceback] are not among the sources: the
    handler is embedded over whatever they do.  The two global tables are
    the handler's attributes, set once in [__init__]. *)
Variable parse : string → ParsedCommand.
Variable lookup_command : CommandTable → ParsedCommand → option BaseCommand.
Variable func : BaseCommand → string → ParsedCommand → M unit.
Variable getTraceback : Exception → string.
Variable global_command_table : CommandTable.
Variable global_admin_command_table : CommandTable.

(** [[obj for obj in refs if test(obj)]] *)
Fixpoint filter_refs (w : World) (test : BaseObject → bool) (refs : list string)
    : Result (list string) :=
  match refs with
  | [] => Ok []
  | obj :: rest =>
      o ← deref w obj;
      kept ← filter_refs w test rest;
      Ok (if test o then obj :: kept else kept)
  end.

(** The first of [refs] that passes the test, as a loop that returns on
    its first hit. *)
Fixpoint first_ref (w : World) (test : BaseObject → bool) (refs : list string)
    : Result (option string) :=
  match refs with
  | [] => Ok None
  | obj :: rest =>
      o ← deref w obj;
      if test o then Ok (Some obj) else first_ref w test rest
  end.

Definition _match_user_input_to_exit (w : World) (invoker : string)
    (parsed_command : ParsedCommand) : Result (option string) :=
  location ← get_location w invoker;
  match location with
  | None => Ok None
  | Some loc =>
      (* This is what we'll match aliases against. *)
      let exit_str := lower (command_str parsed_command) in
      (* Contents of current location = neighbors. *)
      contents ← get_contents w loc;
      exit_neighbors ←
        filter_refs w (λ obj, bool_decide (base_type (cls obj) = "exit")) contents;
      first_ref w (λ n_exit, bool_decide (exit_str ∈ lower <$> aliases (_odata n_exit)))
                exit_neighbors
  end.

Definition _match_user_input_to_command (w : World) (invoker : string)
    (parsed_command : ParsedCommand) : Result (option BaseCommand) :=
  location ← get_location w invoker;
  me ← deref w invoker;
  location_cls ← match location with
                 | Some loc => o ← deref w loc; Ok (Some (cls o))
                 | None => Ok None
                 end;
  (* Default to no match. *)
  let result : option BaseCommand := None in
  (* Local admin table, but only if it exists and invoker is an admin. *)
  let result :=
    match location_cls ≫= local_admin_command_table with
    | Some table =>
        if is_admin (cls me) then lookup_command table parsed_command else result
    | None => result
    end in
  let result :=
    match result, location_cls ≫= local_command_table with
    | None, Some table => lookup_command table parsed_command
    | _, _ => result
    end in
  (* Admin command table, but only if invoker is an admin. *)
  let result :=
    match result with
    | None =>
        if is_admin (cls me) then lookup_command global_admin_command_table parsed_command
        else result
    | Some _ => result
    end in
  (* Global command table. *)
  let result :=
    match result with
    | None => lookup_command global_command_table parsed_command
    | Some _ => result
    end in
  Ok result.

(** [logger.error(line)] *)
Definition logger_error_call (line : string) : M unit :=
  modify (with_logger_error (λ lines, (lines ++ [line])%list)).

(** [twisted.python.log.err(failure)], the last errback. *)
Definition log_err_call (failure : Exception) : M unit :=
  modify (with_log_err (λ seen, (seen ++ [failure])%list)).

Definition _handle_command_error (invoker : string) (failure : Exception) : M unit :=
  match failure with
  | CommandError message => emit_to invoker message
  | _ => (* failure.trap(CommandError) re-raises *) raise failure
  end.

Definition _handle_other_errors (invoker : string) (failure : Exception) : M unit :=
  emit_to invoker "ERROR: A critical error has occurred. Please notify the staff." ;;
  emit_to invoker (getTraceback failure) ;;
  logger_error_call "Command handler encountered an error" ;;
  shown ← read (λ w, get_appearance_name w invoker PyNone ["force_admin_view"]);
  logger_error_call ("Invoker: " +:+ shown) ;;
  (* Fall through to the last (and final) logging error handler. *)
  raise failure.

Definition handle_input (invoker : string) (command_string : string)
    : M (option BaseCommand) :=
  let parsed_command := parse command_string in
  exit_match ← read (λ w, _match_user_input_to_exit w invoker parsed_command);
  let parsed_command :=
    match exit_match with
    | Some exit_ref =>
        (* Exit match was found, make this a 'go' command with the
           argument being the exit's object id. *)
        mkParsed "go" ["#" +:+ exit_ref] (argument_string parsed_command)
                 (switches parsed_command)
    | None => parsed_command
    end in
  cmd_match ← read (λ w, _match_user_input_to_command w invoker parsed_command);
  match cmd_match with
  | None => (* No matches, show the "Huh?" message. *) mret None
  | Some cmd =>
      (* We found a command match, try to run it. *)
      catch (catch (catch (func cmd invoker parsed_command)
                          (_handle_command_error invoker))
                   (_handle_other_errors invoker))
            (* Make sure this ends up in the console, too. *)
            log_err_call ;;
      mret (Some cmd)
  end.

(** ** BaseObject: commands, events, movement *)

Definition execute_command (self : string) (command_string : string) : M unit :=
  handled ← handle_input self command_string;
  match handled with
  | None => emit_to self "Huh?"
  | Some _ => mret tt
  end.

Definition before_object_leaves_event (self actor : string) : M unit := mret tt.

Definition after_object_leaves_event (self actor : string) : M unit :=
  contents ← read (λ w, get_contents w self);
  for_each contents
    (λ obj,
       shown ← read (λ w, get_appearance_name w actor (PyObj obj) []);
       emit_to obj (shown +:+ " has left")).

Definition before_object_enters_event (self actor : string) : M unit :=
  contents ← read (λ w, get_contents w self);
  for_each contents
    (λ obj,
       shown ← read (λ w, get_appearance_name w actor (PyObj obj) []);
       emit_to obj (shown +:+ " has arrived")).

Definition after_object_enters_event (self actor : string) : M unit := mret tt.

Definition move_to (self : string) (destination_obj : string) (force_look : bool)
    : M unit :=
  old_location ← read (λ w, get_location w self);
  match old_location with
  | None =>
      raise (AttributeError
               "'NoneType' object has no attribute 'before_object_leaves_event'")
  | Some old_location_obj =>
      before_object_leaves_event old_location_obj self ;;
      before_object_enters_event destination_obj self ;;
      set_location self (PyObj destination_obj) ;;
      save self ;;
      after_object_leaves_event old_location_obj self ;;
      after_object_enters_event destination_obj self ;;
      if force_look then execute_command self "look" else mret tt
  end.

(** ** staff.py: [CmdDestroy.func] *)

Definition CmdDestroy_func (depth : nat) (invoker : string) (parsed_cmd : ParsedCommand)
    : M unit :=
  match arguments parsed_cmd with
  | [] => raise (CommandError "Destroy what?")
  | _ =>
      found ← read (λ w, contextual_object_search w invoker (argument_string parsed_cmd));
      match found with
      | None => raise (CommandError "Unable to find your target object to destroy.")
      | Some obj_to_destroy =>
          shown ← read (λ w, get_appearance_name w obj_to_destroy (PyObj invoker) []);
          emit_to invoker ("You destroy " +:+ shown) ;;
          catch (destroy depth obj_to_destroy)
                (λ exc, match exc with
                        | ObjectHasZoneMembers message => raise (CommandError message)
                        | _ => raise exc
                        end)
      end
  end.

End Dott.

(** ** What the theorems speak about *)

(** An id attribute names nothing, or an instance the store holds. *)
Definition resolves (w : World) (v : option string) : Prop :=
  match truthy_id v with
  | Some ref_id => is_Some (_objects w !! ref_id)
  | None => True
  end.

(** No [zone_id] dangles: [get_zone] raises on none of the instances. *)
Definition zones_resolve (w : World) : Prop :=
  map_Forall (λ _ o, resolves w (zone_id (_odata o))) (_objects w).

(** No exit's [destination_id] dangles. *)
Definition destinations_resolve (w : World) : Prop :=
  map_Forall (λ _ o, base_type (cls o) = "exit" → resolves w (destination_id (_odata o)))
             (_objects w).

(** Every cached instance has its document. *)
Definition persisted (w : World) : Prop := dom (_objects w) ⊆ dom (_db w).

Definition consistent (w : World) : Prop :=
  persisted w ∧ zones_resolve w ∧ destinations_resolve w.

(** Exits cannot link to exits (the data model's invariant, which
    [CmdLink] enforces). *)
Definition exits_lead_to_non_exits (w : World) : Prop :=
  map_Forall
    (λ _ o, base_type (cls o) = "exit" →
            match truthy_id (destination_id (_odata o)) ≫= (_objects w !!.) with
            | Some target => base_type (cls target) ≠ "exit"
            | None => True
            end)
    (_objects w).

(** A Room never has a [location_id] (the data model's invariant). *)
Definition room_has_no_location (o : BaseObject) : Prop :=
  base_type (cls o) = "room" → truthy_id (location_id (_odata o)) = None.

(** What one [destroy] leaves of an instance when the instances [gone]
    were removed: its zone is un-set if its zone master is among them. *)
Definition unzone (gone : gset string) (o : BaseObject) : BaseObject :=
  match truthy_id (zone_id (_odata o)) with
  | Some z => if decide (z ∈ gone) then map_odata (with_zone_id None) o else o
  | None => o
  end.

Definition after_destroy (gone : gset string) (objs : gmap string BaseObject)
    : gmap string BaseObject :=
  unzone gone <$> filter (λ kv, kv.1 ∉ gone) objs.

(** The second half of [destroy]: un-set the members' zones, then remove
    the object. *)
Definition unzone_members_and_remove (self : string) : M unit :=
  members ← read (λ w, find_objects_in_zone w self);
  for_each members (λ obj, set_zone obj PyNone ;; save obj) ;;
  destroy_object self.

(** [desc] equals one of the object's aliases, case-insensitively. *)
Definition alias_match (w : World) (desc : string) (ref : string) : bool :=
  match _objects w !! ref with
  | Some o => bool_decide (lower desc ∈ lower <$> aliases (_odata o))
  | None => false
  end.

(** The last steps of [contextual_object_search]: the name and alias
    search among the neighbours, then in the inventory. *)
Definition search_by_name (partial_ratio : string → string → Z) (w : World)
    (self : string) (desc : string) : Result (option string) :=
  location ← get_location w self;
  neighboring_match ←
    match location with
    | Some loc =>
        neighbors ← get_contents w loc;
        _find_name_or_alias_match partial_ratio w neighbors desc
    | None => Ok None
    end;
  match neighboring_match with
  | Some found => Ok (Some found)
  | None =>
      inventory ← get_contents w self;
      _find_name_or_alias_match partial_ratio w inventory desc
  end.

(** What one of the two tables of the invoker's location yields for the
    parsed command: nothing when the invoker has no location or the
    location's class has no such table. *)
Definition location_table_match
    (lookup_command : CommandTable → ParsedCommand → option BaseCommand) (w : World)
    (location : option string) (table_of : ParentClass → option CommandTable)
    (parsed : ParsedCommand) : option BaseCommand :=
  loc ← location;
  o ← _objects w !! loc;
  table ← table_of (cls o);
  lookup_command table parsed.

(** The first table, in the order given, that yields a command. *)
Fixpoint first_match (tries : list (option BaseCommand)) : option BaseCommand :=
  match tries with
  | [] => None
  | Some cmd :: _ => Some cmd
  | None :: rest => first_match rest
  end.

Fixpoint all_whitespace (s : string) : bool :=
  match s with
  | EmptyString => true
  | String c rest => is_whitespace c && all_whitespace rest
  end.

(** Operations on the store during one process lifetime, and the ids the
    successful [create_object] calls of a run returned, oldest first. *)
Inductive StoreOp : Type :=
| OpCreate (parent_path : string) (kwargs : ODATA)
| OpDestroy (depth : nat) (obj : string)
| OpLoad.

Fixpoint run_ops (load_parent : string → option ParentClass) (ops : list StoreOp)
    (w : World) : World * list string :=
  match ops with
  | [] => (w, [])
  | OpCreate parent_path kwargs :: rest =>
      match create_object load_parent parent_path kwargs w with
      | (w', Ok new_id) =>
          let '(w'', ids) := run_ops load_parent rest w' in (w'', new_id :: ids)
      | (w', Raise _) => run_ops load_parent rest w'
      end
  | OpDestroy depth obj :: rest => run_ops load_parent rest (destroy depth obj w).1
  | OpLoad :: rest => run_ops load_parent rest (_load_objects_into_ram load_parent w).1
  end.

(** Every command leaves the instances as they are. *)
Definition commands_read_only (func : BaseCommand → string → ParsedCommand → M unit)
    : Prop :=
  ∀ cmd invoker parsed w, _objects (func cmd invoker parsed w).1 = _objects w.

(** ** What the proofs speak about *)

(** A relation between the world before and after that every step of a
    computation respects, whatever the outcome. *)
Definition keeps {A} (R : relation World) (m : M A) : Prop := ∀ w, R w (m w).1.

(** The entries a scan keeps, when its test raises on none. *)
Definition kept (keep : string → BaseObject → Result bool) (kv : string * BaseObject)
    : bool :=
  match keep kv.1 kv.2 with
  | Ok b => b
  | Raise _ => false
  end.

Definition fails_only {A} (P : Exception → Prop) (r : Result A) : Prop :=
  ∀ e, r = Raise e → P e.

Definition raises_only {A} (P : Exception → Prop) (m : M A) : Prop :=
  ∀ w w' e, m w = (w', Raise e) → P e.

(** What a read of the store can raise. *)
Definition lookup_error (e : Exception) : Prop :=
  match e with
  | InvalidObjectId _ | StaleReference _ => True
  | _ => False
  end.

(** What [destroy] can raise. *)
Definition store_error (e : Exception) : Prop :=
  match e with
  | InvalidObjectId _ | StaleReference _ | KeyError _ | ResourceNotFound _
  | RuntimeError _ => True
  | _ => False
  end.

(** The counter never goes down. *)
Definition counter_grows : relation World := λ w w', (next_dbref w ≤ next_dbref w')%Z.

(** The counter is left as it is. *)
Definition counter_kept : relation World := λ w w', next_dbref w' = next_dbref w.

(** The instances are left as they are. *)
Definition same_objects : relation World := λ w w', _objects w' = _objects w.

(** ** Deciding the invariants on a given store *)

#[export] Instance resolves_dec (w : World) (v : option string) : Decision (resolves w v).
Proof. unfold resolves. destruct (truthy_id v); apply _. Defined.

#[export] Instance zones_resolve_dec (w : World) : Decision (zones_resolve w).
Proof. unfold zones_resolve. apply _. Defined.

#[export] Instance destinations_resolve_dec (w : World) : Decision (destinations_resolve w).
Proof. unfold destinations_resolve. apply _. Defined.

#[export] Instance persisted_dec (w : World) : Decision (persisted w).
Proof. unfold persisted. apply _. Defined.

#[export] Instance consistent_dec (w : World) : Decision (consistent w).
Proof. unfold consistent. apply _. Defined.

#[export] Instance exits_lead_to_non_exits_dec (w : World)
  : Decision (exits_lead_to_non_exits w).
Proof.
  unfold exits_lead_to_non_exits. apply map_Forall_dec. intros k o.
  apply impl_dec; [apply _|].
  destruct (truthy_id (destination_id (_odata o)) ≫= (_objects w !!.)); apply _.
Defined.

#[export] Instance room_has_no_location_dec (o : BaseObject)
  : Decision (room_has_no_location o).
Proof. unfold room_has_no_location. apply _. Defined.

(** ** A small world to run the code on *)

Definition RoomObject : ParentClass := mkClass "room" false None None.
Definition ThingObject : ParentClass := mkClass "thing" false None None.
Definition ExitObject : ParentClass := mkClass "exit" false None None.
Definition PlayerObject : ParentClass := mkClass "player" false None None.
Definition AdminPlayerObject : ParentClass := mkClass "player" true None None.

Definition room_path : string := "src.game.parents.base_objects.room.RoomObject".
Definition thing_path : string := "src.game.parents.base_objects.thing.ThingObject".
Definition exit_path : string := "src.game.parents.base_objects.exit.ExitObject".
Definition player_path : string := "src.game.parents.base_objects.player.PlayerObject".
Definition admin_path : string := "src.game.parents.base_objects.player.AdminPlayerObject".

(** A parent loader that knows the five base classes. *)
Definition base_parents (path : string) : option ParentClass :=
  if decide (path = room_path) then Some RoomObject
  else if decide (path = thing_path) then Some ThingObject
  else if decide (path = exit_path) then Some ExitObject
  else if decide (path = player_path) then Some PlayerObject
  else if decide (path = admin_path) then Some AdminPlayerObject
  else None.

(** A store holding the given instances, each with its document. *)
Definition world_of (instances : list (string * BaseObject)) : World :=
  mkWorld (list_to_map instances) (list_to_map (prod_map id _odata <$> instances))
          (Z.of_nat (length instances) + 1) [] [] [].

Definition guest : BaseObject :=
  mkObject PlayerObject (mkOdata player_path "Guest" [] (Some "1") None None).
Definition wizard : BaseObject :=
  mkObject AdminPlayerObject (mkOdata admin_path "Wizard" [] (Some "1") None None).

(** Room #1 holds a rock zoned to room #2, an exit north to room #2 and
    an admin player; room #2 is the rock's zone master. *)
Definition two_rooms : World :=
  world_of
    [("1", mkObject RoomObject (mkOdata room_path "And so it begins..." [] None None None));
     ("2", mkObject RoomObject (mkOdata room_path "B" [] None None None));
     ("3", mkObject ThingObject (mkOdata thing_path "rock" [] (Some "1") (Some "2") None));
     ("4", mkObject ExitObject
             (mkOdata exit_path "Door" ["north"] (Some "1") None (Some "2")));
     ("5", wizard)].

(** Two exits in room #1: #3 leads to room #2, and #4 leads to exit #3. *)
Definition exit_to_exit : World :=
  world_of
    [("1", mkObject RoomObject (mkOdata room_path "And so it begins..." [] None None None));
     ("2", mkObject RoomObject (mkOdata room_path "B" [] None None None));
     ("3", mkObject ExitObject (mkOdata exit_path "Door" ["north"] (Some "1") None (Some "2")));
     ("4", mkObject ExitObject (mkOdata exit_path "Hatch" ["down"] (Some "1") None (Some "3")))].

(** Room #1 holds the player #3, a coin with the alias "#4" and the admin
    #6; the lamp #4 lies in room #2. *)
Definition strangers : World :=
  world_of
    [("1", mkObject RoomObject (mkOdata room_path "And so it begins..." [] None None None));
     ("2", mkObject RoomObject (mkOdata room_path "B" [] None None None));
     ("3", guest);
     ("4", mkObject ThingObject (mkOdata thing_path "lamp" [] (Some "2") None None));
     ("5", mkObject ThingObject (mkOdata thing_path "coin" ["#4"] (Some "1") None None));
     ("6", wizard)].

(** A fuzzy matcher that never scores, for runs that must not depend on
    what fuzzywuzzy answers. *)
Definition no_fuzzy_match (_ _ : string) : Z := 0%Z.

(** A fuzzy matcher that gives every name the top score. *)
Definition top_fuzzy_match (_ _ : string) : Z := 100%Z.

(** Room #1 holds a thing named "north gate" and an exit with the alias
    "north". *)
Definition gate : World :=
  world_of
    [("1", mkObject RoomObject (mkOdata room_path "And so it begins..." [] None None None));
     ("2", mkObject ThingObject (mkOdata thing_path "north gate" [] (Some "1") None None));
     ("3", mkObject ExitObject (mkOdata exit_path "Door" ["north"] (Some "1") None None))].

(** A parser that takes the whole line as the verb. *)
Definition verb_only (line : string) : ParsedCommand := mkParsed line [] "" [].

(** Modelled from the spec: [CommandTable.lookup_command] (the table class
    is not among the sources): an exact, case-insensitive match on the verb
    or any declared alias, no partial matching. *)
Definition lookup_by_name (table : CommandTable) (parsed : ParsedCommand)
    : option BaseCommand :=
  List.find
    (λ cmd, bool_decide (lower (command_str parsed)
                         ∈ lower <$> cmd_name cmd :: cmd_aliases cmd))
    (commands table).

Definition CmdLook : BaseCommand := mkCommand "look" ["l"].
Definition CmdBoom : BaseCommand := mkCommand "boom" [].
Definition CmdShopLook : BaseCommand := mkCommand "look" ["l"; "browse"].

Definition global_table : CommandTable := mkTable [CmdLook; CmdBoom].
Definition global_admin_table : CommandTable := mkTable [mkCommand "@destroy" ["@dest"; "@nuke"]].
Definition shop_table : CommandTable := mkTable [CmdShopLook].

(** Commands that only emit, except "boom", which raises ValueError. *)
Definition emit_or_boom (cmd : BaseCommand) (invoker : string) (parsed : ParsedCommand)
    : M unit :=
  if decide (cmd_name cmd = "boom") then raise (ValueError "boom")
  else emit_to invoker ("You " +:+ cmd_name cmd +:+ ".").

Definition short_traceback (failure : Exception) : string :=
  "Traceback (most recent call last): ...".

(** A room class with a local command table, and a shop of that class
    holding a player. *)
Definition ShopRoomObject : ParentClass := mkClass "room" false (Some shop_table) None.

Definition shop : World :=
  world_of
    [("1", mkObject ShopRoomObject (mkOdata room_path "Shop" [] None None None));
     ("2", guest)].

(** A thing that [@parent] turned into a room keeps the [location_id] it
    had: #2 is of the room class and lies in room #1. *)
Definition reparented : World :=
  world_of
    [("1", mkObject RoomObject (mkOdata room_path "And so it begins..." [] None None None));
     ("2", mkObject RoomObject (mkOdata room_path "Tent" [] (Some "1") None None));
     ("3", mkObject RoomObject (mkOdata room_path "B" [] None None None))].

(** ** More of the store, the base object, the commands and the proxy link *)

(** No [location_id] dangles: [get_location] raises on none of the
    instances. *)
Definition locations_resolve (w : World) : Prop :=
  map_Forall (λ _ o, resolves w (location_id (_odata o))) (_objects w).

#[export] Instance locations_resolve_dec (w : World) : Decision (locations_resolve w).
Proof. unfold locations_resolve. apply _. Defined.

(** A document [_load_objects_into_ram] gets through: its parent class
    loads and its id reads as an integer. *)
Definition loadable (load_parent : string → option ParentClass) (doc_id : string)
    (doc : ODATA) : Prop :=
  is_Some (load_parent (parent doc)) ∧ is_Ok (int doc_id).

(** The body of the loop of [_load_objects_into_ram]. *)
Definition load_and_count (load_parent : string → option ParentClass) (doc_id : string)
    : M unit :=
  _load_object load_parent doc_id ;;
  doc_id_int ← read (λ _, int doc_id);
  modify (λ w, if (next_dbref w <=? doc_id_int)%Z
               then with_next_dbref (doc_id_int + 1) w else w).

(** The instance [_load_object] builds from a document, if its parent
    class loads. *)
Definition instance_of (load_parent : string → option ParentClass) (doc : ODATA)
    : option BaseObject :=
  parent_cls ← load_parent (parent doc); Some (mkObject parent_cls doc).

(** The fuzzy score of an object's name against a search string. *)
Definition score (partial_ratio : string → string → Z) (w : World) (desc : string)
    (obj : string) : Z :=
  match _objects w !! obj with
  | Some o => partial_ratio desc (name (_odata o))
  | None => 0%Z
  end.

(** Where an object is, seen from another: the searcher itself, the
    searcher's location, a neighbour in that location, or something the
    searcher carries. *)
Definition near (w : World) (self found : string) : Prop :=
  found = self ∨
  get_location w self = Ok (Some found) ∨
  (∃ loc, get_location w self = Ok (Some loc) ∧ get_location w found = Ok (Some loc)) ∨
  get_location w found = Ok (Some self).

(** The name of [actor] as [viewer] sees it; the empty string when
    [get_appearance_name] raises. *)
Definition shown_name (w : World) (actor viewer : string) : string :=
  match get_appearance_name w actor (PyObj viewer) [] with
  | Ok shown => shown
  | Raise _ => ""
  end.

(** One line for each of [hearers], in order. *)
Definition announcements (w : World) (actor : string) (suffix : string)
    (hearers : list string) : list (string * string) :=
  (λ obj, (obj, shown_name w actor obj +:+ suffix)) <$> hearers.

(** The command the handler looks up: the input as parsed, or 'go' with
    the exit's id when the input named an exit. *)
Definition effective_command (parsed_command : ParsedCommand) (exit_match : option string)
    : ParsedCommand :=
  match exit_match with
  | Some exit_ref =>
      mkParsed "go" ["#" +:+ exit_ref] (argument_string parsed_command)
               (switches parsed_command)
  | None => parsed_command
  end.

(** Only decimal digits. *)
Fixpoint all_digits (s : string) : bool :=
  match s with
  | EmptyString => true
  | String c rest => bool_decide (is_Some (digit_of c)) && all_digits rest
  end.

Section DottMore.

Variable partial_ratio : string → string → Z.
Variable load_parent : string → option ParentClass.
Variable parse : string → ParsedCommand.
Variable lookup_command : CommandTable → ParsedCommand → option BaseCommand.
Variable func : BaseCommand → string → ParsedCommand → M unit.
Variable getTraceback : Exception → string.
Variable global_command_table : CommandTable.
Variable global_admin_command_table : CommandTable.

(** *** InMemoryObjectStore: start-up *)

Definition _create_initial_room : M string :=
  create_object load_parent "src.game.parents.base_objects.room.RoomObject"
    (mkOdata "" "And so it begins..." [] None None None).

(** [_prep_db], once the CouchDB database is at hand (getting or creating
    it is the driver's work): an empty database gets the starter room. *)
Definition _prep_db : M unit :=
  λ w, if decide (size (_db w) = 0%nat)
       then (_create_initial_room ;; mret tt) w
       else (w, Ok tt).

Definition _prepare_at_load : M unit :=
  (* Just in case this is a code reload. *)
  modify (with_objects (λ _, ∅)) ;;
  (* Loads or creates+loads the CouchDB database. *)
  _prep_db ;;
  (* Loads all of the objects into RAM from CouchDB. *)
  _load_objects_into_ram load_parent.

(** *** BaseObject: emitting to the contents, the parent attribute *)

(** [exclude] is None or a list of object references. *)
Definition emit_to_contents (self : string) (message : string)
    (exclude : option (list string)) : M unit :=
  let exclude :=
    match exclude with
    | None | Some [] => []
    | Some objs => objs
    end in
  contents ← read (λ w, get_contents w self);
  for_each contents
    (λ obj, if bool_decide (obj ∉ exclude) then emit_to obj message else mret tt).

Definition with_parent (v : string) (d : ODATA) : ODATA :=
  mkOdata v (name d) (aliases d) (location_id d) (zone_id d) (destination_id d).

Definition set_parent (self : string) (parent_class_path : string) : M unit :=
  update_odata self (with_parent parent_class_path).

(** *** staff.py *)

(** [s.split(sep, 1)]: a list of one member when [sep] does not occur,
    else what stands before and after its first occurrence. *)
Fixpoint split_once (sep : ascii) (s : string) : string * option string :=
  match s with
  | EmptyString => (EmptyString, None)
  | String c rest =>
      if decide (c = sep) then (EmptyString, Some rest)
      else let '(before, after) := split_once sep rest in (String c before, after)
  end.

Definition dquote : string := String (ascii_of_nat 34) EmptyString.

Definition CmdDig_func (invoker : string) (parsed_cmd : ParsedCommand) : M unit :=
  let name_str := String.concat " " (arguments parsed_cmd) in
  if decide (strip name_str = "") then
    raise (CommandError "@dig requires a name for the new room.")
  else
    let room_parent := "src.game.parents.base_objects.room.RoomObject" in
    new_room ← create_object load_parent room_parent
                 (mkOdata "" name_str [] None None None);
    shown ← read (λ w, get_appearance_name w new_room (PyObj invoker) []);
    emit_to invoker ("You have dug a new room named " +:+ dquote +:+ shown +:+ dquote) ;;
    if bool_decide ("teleport" ∈ switches parsed_cmd) then
      move_to parse lookup_command func getTraceback global_command_table
              global_admin_command_table invoker new_room true
    else mret tt.

Definition CmdCreate_func (invoker : string) (parsed_cmd : ParsedCommand) : M unit :=
  let name_str := String.concat " " (arguments parsed_cmd) in
  if decide (strip name_str = "") then
    raise (CommandError "You must provide a name for the new Thing.")
  else
    let thing_parent := "src.game.parents.base_objects.thing.ThingObject" in
    location ← read (λ w, get_location w invoker);
    match location with
    | None => raise (AttributeError "'NoneType' object has no attribute 'id'")
    | Some location_obj =>
        new_thing ← create_object load_parent thing_parent
                      (mkOdata "" name_str [] (Some location_obj) None None);
        shown ← read (λ w, get_appearance_name w new_thing (PyObj invoker) []);
        emit_to invoker
          ("You have created a new thing named " +:+ dquote +:+ shown +:+ dquote)
    end.

Definition CmdZone_func (invoker : string) (parsed_cmd : ParsedCommand) : M unit :=
  match arguments parsed_cmd with
  | [] => raise (CommandError "Set the zone on what?")
  | _ =>
      (* End up with a list of one or two members. Splits around the
         first equal sign found. *)
      match split_once "=" (argument_string parsed_cmd) with
      | (_, None) => raise (CommandError "No zone provided.")
      | (obj_to_zone_str, Some zone_obj_str) =>
          found ← read (λ w, contextual_object_search partial_ratio w invoker
                               obj_to_zone_str);
          match found with
          | None => raise (CommandError "Unable to find your target object to zone.")
          | Some obj_to_zone =>
              zone_obj ←
                (if decide (zone_obj_str = "") then mret None
                 else
                   zone_found ← read (λ w, contextual_object_search partial_ratio w
                                             invoker zone_obj_str);
                   match zone_found with
                   | None => raise (CommandError "Unable to find your zone master object.")
                   | Some z => mret (Some z)
                   end);
              set_zone obj_to_zone (match zone_obj with
                                    | Some z => PyObj z
                                    | None => PyNone
                                    end) ;;
              save obj_to_zone ;;
              match zone_obj with
              | Some z =>
                  shown ← read (λ w, get_appearance_name w obj_to_zone (PyObj invoker) []);
                  shown_zone ← read (λ w, get_appearance_name w z (PyObj invoker) []);
                  emit_to invoker ("You zone " +:+ shown +:+ " to " +:+ shown_zone)
              | None =>
                  shown ← read (λ w, get_appearance_name w obj_to_zone (PyObj invoker) []);
                  emit_to invoker ("You clear the zone (if any) on " +:+ shown)
              end
          end
      end
  end.

Definition _substitute_aliased_parent (parent_str : string) : string :=
  let aliases : gmap string string :=
    list_to_map
      [("thing", "src.game.parents.base_objects.thing.ThingObject");
       ("room", "src.game.parents.base_objects.room.RoomObject");
       ("exit", "src.game.parents.base_objects.exit.ExitObject");
       ("player", "src.game.parents.base_objects.player.PlayerObject");
       ("admin", "src.game.parents.base_objects.player.AdminPlayerObject")] in
  default parent_str (aliases !! lower parent_str).

(** What the missing parent loader puts in its InvalidParent is taken to
    be the path, as in [create_object]. *)
Definition CmdParent_func (invoker : string) (parsed_cmd : ParsedCommand) : M unit :=
  match arguments parsed_cmd with
  | [] => raise (CommandError "Re-parent what?")
  | _ =>
      match split_once "=" (argument_string parsed_cmd) with
      | (_, None) => raise (CommandError "No parent provided.")
      | (obj_to_parent_str, Some parent_str) =>
          let parent_str := _substitute_aliased_parent parent_str in
          if decide (parent_str = "") then raise (CommandError "No parent provided.")
          else
            found ← read (λ w, contextual_object_search partial_ratio w invoker
                                 obj_to_parent_str);
            match found with
            | None =>
                raise (CommandError "Unable to find your target object to re-parent.")
            | Some obj_to_parent =>
                match load_parent parent_str with
                | None => raise (CommandError parent_str)
                | Some _ =>
                    set_parent obj_to_parent parent_str ;;
                    save obj_to_parent ;;
                    reloaded ← reload_object load_parent obj_to_parent;
                    shown ← read (λ w, get_appearance_name w reloaded (PyObj invoker) []);
                    emit_to invoker ("You re-parent " +:+ shown)
                end
            end
      end
  end.

(** *** proxyamp.py: the two commands that reach the store *)

Definition send_through_object_command (object_id : string) (input : string) : M unit :=
  (* Get a reference to the object that will send the command. *)
  obj ← read (λ w, get_object w object_id);
  (* Send the command to the command handler as this object. *)
  execute_command parse lookup_command func getTraceback global_command_table
                  global_admin_command_table obj input.

(** settings.py: the integer 1, which [get_object] reads through [str]. *)
Definition NEW_PLAYER_LOCATION_ID : string := "1".

(** The keywords [original_account_id] and [controlled_by_account_id] go
    into the document as they are; nothing embedded here reads them. *)
Definition create_player_object_command (username : string) : M string :=
  create_object load_parent "src.game.parents.base_objects.player.PlayerObject"
    (mkOdata "" username [] (Some NEW_PLAYER_LOCATION_ID) None None).

End DottMore.

(** ** More stores to run the code on *)

(** A process that has just started on an empty database. *)
Definition fresh_store : World := mkWorld ∅ ∅ 1 [] [] [].

(** [two_rooms] after a load with the base classes. *)
Definition two_rooms_loaded : World := (_load_objects_into_ram base_parents two_rooms).1.

(** A parent loader that knows no class. *)
Definition no_parents (path : string) : option ParentClass := None.

(** Room #1 holds a player; the lamp #3 lies in an object #9 that the
    store does not hold. *)
Definition stranded : World :=
  world_of
    [("1", mkObject RoomObject (mkOdata room_path "And so it begins..." [] None None None));
     ("2", guest);
     ("3", mkObject ThingObject (mkOdata thing_path "lamp" [] (Some "9") None None))].

(** A fuzzy matcher that scores a name by its length, times ten. *)
Definition length_fuzzy_match (_ name : string) : Z := (10 * Z.of_nat (String.length name))%Z.

(** * Proofs *)

(** ** The two monads *)

Lemma bind_M_unfold {A B} (m : M A) (f : A → M B) (w : World) :
  (m ≫= f) w = match m w with
               | (w', Ok a) => f a w'
               | (w', Raise e) => (w', Raise e)
               end.
Proof. reflexivity. Qed.

Lemma bind_M_ok {A B} (m : M A) (f : A → M B) (w w' : World) (a : A) :
  m w = (w', Ok a) → (m ≫= f) w = f a w'.
Proof. intros Hm. rewrite bind_M_unfold, Hm. reflexivity. Qed.

Lemma bind_M_inv {A B} (m : M A) (f : A → M B) (w w' : World) (b : B) :
  (m ≫= f) w = (w', Ok b) → ∃ w1 a, m w = (w1, Ok a) ∧ f a w1 = (w', Ok b).
Proof.
  rewrite bind_M_unfold. destruct (m w) as [w1 [a|e]]; [eauto | discriminate].
Qed.

Lemma read_ok {A B} (r : World → Result A) (f : A → M B) (w : World) (a : A) :
  r w = Ok a → (read r ≫= f) w = f a w.
Proof. intros Hr. rewrite bind_M_unfold. unfold read. rewrite Hr. reflexivity. Qed.

Section Keeps.
Context (R : relation World) `{!PreOrder R}.
#[local] Set Default Proof Using "Type*".

Lemma keeps_ret {A} (a : A) : keeps R (mret a : M A).
Proof. intros w. simpl. reflexivity. Qed.

Lemma keeps_raise {A} (e : Exception) : keeps R (raise e : M A).
Proof. intros w. simpl. reflexivity. Qed.

Lemma keeps_read {A} (r : World → Result A) : keeps R (read r).
Proof. intros w. simpl. reflexivity. Qed.

Lemma keeps_modify (f : World → World) : (∀ w, R w (f w)) → keeps R (modify f).
Proof. intros Hf w. apply Hf. Qed.

Lemma keeps_bind {A B} (m : M A) (f : A → M B) :
  keeps R m → (∀ a, keeps R (f a)) → keeps R (m ≫= f).
Proof.
  intros Hm Hf w. rewrite bind_M_unfold. specialize (Hm w).
  destruct (m w) as [w1 [a|e]]; simpl in *; [|done].
  etrans; [exact Hm | apply Hf].
Qed.

Lemma keeps_catch {A} (m : M A) (h : Exception → M A) :
  keeps R m → (∀ e, keeps R (h e)) → keeps R (catch m h).
Proof.
  intros Hm Hh w. unfold catch. specialize (Hm w).
  destruct (m w) as [w1 [a|e]]; simpl in *; [done|].
  etrans; [exact Hm | apply Hh].
Qed.

Lemma keeps_for_each {A} (xs : list A) (body : A → M unit) :
  (∀ x, keeps R (body x)) → keeps R (for_each xs body).
Proof.
  intros Hbody. induction xs as [|x xs IH]; simpl.
  - apply keeps_ret.
  - apply keeps_bind; [apply Hbody | intros _; exact IH].
Qed.

End Keeps.

Arguments keeps_ret R {_ A} a.
Arguments keeps_raise R {_ A} e.
Arguments keeps_read R {_ A} r.
Arguments keeps_modify R {_} f _.
Arguments keeps_bind R {_ A B} m f _ _.
Arguments keeps_catch R {_ A} m h _ _.
Arguments keeps_for_each R {_ A} xs body _.

(** ** Scans of the store *)

Lemma scan_spec (keep : string → BaseObject → Result bool)
    (items : list (string * BaseObject)) (l : list string) :
  scan keep items = Ok l ↔
  Forall (λ kv, is_Ok (keep kv.1 kv.2)) items ∧ l = (filter (λ kv, kept keep kv) items).*1.
Proof.
  revert l. induction items as [|[id o] items IH]; intros l.
  - simpl. split; [intros [= <-]; split; [constructor | done] | intros [_ ->]; done].
  - simpl scan. destruct (keep id o) as [b|e] eqn:Hk; simpl.
    + assert (Hkept : kept keep (id, o) = b) by (unfold kept; simpl; by rewrite Hk).
      rewrite filter_cons, Hkept.
      destruct (scan keep items) as [found|e] eqn:Hs; simpl.
      * destruct (IH found) as [IH1 _]. destruct (IH1 eq_refl) as [Hall ->].
        split.
        -- intros [= <-]. split; [constructor; [simpl; by eexists | done] |].
           destruct b; simpl; done.
        -- intros [_ ->]. destruct b; simpl; done.
      * split; [discriminate |]. intros [Hall _]. exfalso.
        apply Forall_cons in Hall as [_ Hall].
        destruct (IH ((filter (λ kv, kept keep kv) items).*1)) as [_ IH2].
        specialize (IH2 (conj Hall eq_refl)). discriminate.
    + split; [discriminate |]. intros [Hall _].
      apply Forall_cons in Hall as [[b Hb] _]. simpl in Hb. congruence.
Qed.

Lemma scan_elem_of keep items l id :
  scan keep items = Ok l →
  id ∈ l ↔ ∃ o, (id, o) ∈ items ∧ keep id o = Ok true.
Proof.
  intros [Hall ->]%scan_spec. rewrite list_elem_of_fmap. split.
  - intros [[id' o] [-> [Hk Hin]%list_elem_of_filter]]. exists o. split; [done|].
    unfold kept in Hk. simpl in *. destruct (keep id' o) as [[]|]; done.
  - intros (o & Hin & Hk). exists (id, o). split; [done|].
    apply list_elem_of_filter. split; [|done]. unfold kept. simpl. by rewrite Hk.
Qed.

Lemma scan_NoDup keep items l :
  NoDup items.*1 → scan keep items = Ok l → NoDup l.
Proof.
  intros Hnd [_ ->]%scan_spec.
  eapply sublist_NoDup; [exact Hnd|]. apply fmap_sublist, sublist_filter.
Qed.

(** A scan succeeds or fails by its test alone. *)
Lemma scan_is_Ok keep keep' items :
  is_Ok (scan keep items) →
  (∀ id o, (id, o) ∈ items → is_Ok (keep id o) → is_Ok (keep' id o)) →
  is_Ok (scan keep' items).
Proof.
  intros [l [Hall _]%scan_spec] Himp.
  exists ((filter (λ kv, kept keep' kv) items).*1). apply scan_spec. split; [|done].
  rewrite Forall_forall in Hall |- *. intros [id o] Hin.
  apply Himp; [done|]. by apply (Hall (id, o)).
Qed.

(** ** Reads of the store *)

Lemma deref_Some w ref o : _objects w !! ref = Some o → deref w ref = Ok o.
Proof. unfold deref. by intros ->. Qed.

Lemma get_object_Some w obj_id : is_Some (_objects w !! obj_id) → get_object w obj_id = Ok obj_id.
Proof. unfold get_object. by intros [o ->]. Qed.

Lemma get_object_inv w obj_id r :
  get_object w obj_id = Ok r → r = obj_id ∧ is_Some (_objects w !! obj_id).
Proof.
  unfold get_object. destruct (_objects w !! obj_id) eqn:E; [|done].
  intros [= <-]. split; [done | by eexists].
Qed.

Lemma resolve_id_ok w v : resolves w v → resolve_id w v = Ok (truthy_id v).
Proof.
  unfold resolves, resolve_id. destruct (truthy_id v) as [r|]; [|done].
  intros Hr. by rewrite (get_object_Some _ _ Hr).
Qed.

Lemma resolve_id_inv w v r : resolve_id w v = Ok r → r = truthy_id v ∧ resolves w v.
Proof.
  unfold resolves, resolve_id. destruct (truthy_id v) as [x|]; [|by intros [= <-]].
  destruct (get_object w x) as [y|e] eqn:Hg; [|done].
  apply get_object_inv in Hg as [-> Hx]. by intros [= <-].
Qed.

Lemma get_location_Some w self o :
  _objects w !! self = Some o → get_location w self = resolve_id w (location_id (_odata o)).
Proof. intros Ho. unfold get_location. by rewrite (deref_Some _ _ _ Ho). Qed.

Lemma get_zone_Some w self o :
  _objects w !! self = Some o → get_zone w self = resolve_id w (zone_id (_odata o)).
Proof. intros Ho. unfold get_zone. by rewrite (deref_Some _ _ _ Ho). Qed.

Lemma get_destination_Some w self o :
  _objects w !! self = Some o →
  get_destination w self = resolve_id w (destination_id (_odata o)).
Proof. intros Ho. unfold get_destination. by rewrite (deref_Some _ _ _ Ho). Qed.

(** The members of a zone, in a store whose zones resolve. *)
Lemma find_objects_in_zone_ok w obj :
  zones_resolve w → ∃ members, find_objects_in_zone w obj = Ok members ∧ NoDup members ∧
    ∀ m, m ∈ members ↔
         ∃ o, _objects w !! m = Some o ∧ truthy_id (zone_id (_odata o)) = Some obj.
Proof.
  intros Hz. unfold find_objects_in_zone.
  set (keep := λ (id : string) (_ : BaseObject),
                 zone ← get_zone w id; Ok (bool_decide (zone = Some obj))).
  assert (Hkeep : ∀ id o, (id, o) ∈ map_to_list (_objects w) →
            keep id o = Ok (bool_decide (truthy_id (zone_id (_odata o)) = Some obj))).
  { intros id o Hin%elem_of_map_to_list. unfold keep.
    rewrite (get_zone_Some _ _ _ Hin), resolve_id_ok; [done|]. by apply (Hz id). }
  destruct (scan keep (map_to_list (_objects w))) as [members|e] eqn:Hs.
  - exists members. split; [done|]. split.
    + eapply scan_NoDup; [|exact Hs]. apply NoDup_fst_map_to_list.
    + intros m. rewrite (scan_elem_of _ _ _ _ Hs). split.
      * intros (o & Hin & Hk). exists o. rewrite (Hkeep _ _ Hin) in Hk.
        apply elem_of_map_to_list in Hin. split; [done|].
        injection Hk as Hk. by apply bool_decide_eq_true in Hk.
      * intros (o & Ho & Hzo). exists o. apply elem_of_map_to_list in Ho.
        split; [done|]. rewrite (Hkeep _ _ Ho). f_equal. by apply bool_decide_eq_true.
  - exfalso. assert (is_Ok (scan keep (map_to_list (_objects w)))) as [l Hl]; [|congruence].
    eexists. apply scan_spec. split; [|done]. apply Forall_forall. intros [id o] Hin.
    simpl. rewrite (Hkeep _ _ Hin). by eexists.
Qed.

(** An exit has no linked exits, whatever the store holds. *)
Lemma find_exits_of_exit w obj o :
  _objects w !! obj = Some o → base_type (cls o) = "exit" →
  find_exits_linked_to_obj w obj = Ok [].
Proof.
  intros Ho Hexit. unfold find_exits_linked_to_obj. rewrite (deref_Some _ _ _ Ho). simpl.
  by destruct (decide (base_type (cls o) = "exit")).
Qed.

(** The exits linked to an object that is not an exit, in a store whose
    destinations resolve. *)
Lemma find_exits_ok w obj o :
  _objects w !! obj = Some o → base_type (cls o) ≠ "exit" → destinations_resolve w →
  ∃ exits, find_exits_linked_to_obj w obj = Ok exits ∧ NoDup exits ∧
    ∀ x, x ∈ exits ↔
         ∃ ox, _objects w !! x = Some ox ∧ base_type (cls ox) = "exit" ∧
               truthy_id (destination_id (_odata ox)) = Some obj.
Proof.
  intros Ho Hne Hd. unfold find_exits_linked_to_obj. rewrite (deref_Some _ _ _ Ho). simpl.
  destruct (decide (base_type (cls o) = "exit")); [done|].
  set (keep := λ (id : string) (db_obj : BaseObject),
                 if decide (base_type (cls db_obj) = "exit") then
                   destination ← get_destination w id;
                   Ok (bool_decide (destination = Some obj))
                 else Ok false).
  assert (Hkeep : ∀ id ox, (id, ox) ∈ map_to_list (_objects w) →
            keep id ox = Ok (bool_decide (base_type (cls ox) = "exit" ∧
                               truthy_id (destination_id (_odata ox)) = Some obj))).
  { intros id ox Hin%elem_of_map_to_list. unfold keep.
    destruct (decide (base_type (cls ox) = "exit")) as [Hex|Hex].
    - rewrite (get_destination_Some _ _ _ Hin), resolve_id_ok; [|by apply (Hd id)].
      simpl. f_equal. apply bool_decide_ext. split; [by intros ? | by intros [_ ?]].
    - f_equal. symmetry. apply bool_decide_eq_false. by intros [? _]. }
  destruct (scan keep (map_to_list (_objects w))) as [exits|e] eqn:Hs.
  - exists exits. split; [done|]. split.
    + eapply scan_NoDup; [|exact Hs]. apply NoDup_fst_map_to_list.
    + intros x. rewrite (scan_elem_of _ _ _ _ Hs). split.
      * intros (ox & Hin & Hk). exists ox. rewrite (Hkeep _ _ Hin) in Hk.
        apply elem_of_map_to_list in Hin. split; [done|].
        injection Hk as Hk. by apply bool_decide_eq_true in Hk.
      * intros (ox & Hox & Hex & Hdx). exists ox. apply elem_of_map_to_list in Hox.
        split; [done|]. rewrite (Hkeep _ _ Hox). f_equal. by apply bool_decide_eq_true.
  - exfalso. assert (is_Ok (scan keep (map_to_list (_objects w)))) as [l Hl]; [|congruence].
    eexists. apply scan_spec. split; [|done]. apply Forall_forall. intros [id ox] Hin.
    simpl. rewrite (Hkeep _ _ Hin). by eexists.
Qed.

(** ** What [destroy] leaves of the store *)

Lemma unzone_cls gone o : cls (unzone gone o) = cls o.
Proof.
  unfold unzone. destruct (truthy_id (zone_id (_odata o))) as [z|]; [|done].
  by destruct (decide (z ∈ gone)).
Qed.

Lemma unzone_destination gone o :
  destination_id (_odata (unzone gone o)) = destination_id (_odata o).
Proof.
  unfold unzone. destruct (truthy_id (zone_id (_odata o))) as [z|]; [|done].
  by destruct (decide (z ∈ gone)).
Qed.

(** After [unzone], a zone that is still set names no removed instance. *)
Lemma unzone_zone gone o z :
  truthy_id (zone_id (_odata (unzone gone o))) = Some z →
  z ∉ gone ∧ truthy_id (zone_id (_odata o)) = Some z.
Proof.
  unfold unzone. destruct (truthy_id (zone_id (_odata o))) as [z'|] eqn:Hz.
  - destruct (decide (z' ∈ gone)); simpl; [done|]. rewrite Hz. by intros [= <-].
  - by rewrite Hz.
Qed.

Lemma unzone_member gone o z :
  truthy_id (zone_id (_odata o)) = Some z → z ∈ gone →
  zone_id (_odata (unzone gone o)) = None.
Proof. intros Hz Hin. unfold unzone. rewrite Hz. by destruct (decide (z ∈ gone)). Qed.

Lemma unzone_union g1 g2 o : unzone g2 (unzone g1 o) = unzone (g1 ∪ g2) o.
Proof.
  unfold unzone at 2 3. destruct (truthy_id (zone_id (_odata o))) as [z|] eqn:Hz.
  - destruct (decide (z ∈ g1)) as [H1|H1].
    + rewrite decide_True by set_solver. done.
    + unfold unzone. rewrite Hz.
      destruct (decide (z ∈ g2)); [rewrite decide_True by set_solver
                                  | rewrite decide_False by set_solver]; done.
  - unfold unzone. by rewrite Hz.
Qed.

Lemma after_destroy_lookup gone objs k :
  after_destroy gone objs !! k =
  if decide (k ∈ gone) then None else unzone gone <$> objs !! k.
Proof.
  unfold after_destroy. rewrite lookup_fmap, map_lookup_filter.
  destruct (objs !! k) as [o|]; simpl.
  - destruct (decide (k ∈ gone)); [by rewrite option_guard_False by (simpl; tauto)
                                  | by rewrite option_guard_True]. 
  - by destruct (decide (k ∈ gone)).
Qed.

Lemma after_destroy_union g1 g2 objs :
  after_destroy g2 (after_destroy g1 objs) = after_destroy (g1 ∪ g2) objs.
Proof.
  apply map_eq. intros k. rewrite !after_destroy_lookup.
  destruct (decide (k ∈ g2)), (decide (k ∈ g1)).
  - by rewrite decide_True by set_solver.
  - by rewrite decide_True by set_solver.
  - by rewrite decide_True by set_solver.
  - rewrite decide_False by set_solver. destruct (objs !! k); simpl; [|done].
    by rewrite unzone_union.
Qed.

Lemma after_destroy_empty objs : after_destroy ∅ objs = objs.
Proof.
  apply map_eq. intros k. rewrite after_destroy_lookup, decide_False by set_solver.
  destruct (objs !! k) as [o|]; simpl; [|done]. f_equal.
  unfold unzone. destruct (truthy_id (zone_id (_odata o))); [|done].
  by rewrite decide_False by set_solver.
Qed.

Lemma after_destroy_dom gone objs : dom (after_destroy gone objs) = dom objs ∖ gone.
Proof.
  apply set_eq. intros k. rewrite elem_of_difference, !elem_of_dom, after_destroy_lookup.
  destruct (decide (k ∈ gone)).
  - split; [by intros [? ?] | tauto].
  - rewrite fmap_is_Some. tauto.
Qed.

Lemma zones_resolve_after_destroy gone w w' :
  zones_resolve w → _objects w' = after_destroy gone (_objects w) → zones_resolve w'.
Proof.
  intros Hz Hobjs k o' Hk. rewrite Hobjs, after_destroy_lookup in Hk.
  destruct (decide (k ∈ gone)); [done|].
  destruct (_objects w !! k) as [o|] eqn:Ho; [|done]. injection Hk as <-.
  unfold resolves. destruct (truthy_id (zone_id (_odata (unzone gone o)))) as [z|] eqn:Hzo;
    [|done].
  apply unzone_zone in Hzo as [Hng Hzo].
  specialize (Hz k o Ho). unfold resolves in Hz. rewrite Hzo in Hz.
  rewrite Hobjs, after_destroy_lookup, decide_False by done. by apply fmap_is_Some.
Qed.

(** The loop that un-sets the members' zones. *)
Lemma unzone_loop_spec members w :
  (∀ m, m ∈ members → is_Some (_objects w !! m)) →
  ∃ w', for_each members (λ obj, set_zone obj PyNone ;; save obj) w = (w', Ok tt) ∧
    (∀ k, _objects w' !! k =
          if decide (k ∈ members) then map_odata (with_zone_id None) <$> _objects w !! k
          else _objects w !! k) ∧
    dom (_db w) ⊆ dom (_db w').
Proof.
  revert w. induction members as [|m rest IH]; intros w Hin.
  - exists w. split; [done|]. split; [|done]. intros k.
    by rewrite decide_False by set_solver.
  - destruct (Hin m) as [o Ho]; [set_solver|].
    set (o' := map_odata (with_zone_id None) o).
    set (w1 := with_objects (<[m := o']>)
                 (with_db (<[m := _odata o']>) (with_objects (<[m := o']>) w))).
    assert (Hstep : (set_zone m PyNone ;; save m) w = (w1, Ok tt)).
    { unfold set_zone, update_odata, save, save_object, modify, read, deref.
      rewrite bind_M_unfold, Ho. simpl. rewrite bind_M_unfold. simpl.
      rewrite lookup_insert_eq. done. }
    assert (Hw1 : ∀ k, _objects w1 !! k = if decide (k = m) then Some o' else _objects w !! k).
    { intros k. simpl. destruct (decide (k = m)) as [->|Hne].
      - by rewrite lookup_insert_eq.
      - by rewrite !lookup_insert_ne. }
    destruct (IH w1) as (w' & Hrun & Hobjs & Hdb).
    { intros m' Hm'. rewrite Hw1. destruct (decide (m' = m)); [by eexists|].
      apply Hin. set_solver. }
    exists w'. split; [|split].
    + simpl for_each. rewrite (bind_M_ok _ _ _ _ _ Hstep). exact Hrun.
    + intros k. rewrite Hobjs, Hw1.
      destruct (decide (k = m)) as [->|Hne].
      * rewrite (decide_True (P := m ∈ m :: rest)) by set_solver. rewrite Ho. simpl.
        by destruct (decide (m ∈ rest)).
      * destruct (decide (k ∈ rest)).
        -- by rewrite decide_True by set_solver.
        -- by rewrite decide_False by set_solver.
    + etrans; [|exact Hdb]. simpl. set_solver.
Qed.

Lemma unzone_members_and_remove_spec self w :
  is_Some (_objects w !! self) → zones_resolve w → persisted w →
  ∃ w', unzone_members_and_remove self w = (w', Ok tt) ∧
        _objects w' = after_destroy {[self]} (_objects w) ∧ persisted w'.
Proof.
  intros Hself Hz Hp.
  destruct (find_objects_in_zone_ok w self Hz) as (members & Hfind & _ & Hmem).
  destruct (unzone_loop_spec members w) as (w1 & Hloop & Hobjs & Hdb).
  { intros m [o [Ho _]]%Hmem. by eexists. }
  assert (Hdbself : is_Some (_db w1 !! self)).
  { apply elem_of_dom, Hdb, Hp. by apply elem_of_dom. }
  assert (Hself1 : is_Some (_objects w1 !! self)).
  { rewrite Hobjs. destruct (decide (self ∈ members)); [by apply fmap_is_Some | done]. }
  exists (with_objects (delete self) (with_db (delete self) w1)).
  split; [|split].
  - unfold unzone_members_and_remove. rewrite (read_ok _ _ _ _ Hfind).
    rewrite (bind_M_ok _ _ _ _ _ Hloop). unfold destroy_object.
    destruct Hdbself as [d ->]. simpl. by destruct Hself1 as [o1 ->].
  - simpl. apply map_eq. intros k. rewrite after_destroy_lookup.
    destruct (decide (k ∈ ({[self]} : gset string))) as [Hk|Hk].
    + apply elem_of_singleton in Hk as ->. by rewrite lookup_delete_eq.
    + rewrite lookup_delete_ne by set_solver. rewrite Hobjs.
      destruct (_objects w !! k) as [o|] eqn:Ho; simpl; [|by destruct (decide _)].
      unfold unzone. destruct (decide (k ∈ members)) as [Hm|Hm].
      * apply Hmem in Hm as (o2 & Ho2 & Hzo). assert (o2 = o) as -> by congruence.
        rewrite Hzo. by rewrite decide_True by set_solver.
      * destruct (truthy_id (zone_id (_odata o))) as [z|] eqn:Hzo; [|done].
        destruct (decide (z ∈ ({[self]} : gset string))) as [->%elem_of_singleton|]; [|done].
        exfalso. apply Hm, Hmem. eauto.
  - unfold persisted in *. simpl. rewrite !dom_delete_L.
    assert (dom (_objects w1) = dom (_objects w)) as ->.
    { apply set_eq. intros k. rewrite !elem_of_dom, Hobjs.
      destruct (decide (k ∈ members)); [by rewrite fmap_is_Some | done]. }
    set_solver.
Qed.

Lemma destroy_S depth self :
  destroy (S depth) self =
  (exits ← read (λ w, find_exits_linked_to_obj w self);
   for_each exits (λ exit, destroy depth exit) ;;
   unzone_members_and_remove self).
Proof. reflexivity. Qed.

Lemma destroy_exit_spec depth self w o :
  _objects w !! self = Some o → base_type (cls o) = "exit" →
  zones_resolve w → persisted w →
  ∃ w', destroy (S depth) self w = (w', Ok tt) ∧
        _objects w' = after_destroy {[self]} (_objects w) ∧ persisted w'.
Proof.
  intros Ho Hexit Hz Hp.
  destruct (unzone_members_and_remove_spec self w) as (w' & Hrun & Hobjs & Hp');
    [by eexists | done | done |].
  exists w'. split; [|done].
  rewrite destroy_S, (read_ok _ _ _ _ (find_exits_of_exit _ _ _ Ho Hexit)).
  simpl for_each. by rewrite bind_M_unfold.
Qed.

(** The loop that destroys the linked exits. *)
Lemma destroy_exits_spec depth exits w :
  NoDup exits →
  (∀ e, e ∈ exits → ∃ o, _objects w !! e = Some o ∧ base_type (cls o) = "exit") →
  zones_resolve w → persisted w →
  ∃ w', for_each exits (λ exit, destroy (S depth) exit) w = (w', Ok tt) ∧
        _objects w' = after_destroy (list_to_set exits) (_objects w) ∧ persisted w'.
Proof.
  revert w. induction exits as [|e rest IH]; intros w Hnd Hex Hz Hp.
  - exists w. simpl. by rewrite after_destroy_empty.
  - apply NoDup_cons in Hnd as [Hnotin Hnd].
    destruct (Hex e) as (o & Ho & Hexit); [set_solver|].
    destruct (destroy_exit_spec depth e w o Ho Hexit Hz Hp) as (w1 & Hrun1 & Hobjs1 & Hp1).
    destruct (IH w1 Hnd) as (w' & Hrun & Hobjs & Hp'); [| |done|].
    + intros e' He'. destruct (Hex e') as (o' & Ho' & Hexit'); [set_solver|].
      exists (unzone {[e]} o'). rewrite Hobjs1, after_destroy_lookup.
      rewrite decide_False by set_solver. rewrite Ho'. simpl.
      by rewrite unzone_cls.
    + by eapply zones_resolve_after_destroy.
    + exists w'. split; [|split; [|done]].
      * simpl for_each. by rewrite (bind_M_ok _ _ _ _ _ Hrun1).
      * rewrite Hobjs, Hobjs1, after_destroy_union. done.
Qed.

(** [destroy] in a consistent store: it succeeds, and removes the exits
    [find_exits_linked_to_obj] reports and the object, un-setting every
    zone that named one of them. *)
Lemma destroy_spec (depth : nat) (self : string) (w : World) (o : BaseObject) :
  (2 ≤ depth)%nat → _objects w !! self = Some o → consistent w →
  ∃ exits w',
    find_exits_linked_to_obj w self = Ok exits ∧ NoDup exits ∧ self ∉ exits ∧
    (∀ x, x ∈ exits → ∃ ox, _objects w !! x = Some ox ∧ base_type (cls ox) = "exit") ∧
    (base_type (cls o) ≠ "exit" →
     ∀ x ox, _objects w !! x = Some ox → base_type (cls ox) = "exit" →
             truthy_id (destination_id (_odata ox)) = Some self → x ∈ exits) ∧
    destroy depth self w = (w', Ok tt) ∧
    _objects w' = after_destroy (list_to_set exits ∪ {[self]}) (_objects w) ∧
    persisted w' ∧ zones_resolve w'.
Proof.
  intros Hdepth Ho (Hp & Hz & Hd).
  destruct depth as [|[|depth]]; [lia | lia |].
  assert (∃ exits, find_exits_linked_to_obj w self = Ok exits ∧ NoDup exits ∧ self ∉ exits ∧
            (∀ x, x ∈ exits → ∃ ox, _objects w !! x = Some ox ∧ base_type (cls ox) = "exit") ∧
            (base_type (cls o) ≠ "exit" →
             ∀ x ox, _objects w !! x = Some ox → base_type (cls ox) = "exit" →
                     truthy_id (destination_id (_odata ox)) = Some self → x ∈ exits))
    as (exits & Hfind & Hnd & Hnotin & Hexits & Hall).
  { destruct (decide (base_type (cls o) = "exit")) as [Hexit|Hexit].
    - exists []. split; [by eapply find_exits_of_exit|].
      split; [constructor|]. split; [set_solver|]. split; [set_solver | done].
    - destruct (find_exits_ok w self o Ho Hexit Hd) as (exits & Hfind & Hnd & Hmem).
      exists exits. split; [done|]. split; [done|]. split; [|split].
      + intros (ox & Hox & Hex & _)%Hmem. congruence.
      + intros x (ox & Hox & Hex & _)%Hmem. eauto.
      + intros _ x ox Hox Hex Hdx. apply Hmem. eauto. }
  destruct (destroy_exits_spec depth exits w Hnd Hexits Hz Hp) as (w1 & Hloop & Hobjs1 & Hp1).
  destruct (unzone_members_and_remove_spec self w1) as (w' & Htail & Hobjs & Hp').
  { rewrite Hobjs1, after_destroy_lookup, decide_False, Ho by set_solver. by eexists. }
  { by eapply zones_resolve_after_destroy. }
  { done. }
  assert (Hfinal : _objects w' = after_destroy (list_to_set exits ∪ {[self]}) (_objects w)).
  { by rewrite Hobjs, Hobjs1, after_destroy_union. }
  exists exits, w'. repeat (split; [done|]). split; [|split; [|split; [done|]]].
  - rewrite destroy_S, (read_ok _ _ _ _ Hfind), (bind_M_ok _ _ _ _ _ Hloop). exact Htail.
  - done.
  - by eapply zones_resolve_after_destroy.
Qed.

(** ** Which exceptions a computation can raise *)

Lemma lookup_error_store_error e : lookup_error e → store_error e.
Proof. by destruct e. Qed.

Lemma fails_only_Ok {A} P (a : A) : fails_only P (Ok a).
Proof. intros e. discriminate. Qed.

Lemma fails_only_bind {A B} P (r : Result A) (f : A → Result B) :
  fails_only P r → (∀ a, fails_only P (f a)) → fails_only P (r ≫= f).
Proof.
  intros Hr Hf e. destruct r as [a|e']; simpl.
  - apply Hf.
  - intros [= <-]. by apply Hr.
Qed.

Lemma fails_only_mono {A} (P Q : Exception → Prop) (r : Result A) :
  (∀ e, P e → Q e) → fails_only P r → fails_only Q r.
Proof. intros HPQ Hr e He. apply HPQ, Hr, He. Qed.

Lemma deref_fails w ref : fails_only lookup_error (deref w ref).
Proof. unfold deref. intros e. destruct (_objects w !! ref); [done | by intros [= <-]]. Qed.

Lemma get_object_fails w obj_id : fails_only lookup_error (get_object w obj_id).
Proof.
  unfold get_object. intros e. destruct (_objects w !! obj_id); [done | by intros [= <-]].
Qed.

Lemma resolve_id_fails w v : fails_only lookup_error (resolve_id w v).
Proof.
  unfold resolve_id. destruct (truthy_id v); [|apply fails_only_Ok].
  apply fails_only_bind; [apply get_object_fails | intros; apply fails_only_Ok].
Qed.

Lemma get_location_fails w self : fails_only lookup_error (get_location w self).
Proof. apply fails_only_bind; [apply deref_fails | intros; apply resolve_id_fails]. Qed.

Lemma get_zone_fails w self : fails_only lookup_error (get_zone w self).
Proof. apply fails_only_bind; [apply deref_fails | intros; apply resolve_id_fails]. Qed.

Lemma get_destination_fails w self : fails_only lookup_error (get_destination w self).
Proof. apply fails_only_bind; [apply deref_fails | intros; apply resolve_id_fails]. Qed.

Lemma scan_fails P keep items :
  (∀ id o, fails_only P (keep id o)) → fails_only P (scan keep items).
Proof.
  intros Hkeep. induction items as [|[id o] items IH]; simpl.
  - apply fails_only_Ok.
  - apply fails_only_bind; [apply Hkeep|]. intros b.
    apply fails_only_bind; [exact IH | intros; apply fails_only_Ok].
Qed.

Lemma get_object_contents_fails w obj : fails_only lookup_error (get_object_contents w obj).
Proof.
  apply scan_fails. intros id o.
  apply fails_only_bind; [apply get_location_fails | intros; apply fails_only_Ok].
Qed.

Lemma find_objects_in_zone_fails w obj : fails_only lookup_error (find_objects_in_zone w obj).
Proof.
  apply scan_fails. intros id o.
  apply fails_only_bind; [apply get_zone_fails | intros; apply fails_only_Ok].
Qed.

Lemma find_exits_linked_to_obj_fails w obj :
  fails_only lookup_error (find_exits_linked_to_obj w obj).
Proof.
  apply fails_only_bind; [apply deref_fails|]. intros o.
  destruct (decide (base_type (cls o) = "exit")); [apply fails_only_Ok|].
  apply scan_fails. intros id db_obj.
  destruct (decide (base_type (cls db_obj) = "exit")); [|apply fails_only_Ok].
  apply fails_only_bind; [apply get_destination_fails | intros; apply fails_only_Ok].
Qed.

Lemma raises_only_ret {A} P (a : A) : raises_only P (mret a : M A).
Proof. intros w w' e. discriminate. Qed.

Lemma raises_only_raise {A} (P : Exception → Prop) e : P e → raises_only P (raise e : M A).
Proof. intros HP w w' e' [= _ <-]. exact HP. Qed.

Lemma raises_only_read {A} P (r : World → Result A) :
  (∀ w, fails_only P (r w)) → raises_only P (read r).
Proof. intros Hr w w' e [= _ He]. by apply (Hr w). Qed.

Lemma raises_only_modify P f : raises_only P (modify f).
Proof. intros w w' e. discriminate. Qed.

Lemma raises_only_bind {A B} P (m : M A) (f : A → M B) :
  raises_only P m → (∀ a, raises_only P (f a)) → raises_only P (m ≫= f).
Proof.
  intros Hm Hf w w' e. rewrite bind_M_unfold.
  destruct (m w) as [w1 [a|e1]] eqn:Hmw.
  - apply Hf.
  - intros [= _ <-]. by eapply Hm.
Qed.

Lemma raises_only_for_each {A} P (xs : list A) (body : A → M unit) :
  (∀ x, raises_only P (body x)) → raises_only P (for_each xs body).
Proof.
  intros Hbody. induction xs as [|x xs IH]; simpl.
  - apply raises_only_ret.
  - apply raises_only_bind; [apply Hbody | intros _; exact IH].
Qed.

Lemma update_odata_raises self f : raises_only store_error (update_odata self f).
Proof.
  intros w w' e. unfold update_odata. destruct (_objects w !! self); [discriminate|].
  by intros [= _ <-].
Qed.

Lemma save_raises self : raises_only store_error (save self).
Proof.
  apply raises_only_bind.
  - apply raises_only_read. intros w.
    eapply fails_only_mono; [apply lookup_error_store_error | apply deref_fails].
  - intros o. apply raises_only_modify.
Qed.

Lemma destroy_object_raises obj : raises_only store_error (destroy_object obj).
Proof.
  intros w w' e. unfold destroy_object. destruct (_db w !! obj); [|by intros [= _ <-]].
  simpl. destruct (_objects w !! obj); [discriminate | by intros [= _ <-]].
Qed.

Lemma destroy_raises depth self : raises_only store_error (destroy depth self).
Proof.
  revert self. induction depth as [|depth IH]; intros self.
  - by apply raises_only_raise.
  - rewrite destroy_S. apply raises_only_bind.
    { apply raises_only_read. intros w.
      eapply fails_only_mono; [apply lookup_error_store_error|].
      apply find_exits_linked_to_obj_fails. }
    intros exits. apply raises_only_bind; [by apply raises_only_for_each|]. intros _.
    unfold unzone_members_and_remove. apply raises_only_bind.
    { apply raises_only_read. intros w.
      eapply fails_only_mono; [apply lookup_error_store_error|].
      apply find_objects_in_zone_fails. }
    intros members. apply raises_only_bind; [|intros _; apply destroy_object_raises].
    apply raises_only_for_each. intros m.
    apply raises_only_bind; [|intros _; apply save_raises].
    unfold set_zone. apply update_odata_raises.
Qed.

(** ** Destroying objects (C1, C2, C9) *)

Lemma after_destroy_size gone objs :
  gone ⊆ dom objs → size objs = (size (after_destroy gone objs) + size gone)%nat.
Proof.
  intros Hsub. rewrite <- !size_dom, after_destroy_dom, size_difference by done.
  apply subseteq_size in Hsub. lia.
Qed.

(** C1 (amended).  In a store whose references resolve and whose exits do
    not lead to exits, [destroy()] on an object with N linked exits and M
    zone members succeeds and removes exactly N+1 instances: the linked
    exits and the object.  The zone members are not removed: each one that
    is neither the object nor a linked exit survives with its [zone_id]
    un-set.  Afterwards every [zone_id] and every exit's [destination_id]
    among the survivors names a survivor. *)
Theorem destroy_removes_linked_exits_and_self (depth : nat) (self : string) (w : World) :
  (2 ≤ depth)%nat → is_Some (_objects w !! self) → consistent w →
  exits_lead_to_non_exits w →
  ∃ exits members w',
    find_exits_linked_to_obj w self = Ok exits ∧
    find_objects_in_zone w self = Ok members ∧
    destroy depth self w = (w', Ok tt) ∧
    dom (_objects w') = dom (_objects w) ∖ (list_to_set exits ∪ {[self]}) ∧
    size (_objects w) = (size (_objects w') + (length exits + 1))%nat ∧
    (∀ m, m ∈ members → m ≠ self → m ∉ exits →
          ∃ o, _objects w' !! m = Some o ∧ zone_id (_odata o) = None) ∧
    zones_resolve w' ∧ destinations_resolve w'.
Proof.
  intros Hdepth [o Ho] Hcons Hlinks.
  destruct (destroy_spec depth self w o Hdepth Ho Hcons)
    as (exits & w' & Hfind & Hnd & Hnotin & Hexits & Hall & Hrun & Hobjs & Hp' & Hz').
  destruct Hcons as (Hp & Hz & Hd).
  destruct (find_objects_in_zone_ok w self Hz) as (members & Hzone & _ & Hmem).
  set (gone := (list_to_set exits ∪ {[self]} : gset string)) in *.
  assert (Hgone : gone ⊆ dom (_objects w)).
  { intros x [Hx%elem_of_list_to_set | ->%elem_of_singleton]%elem_of_union.
    - destruct (Hexits x Hx) as (ox & Hox & _). by apply elem_of_dom.
    - by apply elem_of_dom. }
  exists exits, members, w'. repeat (split; [done|]).
  split; [by rewrite Hobjs, after_destroy_dom|]. split; [|split; [|split; [done|]]].
  - rewrite Hobjs, (after_destroy_size gone) by done. f_equal. unfold gone.
    rewrite size_union, size_list_to_set, size_singleton by set_solver. done.
  - intros m (om & Hom & Hzm)%Hmem Hne Hnex.
    exists (unzone gone om). split.
    + rewrite Hobjs, after_destroy_lookup, decide_False, Hom by set_solver. done.
    + eapply unzone_member; [exact Hzm | set_solver].
  - intros k o' Hk Hexit. rewrite Hobjs, after_destroy_lookup in Hk.
    destruct (decide (k ∈ gone)) as [|Hkgone]; [done|].
    destruct (_objects w !! k) as [ok|] eqn:Hok; [|done]. injection Hk as <-.
    rewrite unzone_cls in Hexit. unfold resolves. rewrite unzone_destination.
    destruct (truthy_id (destination_id (_odata ok))) as [d|] eqn:Hdk; [|done].
    pose proof (Hd k ok Hok Hexit) as Hres. unfold resolves in Hres. rewrite Hdk in Hres.
    destruct Hres as [od Hod].
    pose proof (Hlinks k ok Hok Hexit) as Hlink. rewrite Hdk in Hlink. simpl in Hlink.
    rewrite Hod in Hlink.
    rewrite Hobjs, after_destroy_lookup, decide_False, Hod; [by eexists|].
    intros [Hdx%elem_of_list_to_set | ->%elem_of_singleton]%elem_of_union.
    + destruct (Hexits d Hdx) as (ox & Hox & Hexd). congruence.
    + assert (od = o) as -> by congruence.
      apply Hkgone, elem_of_union_l, elem_of_list_to_set. by eapply Hall.
Qed.

(** C2 (amended).  [destroy()], the one destroy path of the sources and the
    one [@destroy] calls, never fails with ObjectHasZoneMembers.  On an
    object that still has zone members, in a store whose references
    resolve, it succeeds without the zone being emptied or razed first: it
    un-sets the [zone_id] of every member itself and removes the object,
    so the store does change. *)
Theorem destroy_unzones_members_instead_of_failing
    (depth : nat) (self : string) (w : World) (members : list string) :
  (2 ≤ depth)%nat → is_Some (_objects w !! self) → consistent w →
  find_objects_in_zone w self = Ok members → members ≠ [] →
  (∀ message, (destroy depth self w).2 ≠ Raise (ObjectHasZoneMembers message)) ∧
  ∃ w', destroy depth self w = (w', Ok tt) ∧
        _objects w' !! self = None ∧
        _objects w' ≠ _objects w ∧
        ∀ m o', m ∈ members → _objects w' !! m = Some o' → zone_id (_odata o') = None.
Proof.
  intros Hdepth [o Ho] Hcons Hzone Hne. split.
  { intros message Hraise. destruct (destroy depth self w) as [w1 r] eqn:Hrun.
    simpl in Hraise. subst r. by apply destroy_raises in Hrun. }
  destruct (destroy_spec depth self w o Hdepth Ho Hcons)
    as (exits & w' & Hfind & Hnd & Hnotin & Hexits & Hall & Hrun & Hobjs & Hp' & Hz').
  destruct Hcons as (Hp & Hz & Hd).
  destruct (find_objects_in_zone_ok w self Hz) as (members' & Hzone' & _ & Hmem).
  assert (members' = members) as -> by congruence.
  assert (Hgone : _objects w' !! self = None).
  { rewrite Hobjs, after_destroy_lookup. by rewrite decide_True by set_solver. }
  exists w'. split; [done|]. split; [done|]. split.
  - intros Heq. rewrite Heq, Ho in Hgone. discriminate.
  - intros m o' (om & Hom & Hzm)%Hmem Hm'.
    rewrite Hobjs, after_destroy_lookup in Hm'.
    destruct (decide (m ∈ list_to_set exits ∪ ({[self]} : gset string))); [done|].
    rewrite Hom in Hm'. injection Hm' as <-.
    eapply unzone_member; [exact Hzm | set_solver].
Qed.

(** Whatever its outcome, [destroy] removes nothing but what it is asked
    to when no exit is reported as linked. *)
Lemma destroy_exit_keeps_others depth self w o :
  _objects w !! self = Some o → base_type (cls o) = "exit" →
  ∀ x, x ≠ self → x ∈ dom (_objects w) → x ∈ dom (_objects (destroy depth self w).1).
Proof.
  intros Ho Hexit x Hne.
  set (R := λ w1 w2 : World, x ∈ dom (_objects w1) → x ∈ dom (_objects w2)).
  assert (HR : PreOrder R).
  { split; [intros w1; unfold R; tauto | intros w1 w2 w3; unfold R; tauto]. }
  assert (Hk : keeps R (unzone_members_and_remove self)).
  { unfold unzone_members_and_remove. apply (keeps_bind R).
    { apply (keeps_read R). }
    intros members. apply (keeps_bind R).
    - apply (keeps_for_each R). intros m. apply (keeps_bind R).
      + intros w1. unfold set_zone, update_odata, R.
        destruct (_objects w1 !! m); simpl; [|done]. rewrite dom_insert_L. set_solver.
      + intros _ w1. unfold save. rewrite bind_M_unfold. unfold read, deref, R.
        destruct (_objects w1 !! m); simpl; [|done]. rewrite dom_insert_L. set_solver.
    - intros _ w1. unfold destroy_object, R. destruct (_db w1 !! self); simpl; [|done].
      destruct (_objects w1 !! self); simpl; [|done]. rewrite dom_delete_L. set_solver. }
  destruct depth as [|depth]; [done|].
  rewrite destroy_S, (read_ok _ _ _ _ (find_exits_of_exit _ _ _ Ho Hexit)).
  change (R w (unzone_members_and_remove self w).1). apply Hk.
Qed.

(** C9.  For an object whose [base_type] is 'exit',
    [find_exits_linked_to_obj] returns the empty list whatever the store
    holds, so destroying an exit removes no other instance: it never
    cascades to the exits whose [destination_id] names it. *)
Theorem exit_has_no_linked_exits (depth : nat) (self : string) (w : World) (o : BaseObject) :
  _objects w !! self = Some o → base_type (cls o) = "exit" →
  find_exits_linked_to_obj w self = Ok [] ∧
  (∀ x, x ≠ self → x ∈ dom (_objects w) → x ∈ dom (_objects (destroy depth self w).1)) ∧
  ((1 ≤ depth)%nat → zones_resolve w → persisted w →
   ∃ w', destroy depth self w = (w', Ok tt) ∧
         dom (_objects w') = dom (_objects w) ∖ {[self]}).
Proof.
  intros Ho Hexit. split; [by eapply find_exits_of_exit|]. split.
  - by eapply destroy_exit_keeps_others.
  - intros Hdepth Hz Hp. destruct depth as [|depth]; [lia|].
    destruct (destroy_exit_spec depth self w o Ho Hexit Hz Hp) as (w' & Hrun & Hobjs & _).
    exists w'. split; [done|]. by rewrite Hobjs, after_destroy_dom.
Qed.

(** ** The dbref counter (C3) *)

#[local] Instance counter_grows_preorder : PreOrder counter_grows.
Proof.
  split; [intros w; unfold counter_grows; lia |].
  intros w1 w2 w3; unfold counter_grows; lia.
Qed.

#[local] Instance counter_kept_preorder : PreOrder counter_kept.
Proof.
  split; [by intros w |]. intros w1 w2 w3; unfold counter_kept; congruence.
Qed.

Lemma destroy_keeps_counter depth self : keeps counter_kept (destroy depth self).
Proof.
  revert self. induction depth as [|depth IH]; intros self.
  - simpl. apply (keeps_raise counter_kept).
  - rewrite destroy_S.
    apply (keeps_bind counter_kept); [apply (keeps_read counter_kept)|]. intros exits.
    apply (keeps_bind counter_kept); [by apply (keeps_for_each counter_kept)|]. intros _.
    unfold unzone_members_and_remove.
    apply (keeps_bind counter_kept); [apply (keeps_read counter_kept)|]. intros members.
    apply (keeps_bind counter_kept).
    + apply (keeps_for_each counter_kept). intros m. apply (keeps_bind counter_kept).
      * intros w. unfold set_zone, update_odata. by destruct (_objects w !! m).
      * intros _. unfold save.
        apply (keeps_bind counter_kept); [apply (keeps_read counter_kept)|].
        intros o. apply (keeps_modify counter_kept). by intros w.
    + intros _ w. unfold destroy_object. destruct (_db w !! self); [|done]. simpl.
      by destruct (_objects w !! self).
Qed.

Lemma load_grows_counter load_parent : keeps counter_grows (_load_objects_into_ram load_parent).
Proof.
  intros w. unfold _load_objects_into_ram.
  apply (keeps_for_each counter_grows). intros doc_id.
  apply (keeps_bind counter_grows).
  - intros w1. unfold _load_object. destruct (_db w1 !! doc_id) as [doc|]; [|done].
    destruct (load_parent (parent doc)); simpl; unfold counter_grows; simpl; lia.
  - intros _. apply (keeps_bind counter_grows); [apply (keeps_read counter_grows)|].
    intros doc_id_int. apply (keeps_modify counter_grows). intros w1. unfold counter_grows.
    destruct (next_dbref w1 <=? doc_id_int)%Z eqn:Hle; simpl; [|lia].
    apply Z.leb_le in Hle. lia.
Qed.

(** [create_object] hands out the counter's value and increments it, or
    raises InvalidParent and leaves the world as it is. *)
Lemma create_object_spec load_parent parent_path kwargs w :
  (∃ w', create_object load_parent parent_path kwargs w = (w', Ok (pretty (next_dbref w))) ∧
         next_dbref w' = (next_dbref w + 1)%Z ∧
         is_Some (_objects w' !! pretty (next_dbref w))) ∨
  (create_object load_parent parent_path kwargs w = (w, Raise (InvalidParent parent_path))).
Proof.
  unfold create_object. destruct (load_parent parent_path) as [NewObject|]; [left | by right].
  eexists. split; [reflexivity|]. split; [done|]. simpl. rewrite lookup_insert_eq. by eexists.
Qed.

Lemma run_ops_grows_counter load_parent ops w :
  (next_dbref w ≤ next_dbref (run_ops load_parent ops w).1)%Z.
Proof.
  revert w. induction ops as [|[parent_path kwargs|depth obj|] ops IH]; intros w; simpl.
  - lia.
  - destruct (create_object_spec load_parent parent_path kwargs w)
      as [(w' & -> & Hnext & _) | ->].
    + specialize (IH w'). destruct (run_ops load_parent ops w') as [w'' ids]. simpl in *. lia.
    + apply IH.
  - etrans; [|apply IH]. by rewrite (destroy_keeps_counter depth obj w).
  - etrans; [|apply IH]. apply (load_grows_counter load_parent w).
Qed.

(** C3.  Over every sequence of create, destroy and load operations on the
    store, from every starting state, the ids the successful
    [create_object] calls return are the decimal renderings of strictly
    increasing integers, all at or above the counter's starting value; so
    no id is handed out twice, whatever was destroyed in between. *)
Theorem created_ids_strictly_increase (load_parent : string → option ParentClass)
    (ops : list StoreOp) (w : World) :
  ∃ ns : list Z,
    (run_ops load_parent ops w).2 = pretty <$> ns ∧
    StronglySorted Z.lt ns ∧
    Forall (λ n, next_dbref w ≤ n < next_dbref (run_ops load_parent ops w).1)%Z ns ∧
    NoDup (run_ops load_parent ops w).2.
Proof.
  assert (Hmain : ∀ ops w, ∃ ns : list Z,
            (run_ops load_parent ops w).2 = pretty <$> ns ∧
            StronglySorted Z.lt ns ∧
            Forall (λ n, next_dbref w ≤ n < next_dbref (run_ops load_parent ops w).1)%Z ns).
  { clear ops w. induction ops as [|[parent_path kwargs|depth obj|] ops IH]; intros w; simpl.
    - exists []. repeat split; constructor.
    - destruct (create_object_spec load_parent parent_path kwargs w)
        as [(w' & -> & Hnext & _) | ->]; [|apply IH].
      destruct (IH w') as (ns & Hids & Hsorted & Hbounds).
      pose proof (run_ops_grows_counter load_parent ops w') as Hgrow.
      destruct (run_ops load_parent ops w') as [w'' ids]. simpl in *.
      exists (next_dbref w :: ns). split; [by rewrite Hids|]. split.
      + constructor; [done|]. eapply Forall_impl; [exact Hbounds|]. simpl. lia.
      + constructor; [lia|]. eapply Forall_impl; [exact Hbounds|]. simpl. lia.
    - destruct (IH (destroy depth obj w).1) as (ns & Hids & Hsorted & Hbounds).
      exists ns. repeat (split; [done|]).
      by rewrite (destroy_keeps_counter depth obj w) in Hbounds.
    - destruct (IH (_load_objects_into_ram load_parent w).1) as (ns & Hids & Hsorted & Hbounds).
      exists ns. repeat (split; [done|]).
      eapply Forall_impl; [exact Hbounds|]. simpl. intros n.
      pose proof (load_grows_counter load_parent w) as Hgrow. unfold counter_grows in Hgrow.
      lia. }
  destruct (Hmain ops w) as (ns & Hids & Hsorted & Hbounds).
  exists ns. repeat (split; [done|]). rewrite Hids.
  apply NoDup_fmap_2; [apply _|].
  clear -Hsorted. induction Hsorted as [|n ns Hs IH Hall]; constructor; [|done].
  intros Hin. rewrite Forall_forall in Hall. specialize (Hall n Hin). lia.
Qed.

(** ** Searching for objects (C6, C7, C10) *)

Section Search.

Variable partial_ratio : string → string → Z.

(** The loop returns the first object with an alias match, whatever the
    fuzzy scores of the objects before it. *)
Lemma name_or_alias_loop_first_alias (w : World) (desc : string) (pre : list string)
    (found : string) (post : list string) (ratio : Z) (result : option string) :
  (∀ x, x ∈ pre → is_Some (_objects w !! x)) →
  Forall (λ x, alias_match w desc x = false) pre →
  alias_match w desc found = true →
  name_or_alias_loop partial_ratio w (pre ++ found :: post)%list desc ratio result
  = Ok (Some found).
Proof.
  intros Hpre Hno Hfound. revert ratio result.
  induction pre as [|x pre IH]; intros ratio result; simpl.
  - unfold alias_match in Hfound. unfold deref.
    destruct (_objects w !! found) as [o|]; [|done]. simpl. by rewrite Hfound.
  - apply Forall_cons in Hno as [Hx Hno].
    destruct (Hpre x) as [o Ho]; [by left|].
    unfold alias_match in Hx. rewrite Ho in Hx. unfold deref. rewrite Ho. simpl. rewrite Hx.
    assert (Hpre' : ∀ y, y ∈ pre → is_Some (_objects w !! y)).
    { intros y Hy. apply Hpre. by right. }
    destruct ((50 <? partial_ratio desc (name (_odata o)))
              && (ratio <? partial_ratio desc (name (_odata o))))%Z; by apply IH.
Qed.

(** A list with an alias match splits at its first one. *)
Lemma first_alias_match_split (w : World) (desc : string) (objects : list string) (o : string) :
  o ∈ objects → alias_match w desc o = true →
  ∃ pre found post, objects = (pre ++ found :: post)%list ∧
    Forall (λ x, alias_match w desc x = false) pre ∧ alias_match w desc found = true.
Proof.
  intros Hin Ho. induction objects as [|x objects IH]; [by apply elem_of_nil in Hin|].
  destruct (alias_match w desc x) eqn:Hx.
  - exists [], x, objects. by repeat split.
  - apply elem_of_cons in Hin as [->|Hin]; [congruence|].
    destruct (IH Hin) as (pre & found & post & -> & Hpre & Hfound).
    exists (x :: pre), found, post. split; [done|]. split; [by constructor | done].
Qed.

(** C7.  If an object of the collection has an alias equal to the search
    string, case-insensitively, then [_find_name_or_alias_match] returns an
    object with such an alias: the first one in the collection, so that
    object itself when no other has one.  This holds for every fuzzy
    scoring function, hence whatever scores the names get (100 included),
    and for every order of the collection. *)
Theorem alias_match_outranks_fuzzy_match (w : World) (objects : list string)
    (desc : string) (o : string) :
  (∀ x, x ∈ objects → is_Some (_objects w !! x)) →
  o ∈ objects → alias_match w desc o = true →
  ∃ found,
    _find_name_or_alias_match partial_ratio w objects desc = Ok (Some found) ∧
    alias_match w desc found = true ∧
    (∃ pre post, objects = (pre ++ found :: post)%list ∧
                 Forall (λ x, alias_match w desc x = false) pre) ∧
    ((∀ x, x ∈ objects → alias_match w desc x = true → x = o) → found = o).
Proof.
  intros Hstore Hin Ho.
  destruct (first_alias_match_split w desc objects o Hin Ho)
    as (pre & found & post & -> & Hpre & Hfound).
  exists found. split; [|split; [done|split]].
  - unfold _find_name_or_alias_match. apply name_or_alias_loop_first_alias; [|done|done].
    intros x Hx. apply Hstore, elem_of_app. by left.
  - by exists pre, post.
  - intros Huniq. apply Huniq; [|done]. apply elem_of_app. right. by left.
Qed.

Lemma lstrip_all_whitespace (s : string) : all_whitespace s = true → lstrip s = "".
Proof.
  induction s as [|c s IH]; simpl; [done|].
  intros [Hc Hs]%andb_true_iff. rewrite Hc. by apply IH.
Qed.

Lemma strip_all_whitespace (s : string) : all_whitespace s = true → strip s = "".
Proof. intros Hs. unfold strip. by rewrite lstrip_all_whitespace. Qed.

Lemma name_or_alias_loop_fails w objects desc ratio result :
  fails_only lookup_error (name_or_alias_loop partial_ratio w objects desc ratio result).
Proof.
  revert ratio result. induction objects as [|x objects IH]; intros ratio result; simpl.
  - apply fails_only_Ok.
  - apply fails_only_bind; [apply deref_fails|]. intros o.
    destruct (bool_decide _); [apply fails_only_Ok|].
    destruct (_ && _); apply IH.
Qed.

Lemma _find_object_id_match_fails w self desc :
  fails_only lookup_error (_find_object_id_match w self desc).
Proof.
  unfold _find_object_id_match.
  apply fails_only_bind; [apply get_object_fails|]. intros obj.
  apply fails_only_bind; [apply deref_fails|]. intros me.
  destruct (negb (is_admin (cls me))); [|apply fails_only_Ok].
  apply fails_only_bind; [apply get_location_fails|]. intros self_location.
  apply fails_only_bind.
  { destruct self_location; [apply get_location_fails | apply fails_only_Ok]. }
  intros obj_location.
  assert (Hroom : fails_only lookup_error
            (target ← deref w obj;
             if decide (base_type (cls target) = "room") then
               match self_location with
               | Some sl => if bool_decide (sl = obj) then Ok (Some obj) else Ok None
               | None => Ok None
               end
             else Ok None)).
  { apply fails_only_bind; [apply deref_fails|]. intros target.
    destruct (decide _); [|apply fails_only_Ok].
    destruct self_location; [|apply fails_only_Ok].
    destruct (bool_decide _); apply fails_only_Ok. }
  destruct self_location as [sl|], obj_location as [ol|]; try exact Hroom.
  destruct (_ || _); apply fails_only_Ok.
Qed.

Lemma contextual_object_search_fails w self desc :
  fails_only lookup_error (contextual_object_search partial_ratio w self desc).
Proof.
  unfold contextual_object_search. destruct (decide (strip desc = "")) as [|Hne];
    [apply fails_only_Ok|].
  destruct (strip desc) as [|c rest] eqn:Hs; [done|]. simpl str_index0.
  apply fails_only_bind; [apply fails_only_Ok|]. intros first.
  apply fails_only_bind.
  { destruct (decide _); [apply _find_object_id_match_fails | apply fails_only_Ok]. }
  intros [found|]; [apply fails_only_Ok|].
  destruct (decide _); [apply fails_only_Ok|].
  destruct (decide _); [apply get_location_fails|].
  apply fails_only_bind; [apply get_location_fails|]. intros location.
  apply fails_only_bind.
  { destruct location; [|apply fails_only_Ok].
    apply fails_only_bind; [apply get_object_contents_fails|]. intros neighbors.
    apply name_or_alias_loop_fails. }
  intros [found|]; [apply fails_only_Ok|].
  apply fails_only_bind; [apply get_object_contents_fails|]. intros inventory.
  apply name_or_alias_loop_fails.
Qed.

(** C10.  [contextual_object_search] returns None on every string that is
    empty or white space only, and raises IndexError on no string at all:
    the test of the first character is reached only when the stripped
    string is not empty. *)
Theorem blank_search_returns_none (w : World) (self : string) (desc : string) :
  (all_whitespace desc = true →
   contextual_object_search partial_ratio w self desc = Ok None) ∧
  (∀ message,
     contextual_object_search partial_ratio w self desc ≠ Raise (IndexError message)).
Proof.
  split.
  - intros Hblank. unfold contextual_object_search.
    rewrite (strip_all_whitespace _ Hblank). by destruct (decide ("" = "")).
  - intros message Hraise. by apply contextual_object_search_fails in Hraise.
Qed.

(** C6 (amended).  For an existing id, an admin's
    [contextual_object_search("#<id>")] returns the object.  For a non-admin
    whose location differs from the target's and is not the target, the id
    step [_find_object_id_match] returns None; the search then falls
    through to its name and alias steps on the text "#<id>" itself, so its
    result is what [search_by_name] finds among the invoker's neighbours
    and inventory: None unless one of them matches that text by alias or
    fuzzy name. *)
Theorem id_search_visibility (w : World) (self : string) (target_id : string)
    (me : BaseObject) :
  _objects w !! self = Some me →
  is_Some (_objects w !! target_id) →
  strip ("#" +:+ target_id) = "#" +:+ target_id →
  (is_admin (cls me) = true →
   contextual_object_search partial_ratio w self ("#" +:+ target_id)
   = Ok (Some target_id)) ∧
  (is_admin (cls me) = false →
   ∀ self_location target_location,
     get_location w self = Ok self_location →
     get_location w target_id = Ok target_location →
     self_location ≠ target_location → self_location ≠ Some target_id →
     _find_object_id_match w self ("#" +:+ target_id) = Ok None ∧
     contextual_object_search partial_ratio w self ("#" +:+ target_id)
     = search_by_name partial_ratio w self ("#" +:+ target_id)).
Proof.
  intros Hme Htarget Hstrip.
  assert (Hget : get_object w (str_slice1 ("#" +:+ target_id)) = Ok target_id).
  { simpl. by apply get_object_Some. }
  split.
  - intros Hadmin.
    assert (Hid : _find_object_id_match w self ("#" +:+ target_id) = Ok (Some target_id)).
    { unfold _find_object_id_match. rewrite Hget, (deref_Some _ _ _ Hme). simpl.
      by rewrite Hadmin. }
    unfold contextual_object_search. rewrite Hstrip.
    destruct (decide ("#" +:+ target_id = "")) as [Hempty|_]; [discriminate Hempty|].
    simpl. by rewrite Hid.
  - intros Hplayer sl tl Hsl Htl Hdiff Hnot.
    assert (Hid : _find_object_id_match w self ("#" +:+ target_id) = Ok None).
    { unfold _find_object_id_match. rewrite Hget, (deref_Some _ _ _ Hme). simpl.
      rewrite Hplayer, Hsl. simpl. destruct Htarget as [target Htarget].
      destruct sl as [s|].
      - rewrite Htl. simpl. destruct tl as [t|].
        + rewrite bool_decide_eq_false_2 by congruence.
          by rewrite bool_decide_eq_false_2 by congruence.
        + rewrite (deref_Some _ _ _ Htarget). simpl.
          destruct (decide (base_type (cls target) = "room")); [|done].
          by rewrite bool_decide_eq_false_2 by congruence.
      - simpl. rewrite (deref_Some _ _ _ Htarget). simpl.
        by destruct (decide (base_type (cls target) = "room")). }
    split; [exact Hid|].
    unfold contextual_object_search. rewrite Hstrip.
    destruct (decide ("#" +:+ target_id = "")) as [Hempty|_]; [discriminate Hempty|].
    simpl. by rewrite Hid.
Qed.

End Search.

(** ** The command handler (C5, C8) *)

Section Handler.

Variable parse : string → ParsedCommand.
Variable lookup_command : CommandTable → ParsedCommand → option BaseCommand.
Variable func : BaseCommand → string → ParsedCommand → M unit.
Variable getTraceback : Exception → string.
Variable global_command_table : CommandTable.
Variable global_admin_command_table : CommandTable.

Local Abbreviation match_command :=
  (_match_user_input_to_command lookup_command global_command_table
     global_admin_command_table).
Local Abbreviation handle :=
  (handle_input parse lookup_command func getTraceback global_command_table
     global_admin_command_table).

(** C5.  [_match_user_input_to_command] tries the location's local admin
    table (admins only), the location's local table, the global admin
    table (admins only) and the global table, in that order, and returns
    what the first table that matches yields; so a verb the location's
    local table defines runs that definition whatever the global tables
    hold, unless the location's admin table matched first for an admin. *)
Theorem command_tables_tried_in_fixed_order (w : World) (invoker : string)
    (me : BaseObject) (location : option string) (parsed : ParsedCommand) :
  _objects w !! invoker = Some me →
  get_location w invoker = Ok location →
  match_command w invoker parsed
  = Ok (first_match
          [ if is_admin (cls me)
            then location_table_match lookup_command w location
                   local_admin_command_table parsed
            else None;
            location_table_match lookup_command w location local_command_table parsed;
            if is_admin (cls me) then lookup_command global_admin_command_table parsed
            else None;
            lookup_command global_command_table parsed ]) ∧
  (∀ cmd,
     location_table_match lookup_command w location local_command_table parsed = Some cmd →
     is_admin (cls me) = false ∨
     location_table_match lookup_command w location local_admin_command_table parsed = None →
     match_command w invoker parsed = Ok (Some cmd)).
Proof.
  intros Hme Hloc.
  set (location_cls := location ≫= (λ loc, cls <$> _objects w !! loc) : option ParentClass).
  assert (Hcls : match location with
                 | Some loc => o ← deref w loc; Ok (Some (cls o))
                 | None => Ok None
                 end = Ok location_cls).
  { subst location_cls. destruct location as [loc|]; [|done].
    rewrite (get_location_Some _ _ _ Hme) in Hloc.
    apply resolve_id_inv in Hloc as [Htruthy Hres]. unfold resolves in Hres.
    rewrite <- Htruthy in Hres. destruct Hres as [lo Hlo].
    rewrite (deref_Some _ _ _ Hlo). simpl. by rewrite Hlo. }
  assert (Htable : ∀ table_of,
            location_table_match lookup_command w location table_of parsed
            = (location_cls ≫= table_of : option CommandTable)
              ≫= (λ table : CommandTable, lookup_command table parsed)).
  { intros table_of. subst location_cls. unfold location_table_match.
    destruct location as [loc|]; simpl; [|done]. by destruct (_objects w !! loc). }
  assert (Hresult : match_command w invoker parsed
            = Ok (first_match
                    [ if is_admin (cls me)
                      then location_table_match lookup_command w location
                             local_admin_command_table parsed
                      else None;
                      location_table_match lookup_command w location
                        local_command_table parsed;
                      if is_admin (cls me)
                      then lookup_command global_admin_command_table parsed else None;
                      lookup_command global_command_table parsed ])).
  { unfold _match_user_input_to_command. rewrite Hloc. simpl.
    rewrite (deref_Some _ _ _ Hme). simpl. rewrite Hcls. simpl. rewrite !Htable.
    destruct (location_cls ≫= local_admin_command_table) as [admin_table|]; simpl;
      destruct (location_cls ≫= local_command_table) as [table|]; simpl;
      destruct (is_admin (cls me)); simpl;
      repeat match goal with
             | |- context [lookup_command ?t parsed] =>
                 destruct (lookup_command t parsed); simpl
             end; reflexivity. }
  split; [exact Hresult|].
  intros cmd Hlocal Hfirst. rewrite Hresult, Hlocal.
  destruct Hfirst as [-> | ->]; [done|]. by destruct (is_admin (cls me)).
Qed.

(** C8 on the code.  When a command's [func] raises anything but a
    CommandError, the invoker gets the critical-error notice and the
    traceback, and [logger.error] gets its first line; the call that would
    name the invoker raises TypeError (the method takes no
    [force_admin_view] keyword), so no line with the invoker's identity is
    logged, and [log.err] receives that TypeError in place of the failure. *)
Theorem unexpected_failure_report (w w1 : World) (invoker : string)
    (command_string : string) (cmd : BaseCommand) (failure : Exception) :
  _match_user_input_to_exit w invoker (parse command_string) = Ok None →
  match_command w invoker (parse command_string) = Ok (Some cmd) →
  func cmd invoker (parse command_string) w = (w1, Raise failure) →
  (∀ message, failure ≠ CommandError message) →
  (handle invoker command_string w).2 = Ok (Some cmd) ∧
  emitted (handle invoker command_string w).1
  = (emitted w1
     ++ [(invoker, "ERROR: A critical error has occurred. Please notify the staff.");
         (invoker, getTraceback failure)])%list ∧
  logger_error (handle invoker command_string w).1
  = (logger_error w1 ++ ["Command handler encountered an error"])%list ∧
  log_err (handle invoker command_string w).1
  = (log_err w1
     ++ [TypeError
           "get_appearance_name() got an unexpected keyword argument 'force_admin_view'"])%list.
Proof.
  intros Hexit Hcmd Hfunc Hunexpected.
  assert (Hrun : handle invoker command_string w
            = (with_log_err
                 (λ seen, (seen ++ [TypeError
                   "get_appearance_name() got an unexpected keyword argument 'force_admin_view'"])%list)
                 (with_logger_error
                    (λ lines, (lines ++ ["Command handler encountered an error"])%list)
                    (with_emitted
                       (λ out, (out ++ [(invoker, getTraceback failure)])%list)
                       (with_emitted
                          (λ out, (out ++ [(invoker,
                             "ERROR: A critical error has occurred. Please notify the staff.")])%list)
                          w1))),
               Ok (Some cmd))).
  { unfold handle_input. rewrite (read_ok _ _ _ _ Hexit), (read_ok _ _ _ _ Hcmd).
    rewrite bind_M_unfold. unfold catch at 1 2 3. rewrite Hfunc.
    assert (Htrap : _handle_command_error invoker failure w1 = (w1, Raise failure)).
    { destruct failure; try reflexivity. by destruct (Hunexpected message). }
    rewrite Htrap. reflexivity. }
  rewrite Hrun. simpl. split; [done|]. split; [by rewrite <- app_assoc | done].
Qed.

(** ** Movement (C4) *)

#[local] Instance same_objects_preorder : PreOrder same_objects.
Proof.
  split; [by intros w |]. intros w1 w2 w3; unfold same_objects; congruence.
Qed.

Lemma scan_ext keep keep' items :
  (∀ id o, (id, o) ∈ items → keep id o = keep' id o) → scan keep items = scan keep' items.
Proof.
  induction items as [|[id o] items IH]; intros Heq; simpl; [done|].
  rewrite (Heq id o) by left. rewrite IH; [done|]. intros id' o' Hin. apply Heq. by right.
Qed.

Lemma get_location_ext w w' self :
  _objects w' = _objects w → get_location w' self = get_location w self.
Proof.
  intros Heq. unfold get_location, deref, resolve_id, get_object. by rewrite Heq.
Qed.

Lemma get_object_contents_ext w w' obj :
  _objects w' = _objects w → get_object_contents w' obj = get_object_contents w obj.
Proof.
  intros Heq. unfold get_object_contents. rewrite Heq. apply scan_ext.
  intros id o _. by rewrite (get_location_ext _ _ _ Heq).
Qed.

Lemma get_object_contents_elem_of w obj contents k :
  get_object_contents w obj = Ok contents →
  k ∈ contents ↔ is_Some (_objects w !! k) ∧ get_location w k = Ok (Some obj).
Proof.
  intros Hscan. unfold get_object_contents in Hscan.
  rewrite (scan_elem_of _ _ _ _ Hscan). split.
  - intros (o & Hin%elem_of_map_to_list & Hkeep). split; [by eexists|].
    destruct (get_location w k) as [loc|]; [|done]. simpl in Hkeep.
    injection Hkeep as Hkeep. apply bool_decide_eq_true in Hkeep. by subst.
  - intros [[o Ho] Hloc]. exists o. split; [by apply elem_of_map_to_list|].
    rewrite Hloc. simpl. by rewrite bool_decide_eq_true_2.
Qed.

(** A contents scan that succeeded found every location resolvable. *)
Lemma get_object_contents_locations w obj contents k o :
  get_object_contents w obj = Ok contents → _objects w !! k = Some o →
  is_Ok (get_location w k).
Proof.
  intros [Hall _]%scan_spec Ho. rewrite Forall_forall in Hall.
  specialize (Hall (k, o)). simpl in Hall.
  destruct Hall as [b Hb]; [by apply elem_of_map_to_list|].
  destruct (get_location w k) as [loc|]; [by eexists | done].
Qed.

Lemma get_object_contents_total w obj contents other :
  get_object_contents w obj = Ok contents → is_Ok (get_object_contents w other).
Proof.
  intros Hscan. unfold get_object_contents in *.
  eapply scan_is_Ok; [by eexists|]. intros id o _ [b Hb].
  destruct (get_location w id) as [loc|]; [by eexists | done].
Qed.

Lemma emit_to_keeps_objects self message : keeps same_objects (emit_to self message).
Proof. by intros w. Qed.

Lemma announce_keeps_objects (contents : list string) (actor : string) (suffix : string) :
  keeps same_objects
    (for_each contents
       (λ obj,
          shown ← read (λ w, get_appearance_name w actor (PyObj obj) []);
          emit_to obj (shown +:+ suffix))).
Proof.
  apply (keeps_for_each same_objects). intros obj.
  apply (keeps_bind same_objects); [apply (keeps_read same_objects)|].
  intros shown. apply emit_to_keeps_objects.
Qed.

Lemma before_object_enters_event_keeps_objects self actor :
  keeps same_objects (before_object_enters_event self actor).
Proof.
  apply (keeps_bind same_objects); [apply (keeps_read same_objects)|].
  intros contents. apply announce_keeps_objects.
Qed.

Lemma handle_input_keeps_objects invoker command_string :
  commands_read_only func → keeps same_objects (handle invoker command_string).
Proof.
  intros Hfunc. unfold handle_input.
  apply (keeps_bind same_objects); [apply (keeps_read same_objects)|]. intros exit_match.
  apply (keeps_bind same_objects); [apply (keeps_read same_objects)|].
  intros [cmd|]; [|apply (keeps_ret same_objects)].
  apply (keeps_bind same_objects); [|intros _; apply (keeps_ret same_objects)].
  apply (keeps_catch same_objects); [|intros e; by intros w].
  apply (keeps_catch same_objects).
  - apply (keeps_catch same_objects); [intros w; apply Hfunc|].
    intros e. destruct e; try apply (keeps_raise same_objects). apply emit_to_keeps_objects.
  - intros e. unfold _handle_other_errors.
    apply (keeps_bind same_objects); [apply emit_to_keeps_objects|]. intros _.
    apply (keeps_bind same_objects); [apply emit_to_keeps_objects|]. intros _.
    apply (keeps_bind same_objects); [by intros w|]. intros _.
    apply (keeps_bind same_objects); [apply (keeps_read same_objects)|]. intros shown.
    apply (keeps_bind same_objects); [by intros w|]. intros _.
    apply (keeps_raise same_objects).
Qed.

Lemma execute_command_keeps_objects self command_string :
  commands_read_only func →
  keeps same_objects
    (execute_command parse lookup_command func getTraceback global_command_table
       global_admin_command_table self command_string).
Proof.
  intros Hfunc. unfold execute_command.
  apply (keeps_bind same_objects); [by apply handle_input_keeps_objects|].
  intros [cmd|]; [apply (keeps_ret same_objects) | apply emit_to_keeps_objects].
Qed.

Local Abbreviation move :=
  (move_to parse lookup_command func getTraceback global_command_table
     global_admin_command_table).

(** C4 (amended).  For a mover that keeps the data model's invariant (a
    Room never has a [location_id]), a destination with a non-empty id, and
    commands that leave the instances as they are when the forced look
    runs: if [move_to] completes without raising, then afterwards the
    mover's [location_id] is the destination's id, the mover is in what
    [get_object_contents] returns for the destination, and it is not in
    what [get_object_contents] returns for the old location whenever the
    old location is not the destination itself. *)
Theorem move_to_relocates (self destination_obj : string) (force_look : bool)
    (w w' : World) (o : BaseObject) :
  _objects w !! self = Some o → room_has_no_location o → destination_obj ≠ "" →
  (force_look = true → commands_read_only func) →
  move self destination_obj force_look w = (w', Ok tt) →
  ∃ old_location o',
    get_location w self = Ok (Some old_location) ∧
    _objects w' !! self = Some o' ∧
    location_id (_odata o') = Some destination_obj ∧
    (∃ contents, get_object_contents w' destination_obj = Ok contents ∧ self ∈ contents) ∧
    (∃ contents, get_object_contents w' old_location = Ok contents ∧
                 (old_location ≠ destination_obj → self ∉ contents)).
Proof.
  intros Ho Hroom Hdest Hlook Hmove. unfold move_to in Hmove.
  apply bind_M_inv in Hmove as (w0 & old & Hread & Hmove).
  injection Hread as <- Hold. destruct old as [old_location|]; [|discriminate Hmove].
  assert (Hnotroom : base_type (cls o) ≠ "room").
  { intros Hr. specialize (Hroom Hr). rewrite (get_location_Some _ _ _ Ho) in Hold.
    apply resolve_id_inv in Hold as [Ht _]. congruence. }
  apply bind_M_inv in Hmove as (w0 & [] & Hleave & Hmove). injection Hleave as <-.
  apply bind_M_inv in Hmove as (w1 & [] & Henter & Hmove).
  assert (H1 : _objects w1 = _objects w).
  { pose proof (before_object_enters_event_keeps_objects destination_obj self w) as Hk.
    by rewrite Henter in Hk. }
  apply bind_M_inv in Hmove as (w2 & [] & Hset & Hmove).
  set (o' := map_odata (with_location_id (Some destination_obj)) o).
  assert (H2 : _objects w2 = <[self := o']> (_objects w)).
  { unfold set_location in Hset. rewrite bind_M_unfold in Hset. unfold read, deref in Hset.
    rewrite H1, Ho in Hset. destruct (decide (base_type (cls o) = "room")); [done|].
    unfold update_odata in Hset. rewrite H1, Ho in Hset. injection Hset as <-.
    simpl. by rewrite H1. }
  apply bind_M_inv in Hmove as (w3 & [] & Hsave & Hmove).
  assert (H3 : _objects w3 = <[self := o']> (_objects w)).
  { unfold save in Hsave. rewrite bind_M_unfold in Hsave. unfold read, deref in Hsave.
    rewrite H2, lookup_insert_eq in Hsave. injection Hsave as <-.
    simpl. by rewrite H2, insert_insert_eq. }
  apply bind_M_inv in Hmove as (w4 & [] & Hleft & Hmove).
  unfold after_object_leaves_event in Hleft.
  apply bind_M_inv in Hleft as (w3' & old_contents & Hcontents & Hleft).
  injection Hcontents as <- Hcontents. unfold get_contents in Hcontents.
  assert (H4 : _objects w4 = _objects w3).
  { pose proof (announce_keeps_objects old_contents self " has left" w3) as Hk.
    by rewrite Hleft in Hk. }
  apply bind_M_inv in Hmove as (w4' & [] & Hentered & Hmove). injection Hentered as <-.
  assert (H5 : _objects w' = _objects w3).
  { rewrite <- H4. destruct force_look.
    - pose proof (execute_command_keeps_objects self "look" (Hlook eq_refl) w4) as Hk.
      by rewrite Hmove in Hk.
    - by injection Hmove as <-. }
  assert (Hself : _objects w' !! self = Some o').
  { by rewrite H5, H3, lookup_insert_eq. }
  assert (Hold' : get_object_contents w' old_location = Ok old_contents).
  { by rewrite (get_object_contents_ext _ _ _ H5). }
  assert (Hloc' : get_location w' self = Ok (Some destination_obj)).
  { destruct (get_object_contents_locations _ _ _ _ _ Hold' Hself) as [loc Hloc].
    rewrite Hloc. rewrite (get_location_Some _ _ _ Hself) in Hloc.
    apply resolve_id_inv in Hloc as [-> _]. unfold o'. simpl.
    by destruct (decide (destination_obj = "")). }
  exists old_location, o'. split; [done|]. split; [done|]. split; [done|]. split.
  - destruct (get_object_contents_total _ _ _ destination_obj Hold') as [contents Hc].
    exists contents. split; [done|].
    apply (get_object_contents_elem_of _ _ _ _ Hc). split; [by eexists | done].
  - exists old_contents. split; [done|].
    intros Hne [_ Hin]%(get_object_contents_elem_of _ _ _ _ Hold'). congruence.
Qed.

End Handler.

(** * More properties of the code *)

(** ** Decimal ids: [int] reads back what ['%s' % n] writes *)

Lemma digit_of_pretty_N_char (d : N) :
  (d < 10)%N → digit_of (pretty_N_char d) = Some (Z.of_N d).
Proof.
  intros Hd.
  assert (d = 0 ∨ d = 1 ∨ d = 2 ∨ d = 3 ∨ d = 4 ∨ d = 5 ∨ d = 6 ∨ d = 7 ∨ d = 8 ∨ d = 9)%N
    as Hcases by lia.
  repeat (destruct Hcases as [-> | Hcases]; [reflexivity|]). by subst.
Qed.

Lemma digits_value_pretty_N_go (x : N) (s : string) :
  digits_value 0 (pretty_N_go x s) = digits_value (Z.of_N x) s.
Proof.
  revert s. induction (N.lt_wf_0 x) as [x _ IH]; intros s.
  assert (x = 0 ∨ 0 < x)%N as [-> | Hpos] by lia; [done|].
  rewrite pretty_N_go_step by done. rewrite IH by (by apply N.div_lt).
  simpl. rewrite digit_of_pretty_N_char by (apply N.mod_lt; lia).
  f_equal. rewrite (N.div_mod x 10) at 3 by lia. lia.
Qed.

Lemma all_digits_pretty_N_go (x : N) (s : string) :
  all_digits s = true → all_digits (pretty_N_go x s) = true.
Proof.
  revert s. induction (N.lt_wf_0 x) as [x _ IH]; intros s Hs.
  assert (x = 0 ∨ 0 < x)%N as [-> | Hpos] by lia; [done|].
  rewrite pretty_N_go_step by done. apply IH; [by apply N.div_lt|].
  simpl. rewrite Hs, andb_true_r. apply bool_decide_eq_true.
  rewrite digit_of_pretty_N_char by (apply N.mod_lt; lia). by eexists.
Qed.

Lemma pretty_N_go_nonempty (x : N) (s : string) :
  (0 < x)%N → pretty_N_go x s ≠ "".
Proof.
  revert s. induction (N.lt_wf_0 x) as [x _ IH]; intros s Hpos.
  rewrite pretty_N_go_step by done.
  destruct (decide (x `div` 10 = 0)%N) as [-> | Hdiv]; [done|].
  apply IH; [by apply N.div_lt | by apply N.neq_0_lt_0].
Qed.

Lemma digit_is_no_whitespace (c : ascii) :
  is_Some (digit_of c) → is_whitespace c = false.
Proof.
  unfold digit_of, is_whitespace. intros [d Hd].
  destruct (48 <=? nat_of_ascii c)%nat eqn:Hlo; [|done].
  apply Nat.leb_le in Hlo.
  apply orb_false_intro; [apply Nat.eqb_neq; lia|].
  apply andb_false_intro2, Nat.leb_gt. lia.
Qed.

Lemma rstrip_digits (s : string) : all_digits s = true → rstrip s = s.
Proof.
  induction s as [|c rest IH]; [done|]. simpl. intros [Hc Hrest]%andb_true_iff.
  rewrite IH by done. apply bool_decide_eq_true in Hc.
  destruct rest; [|done]. by rewrite digit_is_no_whitespace.
Qed.

Lemma strip_digits (s : string) : all_digits s = true → strip s = s.
Proof.
  intros Hs. unfold strip.
  destruct s as [|c rest]; [done|]. simpl in *.
  apply andb_true_iff in Hs as Hs'. destruct Hs' as [Hc _].
  apply bool_decide_eq_true in Hc. rewrite digit_is_no_whitespace by done.
  by apply (rstrip_digits (String c rest)).
Qed.

Lemma int_digits (s : string) (n : Z) :
  all_digits s = true → s ≠ "" → digits_value 0 s = Some n → int s = Ok n.
Proof.
  intros Hs Hne Hn. unfold int. rewrite strip_digits by done.
  destruct s as [|c rest]; [done|].
  simpl in Hs. apply andb_true_iff in Hs as [Hc _]. apply bool_decide_eq_true in Hc.
  assert (c ≠ "-"%char ∧ c ≠ "+"%char) as [Hminus Hplus].
  { split; intros ->; by destruct Hc. }
  assert (unsigned_value (String c rest) = Some n) as Hu by done.
  destruct c as [[] [] [] [] [] [] [] []]; try done; by rewrite Hu.
Qed.

(** What [create_object] writes as an id, [int] reads back. *)
Lemma int_pretty (n : Z) : (0 ≤ n)%Z → int (pretty n) = Ok n.
Proof.
  intros Hn. destruct n as [|p|p]; [done| |lia].
  change (pretty (Z.pos p)) with (pretty_N_go (N.pos p) "").
  apply int_digits.
  - by apply all_digits_pretty_N_go.
  - by apply pretty_N_go_nonempty.
  - by rewrite digits_value_pretty_N_go.
Qed.

(** ** The store: loading, start-up, creation *)

Lemma _load_objects_into_ram_unfold load_parent w :
  _load_objects_into_ram load_parent w
  = for_each (map_to_list (_db w)).*1 (load_and_count load_parent) w.
Proof. reflexivity. Qed.

Lemma load_and_count_inv load_parent id w w' r :
  load_and_count load_parent id w = (w', Ok r) →
  ∃ doc c n, _db w !! id = Some doc ∧ load_parent (parent doc) = Some c ∧ int id = Ok n ∧
    _objects w' = <[id := mkObject c doc]> (_objects w) ∧ _db w' = _db w ∧
    next_dbref w' = Z.max (next_dbref w) (n + 1).
Proof.
  unfold load_and_count, _load_object. rewrite bind_M_unfold.
  destruct (_db w !! id) as [doc|] eqn:Hdoc; [|done].
  destruct (load_parent (parent doc)) as [c|] eqn:Hc; [|done].
  rewrite bind_M_unfold. unfold read. destruct (int id) as [n|] eqn:Hn; [|done].
  unfold modify. intros [= <- _]. exists doc, c, n.
  simpl. destruct (Z.leb_spec (next_dbref w) n); simpl; repeat split; try done; lia.
Qed.

Lemma load_and_count_ok load_parent id w doc :
  _db w !! id = Some doc → loadable load_parent id doc →
  ∃ w', load_and_count load_parent id w = (w', Ok tt) ∧ _db w' = _db w.
Proof.
  intros Hdoc [[c Hc] [n Hn]]. unfold load_and_count, _load_object.
  rewrite bind_M_unfold, Hdoc, Hc, bind_M_unfold. unfold read. rewrite Hn.
  eexists. split; [reflexivity|].
  simpl. by destruct (Z.leb_spec (next_dbref w) n).
Qed.

Lemma load_loop_inv load_parent (l : list string) (w w' : World) :
  for_each l (load_and_count load_parent) w = (w', Ok tt) →
  _db w' = _db w ∧ (next_dbref w ≤ next_dbref w')%Z ∧
  (next_dbref w' = next_dbref w ∨ ∃ id, id ∈ l ∧ int id = Ok (next_dbref w' - 1)%Z) ∧
  (∀ k, k ∉ l → _objects w' !! k = _objects w !! k) ∧
  (∀ id, id ∈ l →
         ∃ doc c n, _db w !! id = Some doc ∧ load_parent (parent doc) = Some c ∧
                    _objects w' !! id = Some (mkObject c doc) ∧
                    int id = Ok n ∧ (n < next_dbref w')%Z).
Proof.
  revert w. induction l as [|a l IH]; intros w.
  - intros [= <-]. split_and!; [done | lia | by left | done | by intros ? ?%elem_of_nil].
  - simpl. intros (w1 & [] & Hstep & Hrest)%bind_M_inv.
    apply load_and_count_inv in Hstep as (doc & c & n & Hdoc & Hc & Hn & Ho1 & Hd1 & Hn1).
    apply IH in Hrest as (Hd & Hle & Hmax & Hout & Hin).
    split; [congruence|]. split; [lia|]. split; [|split].
    + destruct Hmax as [Hsame | (id & Hid & Hint)].
      * destruct (Z.max_spec (next_dbref w) (n + 1)) as [[_ Hm] | [_ Hm]].
        -- right. exists a. split; [by left|]. rewrite Hn. f_equal. lia.
        -- left. lia.
      * right. exists id. split; [by right | done].
    + intros k [Hka Hkl]%not_elem_of_cons. rewrite Hout, Ho1 by done.
      by rewrite lookup_insert_ne.
    + intros id Hid. destruct (decide (id ∈ l)) as [Hl|Hl].
      * destruct (Hin id Hl) as (doc' & c' & n' & ? & ? & ? & ? & ?).
        exists doc', c', n'. repeat split; try done. congruence.
      * apply elem_of_cons in Hid as [-> | ?]; [|done].
        exists doc, c, n. repeat split; try done; [|lia].
        rewrite Hout, Ho1 by done. by rewrite lookup_insert_eq.
Qed.

Lemma load_loop_ok load_parent (l : list string) (w : World) :
  (∀ id, id ∈ l → ∃ doc, _db w !! id = Some doc ∧ loadable load_parent id doc) →
  ∃ w', for_each l (load_and_count load_parent) w = (w', Ok tt).
Proof.
  revert w. induction l as [|a l IH]; intros w Hall; [by eexists|].
  destruct (Hall a) as (doc & Hdoc & Hload); [by left|].
  destruct (load_and_count_ok _ _ _ _ Hdoc Hload) as (w1 & Hstep & Hd1).
  destruct (IH w1) as [w' Hrest].
  { intros id Hid. rewrite Hd1. apply Hall. by right. }
  exists w'. simpl. by rewrite (bind_M_ok _ _ _ _ _ Hstep).
Qed.

Lemma load_loop_loadable load_parent (l : list string) (w w' : World) (r : unit) :
  for_each l (load_and_count load_parent) w = (w', Ok r) →
  ∀ id, id ∈ l → ∃ doc, _db w !! id = Some doc ∧ loadable load_parent id doc.
Proof.
  destruct r. intros (_ & _ & _ & _ & Hin)%load_loop_inv id Hid.
  destruct (Hin id Hid) as (doc & c & n & ? & ? & ? & ? & ?).
  exists doc. split; [done|]. split; by eexists.
Qed.

Lemma elem_of_doc_ids (db : gmap string ODATA) (id : string) :
  id ∈ (map_to_list db).*1 ↔ is_Some (db !! id).
Proof.
  rewrite list_elem_of_fmap. split.
  - intros [[k doc] [-> Hin%elem_of_map_to_list]]. by eexists.
  - intros [doc Hdoc]. exists (id, doc). split; [done|]. by apply elem_of_map_to_list.
Qed.

(** What a successful load leaves. *)
Lemma load_spec load_parent w w' :
  _load_objects_into_ram load_parent w = (w', Ok tt) →
  _db w' = _db w ∧ (next_dbref w ≤ next_dbref w')%Z ∧
  (next_dbref w' = next_dbref w ∨
   ∃ id, is_Some (_db w !! id) ∧ int id = Ok (next_dbref w' - 1)%Z) ∧
  (∀ k, _db w !! k = None → _objects w' !! k = _objects w !! k) ∧
  (∀ id doc, _db w !! id = Some doc →
             ∃ c n, load_parent (parent doc) = Some c ∧
                    _objects w' !! id = Some (mkObject c doc) ∧
                    int id = Ok n ∧ (n < next_dbref w')%Z).
Proof.
  rewrite _load_objects_into_ram_unfold.
  intros (Hd & Hle & Hmax & Hout & Hin)%load_loop_inv.
  split; [done|]. split; [done|]. split; [|split].
  - destruct Hmax as [? | (id & Hid%elem_of_doc_ids & Hint)]; [by left | right; eauto].
  - intros k Hk. apply Hout. rewrite elem_of_doc_ids, Hk. by intros [? ?].
  - intros id doc Hdoc. destruct (Hin id) as (doc' & c & n & Hdoc' & ? & ? & ? & ?).
    { apply elem_of_doc_ids. by eexists. }
    exists c, n. assert (doc' = doc) as -> by congruence. done.
Qed.

Lemma load_ok load_parent w :
  map_Forall (loadable load_parent) (_db w) →
  ∃ w', _load_objects_into_ram load_parent w = (w', Ok tt).
Proof.
  intros Hall. rewrite _load_objects_into_ram_unfold. apply load_loop_ok.
  intros id [doc Hdoc]%elem_of_doc_ids. exists doc. split; [done|]. by apply (Hall id).
Qed.

(** X1. [_load_objects_into_ram] gets through exactly when every document's
    parent class loads and every document id reads as an integer; one
    document that fails either test makes the whole load raise. *)
Theorem load_succeeds_iff_every_document_loads
    (load_parent : string → option ParentClass) (w : World) :
  is_Ok (_load_objects_into_ram load_parent w).2 ↔ map_Forall (loadable load_parent) (_db w).
Proof.
  rewrite _load_objects_into_ram_unfold. split.
  - intros [r Hr] id doc Hdoc.
    destruct (for_each (map_to_list (_db w)).*1 (load_and_count load_parent) w)
      as [w' res] eqn:Hrun.
    simpl in Hr. subst res.
    destruct (load_loop_loadable _ _ _ _ _ Hrun id) as (doc' & Hdoc' & Hload).
    { apply elem_of_doc_ids. by eexists. }
    congruence.
  - intros Hall. destruct (load_ok load_parent w Hall) as [w' Hw'].
    rewrite _load_objects_into_ram_unfold in Hw'. rewrite Hw'. by eexists.
Qed.

(** X2. After a load that got through, every document has its instance in
    the cache, built from the document by its parent class; the documents
    are as before, instances without a document are left alone, and the
    counter is the larger of its old value and one more than the highest
    document id: every document id lies below it. *)
Theorem load_caches_every_document
    (load_parent : string → option ParentClass) (w w' : World) :
  _load_objects_into_ram load_parent w = (w', Ok tt) →
  _db w' = _db w ∧
  (next_dbref w' = next_dbref w ∨
   ∃ id, is_Some (_db w !! id) ∧ int id = Ok (next_dbref w' - 1)%Z) ∧
  (next_dbref w ≤ next_dbref w')%Z ∧
  (∀ k, _db w !! k = None → _objects w' !! k = _objects w !! k) ∧
  (∀ id doc, _db w !! id = Some doc →
             _objects w' !! id = instance_of load_parent doc ∧
             is_Some (instance_of load_parent doc) ∧
             ∃ n, int id = Ok n ∧ (n < next_dbref w')%Z).
Proof.
  intros (Hd & Hle & Hmax & Hout & Hin)%load_spec. split_and!; try done.
  intros id doc Hdoc. destruct (Hin id doc Hdoc) as (c & n & Hc & Ho & Hn & Hlt).
  unfold instance_of. rewrite Hc. simpl. split; [done|]. split; [by eexists|].
  by exists n.
Qed.

(** X3. After a load that got through, the id [create_object] hands out
    next is the id of no stored document (the counter starts at 1 and is
    never negative): creating an object overwrites no document. *)
Theorem create_after_load_overwrites_nothing
    (load_parent : string → option ParentClass) (parent_path : string) (kwargs : ODATA)
    (w w1 w2 : World) (new_id : string) :
  (0 ≤ next_dbref w)%Z →
  _load_objects_into_ram load_parent w = (w1, Ok tt) →
  create_object load_parent parent_path kwargs w1 = (w2, Ok new_id) →
  _db w !! new_id = None ∧
  (∀ k doc, _db w !! k = Some doc → _db w2 !! k = Some doc) ∧
  (∀ k doc, _db w !! k = Some doc → _objects w2 !! k = instance_of load_parent doc).
Proof.
  intros Hpos (Hd & Hle & _ & Hout & Hin)%load_spec Hcreate.
  unfold create_object in Hcreate.
  destruct (load_parent parent_path) as [c|]; [|done].
  injection Hcreate as <- <-. simpl.
  assert (Hfresh : _db w !! pretty (next_dbref w1) = None).
  { destruct (_db w !! pretty (next_dbref w1)) as [doc|] eqn:Hdoc; [|done].
    destruct (Hin _ _ Hdoc) as (c' & n & _ & _ & Hn & Hlt).
    rewrite int_pretty in Hn by lia. injection Hn as <-. lia. }
  split; [done|]. split.
  - intros k doc Hdoc. rewrite lookup_insert_ne by congruence. by rewrite Hd.
  - intros k doc Hdoc. rewrite lookup_insert_ne by congruence.
    destruct (Hin _ _ Hdoc) as (c' & n & Hc' & Ho & _). unfold instance_of.
    by rewrite Hc'.
Qed.

(** What a load makes of a store whose instances all have documents: the
    cache is the image of the documents. *)
Lemma load_rebuilds_cache load_parent w w' :
  dom (_objects w) ⊆ dom (_db w) →
  _load_objects_into_ram load_parent w = (w', Ok tt) →
  ∀ id, _objects w' !! id = _db w' !! id ≫= instance_of load_parent.
Proof.
  intros Hdom (Hd & _ & _ & Hout & Hin)%load_spec id. rewrite Hd.
  destruct (_db w !! id) as [doc|] eqn:Hdoc; simpl.
  - destruct (Hin id doc Hdoc) as (c & n & Hc & Ho & _). unfold instance_of.
    by rewrite Hc.
  - rewrite Hout by done. apply not_elem_of_dom. intros Hid%Hdom.
    by apply not_elem_of_dom in Hdoc.
Qed.

Lemma _prepare_at_load_unfold load_parent w :
  _prepare_at_load load_parent w
  = let w0 := with_objects (λ _, ∅) w in
    if decide (size (_db w) = 0%nat) then
      match create_object load_parent "src.game.parents.base_objects.room.RoomObject"
              (mkOdata "" "And so it begins..." [] None None None) w0 with
      | (w1, Ok _) => _load_objects_into_ram load_parent w1
      | (w1, Raise e) => (w1, Raise e)
      end
    else _load_objects_into_ram load_parent w0.
Proof.
  unfold _prepare_at_load. rewrite bind_M_unfold. unfold modify.
  rewrite bind_M_unfold. unfold _prep_db. simpl _db.
  destruct (decide (size (_db w) = 0%nat)); [|done].
  rewrite bind_M_unfold. unfold _create_initial_room.
  by destruct (create_object _ _ _ _) as [w1 [new_id|exc]].
Qed.

Lemma create_object_ok load_parent parent_path kwargs w NewObject :
  load_parent parent_path = Some NewObject →
  create_object load_parent parent_path kwargs w
  = (with_next_dbref (next_dbref w + 1)
       (with_objects
          (<[pretty (next_dbref w) :=
               mkObject NewObject
                 (mkOdata parent_path (name kwargs) (aliases kwargs) (location_id kwargs)
                          (zone_id kwargs) (destination_id kwargs))]>)
          (with_db
             (<[pretty (next_dbref w) :=
                  mkOdata parent_path (name kwargs) (aliases kwargs) (location_id kwargs)
                          (zone_id kwargs) (destination_id kwargs)]>) w)),
     Ok (pretty (next_dbref w))).
Proof. unfold create_object. by intros ->. Qed.

(** A load of a store that holds one document, already cached, whose id
    lies below the counter: nothing changes. *)
Lemma load_single_document load_parent w (id : string) (doc : ODATA) (c : ParentClass)
    (n : Z) :
  _db w = {[id := doc]} → _objects w = {[id := mkObject c doc]} →
  load_parent (parent doc) = Some c → int id = Ok n → (n < next_dbref w)%Z →
  ∃ w', _load_objects_into_ram load_parent w = (w', Ok tt) ∧
        _db w' = {[id := doc]} ∧ _objects w' = {[id := mkObject c doc]} ∧
        next_dbref w' = next_dbref w.
Proof.
  intros Hdb Hobjs Hc Hn Hlt.
  destruct (load_ok load_parent w) as [w' Hload].
  { rewrite Hdb. intros k d [<- <-]%lookup_singleton_Some.
    split; [by rewrite Hc | by exists n]. }
  exists w'. split; [done|].
  pose proof (load_rebuilds_cache load_parent w w') as Hcache.
  apply load_spec in Hload as Hspec. destruct Hspec as (Hd & Hle & Hmax & _ & _).
  split; [by rewrite Hd, Hdb|]. split.
  - apply map_eq. intros k. rewrite Hcache; [|by rewrite Hdb, Hobjs, !dom_singleton_L|done].
    rewrite Hd, Hdb. destruct (decide (k = id)) as [->|Hk].
    + rewrite !lookup_singleton_eq. simpl. unfold instance_of. by rewrite Hc.
    + by rewrite !lookup_singleton_ne.
  - destruct Hmax as [-> | (k & [d Hk] & Hint)]; [done|].
    rewrite Hdb in Hk. apply lookup_singleton_Some in Hk as [<- _].
    rewrite Hn in Hint. injection Hint as Hint. lia.
Qed.

(** X4. Start-up on an empty database: when the room class loads,
    [_prepare_at_load] leaves exactly one document and one instance, the
    room named 'And so it begins...' under the counter's value as id, and
    the counter one higher; whatever instances were cached before are gone. *)
Theorem empty_database_gets_the_starter_room
    (load_parent : string → option ParentClass) (RoomClass : ParentClass) (w : World) :
  _db w = ∅ → (0 ≤ next_dbref w)%Z →
  load_parent "src.game.parents.base_objects.room.RoomObject" = Some RoomClass →
  let room :=
    mkOdata "src.game.parents.base_objects.room.RoomObject" "And so it begins..."
            [] None None None in
  ∃ w', _prepare_at_load load_parent w = (w', Ok tt) ∧
        _db w' = {[pretty (next_dbref w) := room]} ∧
        _objects w' = {[pretty (next_dbref w) := mkObject RoomClass room]} ∧
        next_dbref w' = (next_dbref w + 1)%Z.
Proof.
  intros Hdb Hpos Hroom room. rewrite _prepare_at_load_unfold.
  rewrite decide_True by (by apply map_size_empty_iff).
  rewrite (create_object_ok _ _ _ _ _ Hroom).
  set (w1 := with_next_dbref _ _).
  destruct (load_single_document load_parent w1 (pretty (next_dbref w)) room RoomClass
              (next_dbref w)) as (w' & Hload & Hdb' & Hobjs' & Hcounter').
  - subst w1. simpl. by rewrite Hdb, insert_empty.
  - subst w1. simpl. by rewrite insert_empty.
  - done.
  - by apply int_pretty.
  - subst w1. simpl. lia.
  - exists w'. by rewrite Hcounter'.
Qed.


(** X6. An object that [create_object] made is cached and persisted under
    the returned id with the fields it was given, [get_object] finds it,
    and [reload_object] on it changes nothing: the document written is the
    one the instance is rebuilt from. *)
Theorem created_object_survives_reload
    (load_parent : string → option ParentClass) (parent_path : string) (kwargs : ODATA)
    (w w1 : World) (new_id : string) :
  create_object load_parent parent_path kwargs w = (w1, Ok new_id) →
  ∃ NewObject,
    let odata :=
      mkOdata parent_path (name kwargs) (aliases kwargs) (location_id kwargs)
              (zone_id kwargs) (destination_id kwargs) in
    load_parent parent_path = Some NewObject ∧
    _objects w1 !! new_id = Some (mkObject NewObject odata) ∧
    _db w1 !! new_id = Some odata ∧
    get_object w1 new_id = Ok new_id ∧
    reload_object load_parent new_id w1 = (w1, Ok new_id).
Proof.
  unfold create_object. destruct (load_parent parent_path) as [c|] eqn:Hc; [|done].
  intros [= <- <-]. exists c. destruct w as [objs db n out lines seen].
  cbn -[pretty]. split; [done|]. rewrite !lookup_insert_eq. split; [done|]. split; [done|].
  unfold get_object, reload_object, _load_object. cbn -[pretty].
  rewrite !lookup_insert_eq. cbn -[pretty]. rewrite Hc. split; [done|].
  unfold with_objects, with_next_dbref, with_db. cbn -[pretty].
  by rewrite insert_delete_eq, insert_insert_eq.
Qed.

(** X7. Saving an instance and reloading it gives back an instance with
    the same fields, of the class its [parent] field names now: the cache
    and the documents both hold the saved fields under its id, and nothing
    else changes. *)
Theorem save_then_reload_round_trip
    (load_parent : string → option ParentClass) (self : string) (o : BaseObject)
    (parent_cls : ParentClass) (w : World) :
  _objects w !! self = Some o →
  load_parent (parent (_odata o)) = Some parent_cls →
  ∃ w', (save self ;; reload_object load_parent self) w = (w', Ok self) ∧
        _objects w' = <[self := mkObject parent_cls (_odata o)]> (_objects w) ∧
        _db w' = <[self := _odata o]> (_db w) ∧
        next_dbref w' = next_dbref w ∧ emitted w' = emitted w.
Proof.
  intros Ho Hc. rewrite bind_M_unfold. unfold save. rewrite (read_ok _ _ _ o) by
    (by apply deref_Some).
  unfold save_object, modify, reload_object, _load_object. simpl.
  rewrite !lookup_insert_eq, Hc. eexists. split; [reflexivity|]. simpl.
  by rewrite insert_delete_eq, insert_insert_eq.
Qed.

(** X8. A [reload_object] that raises after its cache check has already
    dropped the instance: the object is gone from the cache (so
    [get_object] raises InvalidObjectId) while its document, if any, is
    still stored.  It raises exactly when the document is missing
    (ResourceNotFound) or its parent class does not load (InvalidParent). *)
Theorem failed_reload_evicts_the_object
    (load_parent : string → option ParentClass) (self : string) (w w' : World)
    (e : Exception) :
  is_Some (_objects w !! self) →
  reload_object load_parent self w = (w', Raise e) →
  _objects w' = delete self (_objects w) ∧ _db w' = _db w ∧
  get_object w' self = Raise (InvalidObjectId ("Invalid object ID requested: " +:+ self)) ∧
  match _db w !! self with
  | None => e = ResourceNotFound self
  | Some doc => load_parent (parent doc) = None ∧ ∃ message, e = InvalidParent message
  end.
Proof.
  intros [o Ho]. unfold reload_object, _load_object. rewrite Ho. simpl.
  destruct (_db w !! self) as [doc|] eqn:Hdoc.
  - destruct (load_parent (parent doc)) as [c|] eqn:Hc; [done|].
    intros [= <- <-]. simpl. split; [done|]. split; [done|].
    unfold get_object. simpl. rewrite lookup_delete_eq. split; [done|].
    split; [done | by eexists].
  - intros [= <- <-]. simpl. split; [done|]. split; [done|].
    unfold get_object. simpl. by rewrite lookup_delete_eq.
Qed.

(** ** The store: scans *)

(** A scan that raises, raises what its test raised on some entry. *)
Lemma scan_Raise keep items e :
  scan keep items = Raise e → ∃ id o, (id, o) ∈ items ∧ keep id o = Raise e.
Proof.
  induction items as [|[id o] items IH]; simpl; [done|].
  destruct (keep id o) as [b|e'] eqn:Hk; simpl.
  - destruct (scan keep items) as [found|e'] eqn:Hs; simpl; [done|].
    intros [= ->]. destruct (IH eq_refl) as (id' & o' & Hin & Hk').
    exists id', o'. split; [by right | done].
  - intros [= ->]. exists id, o. split; [by left | done].
Qed.

Lemma resolve_id_is_Ok w v : is_Ok (resolve_id w v) ↔ resolves w v.
Proof.
  split.
  - intros [r Hr]. by apply resolve_id_inv in Hr as [_ ?].
  - intros Hv. rewrite (resolve_id_ok _ _ Hv). by eexists.
Qed.

Lemma bind_Ok_is_Ok {A B} (r : Result A) (f : A → B) :
  is_Ok (a ← r; Ok (f a)) ↔ is_Ok r.
Proof.
  destruct r as [a|e]; simpl; split; intros [x Hx]; try done; by eexists.
Qed.

(** The contents, by the [location_id] fields. *)
Lemma get_object_contents_char w obj contents :
  get_object_contents w obj = Ok contents →
  ∀ k, k ∈ contents ↔
       ∃ o, _objects w !! k = Some o ∧ truthy_id (location_id (_odata o)) = Some obj.
Proof.
  intros Hscan k. rewrite (get_object_contents_elem_of _ _ _ _ Hscan). split.
  - intros [[o Ho] Hloc]. exists o. split; [done|].
    rewrite (get_location_Some _ _ _ Ho) in Hloc.
    by apply resolve_id_inv in Hloc as [? _].
  - intros (o & Ho & Hloc). split; [by eexists|].
    rewrite (get_location_Some _ _ _ Ho).
    destruct (get_object_contents_locations _ _ _ _ _ Hscan Ho) as [loc Hl].
    rewrite (get_location_Some _ _ _ Ho) in Hl. rewrite Hl.
    apply resolve_id_inv in Hl as [-> _]. by rewrite Hloc.
Qed.

Lemma locations_resolve_contents w obj :
  locations_resolve w → is_Ok (get_object_contents w obj).
Proof.
  intros Hall. unfold get_object_contents. eexists. apply scan_spec. split; [|done].
  apply Forall_forall. intros [k o] Hin%elem_of_map_to_list. simpl.
  apply bind_Ok_is_Ok. rewrite (get_location_Some _ _ _ Hin).
  apply resolve_id_is_Ok. by apply (Hall k).
Qed.

(** X9. [get_object_contents] gets through exactly when no instance of the
    whole store has a dangling [location_id], whichever object is asked
    about; and then it lists, without repeats, exactly the instances whose
    [location_id] is the object's id. *)
Theorem contents_scan_reads_every_location (w : World) (obj : string) :
  (is_Ok (get_object_contents w obj) ↔ locations_resolve w) ∧
  ∀ contents, get_object_contents w obj = Ok contents →
    NoDup contents ∧
    ∀ k, k ∈ contents ↔
         ∃ o, _objects w !! k = Some o ∧ truthy_id (location_id (_odata o)) = Some obj.
Proof.
  split.
  - unfold get_object_contents, locations_resolve. split.
    + intros [l [Hall _]%scan_spec] k o Ho. rewrite Forall_forall in Hall.
      specialize (Hall (k, o)). simpl in Hall.
      apply bind_Ok_is_Ok in Hall; [|by apply elem_of_map_to_list].
      rewrite (get_location_Some _ _ _ Ho) in Hall. by apply resolve_id_is_Ok.
    + apply locations_resolve_contents.
  - intros contents Hscan. split.
    + unfold get_object_contents in Hscan. eapply scan_NoDup; [|exact Hscan].
      apply NoDup_fst_map_to_list.
    + by apply get_object_contents_char.
Qed.

(** X10. For a cached object that is not an exit,
    [find_exits_linked_to_obj] gets through exactly when no exit of the
    whole store has a dangling [destination_id]; and then it lists, without
    repeats, exactly the exits whose [destination_id] is the object's id. *)
Theorem exit_scan_reads_every_destination (w : World) (obj : string) (o : BaseObject) :
  _objects w !! obj = Some o → base_type (cls o) ≠ "exit" →
  (is_Ok (find_exits_linked_to_obj w obj) ↔ destinations_resolve w) ∧
  ∀ exits, find_exits_linked_to_obj w obj = Ok exits →
    NoDup exits ∧
    ∀ x, x ∈ exits ↔
         ∃ ox, _objects w !! x = Some ox ∧ base_type (cls ox) = "exit" ∧
               truthy_id (destination_id (_odata ox)) = Some obj.
Proof.
  intros Ho Hne.
  assert (Hres : is_Ok (find_exits_linked_to_obj w obj) → destinations_resolve w).
  { unfold find_exits_linked_to_obj. rewrite (deref_Some _ _ _ Ho). simpl.
    rewrite decide_False by done. intros [l [Hall _]%scan_spec] k ox Hox Hexit.
    rewrite Forall_forall in Hall. specialize (Hall (k, ox)). simpl in Hall.
    rewrite decide_True in Hall by done.
    apply bind_Ok_is_Ok in Hall; [|by apply elem_of_map_to_list].
    rewrite (get_destination_Some _ _ _ Hox) in Hall. by apply resolve_id_is_Ok. }
  split.
  - split; [exact Hres|]. intros Hd.
    destruct (find_exits_ok w obj o Ho Hne Hd) as (exits & -> & _). by eexists.
  - intros exits Hexits.
    destruct (find_exits_ok w obj o Ho Hne) as (exits' & Hexits' & Hnd & Hchar).
    { apply Hres. by eexists. }
    assert (exits' = exits) as -> by congruence. done.
Qed.

Lemma unzone_location gone o :
  location_id (_odata (unzone gone o)) = location_id (_odata o).
Proof.
  unfold unzone. destruct (truthy_id (zone_id (_odata o))) as [z|]; [|done].
  by destruct (decide (z ∈ gone)).
Qed.

(** What a contents scan raises is the InvalidObjectId of a dangling
    [location_id]. *)
Lemma get_object_contents_Raise w obj e :
  get_object_contents w obj = Raise e → ∃ message, e = InvalidObjectId message.
Proof.
  intros (id & ox & Hx%elem_of_map_to_list & Hkeep)%scan_Raise.
  rewrite (get_location_Some _ _ _ Hx) in Hkeep. unfold resolve_id in Hkeep.
  destruct (truthy_id (location_id (_odata ox))) as [ref|]; [|done].
  unfold get_object in Hkeep. destruct (_objects w !! ref); [done|].
  simpl in Hkeep. injection Hkeep as <-. by eexists.
Qed.

(** X11. [destroy] does not move what lies inside the destroyed object: an
    object located in it keeps its [location_id], which now names nothing,
    and from then on [get_object_contents] raises InvalidObjectId for every
    object asked about. *)
Theorem destroy_strands_the_contents
    (depth : nat) (self inside : string) (o_inside : BaseObject) (w : World) :
  (2 ≤ depth)%nat → consistent w → is_Some (_objects w !! self) →
  _objects w !! inside = Some o_inside → inside ≠ self →
  base_type (cls o_inside) ≠ "exit" →
  truthy_id (location_id (_odata o_inside)) = Some self →
  ∃ w', destroy depth self w = (w', Ok tt) ∧
        get_object w' self
        = Raise (InvalidObjectId ("Invalid object ID requested: " +:+ self)) ∧
        (∃ o', _objects w' !! inside = Some o' ∧
               location_id (_odata o') = location_id (_odata o_inside)) ∧
        ∀ obj, ∃ message, get_object_contents w' obj = Raise (InvalidObjectId message).
Proof.
  intros Hdepth Hcons [o Ho] Hin Hne Hnoexit Hloc.
  destruct (destroy_spec depth self w o Hdepth Ho Hcons)
    as (exits & w' & _ & _ & _ & Hexits & _ & Hrun & Hobjs & _).
  exists w'. split; [done|].
  assert (Hgone : _objects w' !! self = None).
  { rewrite Hobjs, after_destroy_lookup. rewrite decide_True; [done|]. set_solver. }
  assert (Hkept : _objects w' !! inside
                  = Some (unzone (list_to_set exits ∪ {[self]}) o_inside)).
  { rewrite Hobjs, after_destroy_lookup, Hin. rewrite decide_False; [done|].
    intros [Hx%elem_of_list_to_set | ->%elem_of_singleton]%elem_of_union; [|done].
    destruct (Hexits _ Hx) as (ox & Hox & Hexit). congruence. }
  split; [unfold get_object; by rewrite Hgone|].
  split; [eexists; split; [exact Hkept | apply unzone_location]|].
  intros obj. destruct (get_object_contents w' obj) as [contents|e] eqn:Hscan.
  - exfalso. destruct (get_object_contents_locations _ _ _ _ _ Hscan Hkept) as [loc Hl].
    rewrite (get_location_Some _ _ _ Hkept), unzone_location in Hl.
    apply resolve_id_inv in Hl as [_ Hl]. unfold resolves in Hl. rewrite Hloc in Hl.
    rewrite Hgone in Hl. by destruct Hl.
  - apply get_object_contents_Raise in Hscan as [message ->]. by eexists.
Qed.

(** ** Search *)

Lemma name_or_alias_loop_fuzzy partial_ratio w desc objects ratio result :
  (∀ obj, obj ∈ objects → is_Some (_objects w !! obj)) →
  (∀ obj, obj ∈ objects → alias_match w desc obj = false) →
  (name_or_alias_loop partial_ratio w objects desc ratio result = Ok result ∧
   ∀ obj, obj ∈ objects → (score partial_ratio w desc obj ≤ Z.max 50 ratio)%Z) ∨
  (∃ before found after,
     objects = (before ++ found :: after)%list ∧
     name_or_alias_loop partial_ratio w objects desc ratio result = Ok (Some found) ∧
     (Z.max 50 ratio < score partial_ratio w desc found)%Z ∧
     (∀ b, b ∈ before →
           (score partial_ratio w desc b < score partial_ratio w desc found)%Z) ∧
     (∀ a, a ∈ after →
           (score partial_ratio w desc a ≤ score partial_ratio w desc found)%Z)).
Proof.
  revert ratio result. induction objects as [|obj rest IH]; intros ratio result Hcached Hno.
  - left. split; [done|]. by intros ? ?%elem_of_nil.
  - destruct (Hcached obj) as [o Ho]; [by left|].
    pose proof (Hno obj (list_elem_of_here _ _)) as Halias.
    unfold alias_match in Halias. rewrite Ho in Halias.
    assert (Hscore : score partial_ratio w desc obj = partial_ratio desc (name (_odata o))).
    { unfold score. by rewrite Ho. }
    simpl. rewrite (deref_Some _ _ _ Ho). simpl. rewrite Halias.
    assert (Hc : ∀ x, x ∈ rest → is_Some (_objects w !! x)).
    { intros x Hx. apply Hcached. by right. }
    assert (Hn : ∀ x, x ∈ rest → alias_match w desc x = false).
    { intros x Hx. apply Hno. by right. }
    destruct ((50 <? partial_ratio desc (name (_odata o))) &&
              (ratio <? partial_ratio desc (name (_odata o))))%Z eqn:Hbetter.
    + apply andb_true_iff in Hbetter as [H50%Z.ltb_lt Hr%Z.ltb_lt].
      destruct (IH (partial_ratio desc (name (_odata o))) (Some obj) Hc Hn)
        as [[Hrun Hall] | (before & found & after & -> & Hrun & Hmax & Hb & Ha)].
      * right. exists [], obj, rest. split; [done|]. split; [done|].
        split; [rewrite Hscore; lia|]. split; [by intros ? ?%elem_of_nil|].
        intros a Ha. specialize (Hall a Ha). rewrite Hscore. lia.
      * right. exists (obj :: before), found, after. split; [done|]. split; [done|].
        split; [lia|]. split; [|done].
        intros b [-> | Hin]%elem_of_cons; [rewrite Hscore; lia | by apply Hb].
    + assert (Hle : (partial_ratio desc (name (_odata o)) ≤ Z.max 50 ratio)%Z).
      { apply andb_false_iff in Hbetter as [H%Z.ltb_ge | H%Z.ltb_ge]; lia. }
      destruct (IH ratio result Hc Hn)
        as [[Hrun Hall] | (before & found & after & -> & Hrun & Hmax & Hb & Ha)].
      * left. split; [done|].
        intros x [-> | Hin]%elem_of_cons; [by rewrite Hscore | by apply Hall].
      * right. exists (obj :: before), found, after. split; [done|]. split; [done|].
        split; [done|]. split; [|done].
        intros b [-> | Hin]%elem_of_cons; [rewrite Hscore; lia | by apply Hb].
Qed.

(** X12. When no object of the list matches by alias,
    [_find_name_or_alias_match] returns the first object with the highest
    fuzzy score, provided that score is above 50; it returns None exactly
    when no score is above 50. *)
Theorem fuzzy_match_picks_the_first_best_score
    (partial_ratio : string → string → Z) (w : World) (objects : list string)
    (desc : string) :
  (∀ obj, obj ∈ objects → is_Some (_objects w !! obj)) →
  (∀ obj, obj ∈ objects → alias_match w desc obj = false) →
  ∃ result, _find_name_or_alias_match partial_ratio w objects desc = Ok result ∧
    match result with
    | None => ∀ obj, obj ∈ objects → (score partial_ratio w desc obj ≤ 50)%Z
    | Some found =>
        (50 < score partial_ratio w desc found)%Z ∧
        ∃ before after,
          objects = (before ++ found :: after)%list ∧
          (∀ b, b ∈ before →
                (score partial_ratio w desc b < score partial_ratio w desc found)%Z) ∧
          (∀ a, a ∈ after →
                (score partial_ratio w desc a ≤ score partial_ratio w desc found)%Z)
    end.
Proof.
  intros Hcached Hno. unfold _find_name_or_alias_match.
  destruct (name_or_alias_loop_fuzzy partial_ratio w desc objects 0 None Hcached Hno)
    as [[Hrun Hall] | (before & found & after & Hsplit & Hrun & Hmax & Hb & Ha)].
  - exists None. split; [done|]. intros obj Hobj. specialize (Hall obj Hobj). lia.
  - exists (Some found). split; [done|]. split; [lia|]. by exists before, after.
Qed.

Lemma name_or_alias_loop_elem_of partial_ratio w objects desc ratio result found :
  name_or_alias_loop partial_ratio w objects desc ratio result = Ok (Some found) →
  found ∈ objects ∨ result = Some found.
Proof.
  revert ratio result. induction objects as [|obj rest IH]; intros ratio result; simpl.
  - intros [= ->]. by right.
  - destruct (deref w obj) as [o|]; [|done]. simpl.
    destruct (bool_decide (lower desc ∈ lower <$> aliases (_odata o))).
    + intros [= ->]. left. by left.
    + destruct (_ && _)%Z.
      * intros [Hin | [= ->]]%IH; left; [by right | by left].
      * intros [Hin | ->]%IH; [left; by right | by right].
Qed.

Lemma _find_name_or_alias_match_elem_of partial_ratio w objects desc found :
  _find_name_or_alias_match partial_ratio w objects desc = Ok (Some found) →
  found ∈ objects.
Proof.
  unfold _find_name_or_alias_match. by intros [? | ?]%name_or_alias_loop_elem_of.
Qed.

(** X13. Whatever the search string, [contextual_object_search] hands a
    non-admin only the searcher itself, its location, an object in the same
    location, or an object it carries: an id ('#12') gives no reach beyond
    that. *)
Theorem search_finds_only_what_is_near
    (partial_ratio : string → string → Z) (w : World) (self : string) (me : BaseObject)
    (desc : string) (found : string) :
  _objects w !! self = Some me → is_admin (cls me) = false →
  contextual_object_search partial_ratio w self desc = Ok (Some found) →
  near w self found.
Proof.
  intros Hme Hadmin. unfold contextual_object_search, near.
  destruct (decide (strip desc = "")); [done|].
  destruct (str_index0 (strip desc)) as [first|]; [|done]. simpl.
  assert (Hid : ∀ r, _find_object_id_match w self (strip desc) = Ok (Some r) →
            get_location w self = Ok (Some r) ∨
            ∃ loc, get_location w self = Ok (Some loc) ∧ get_location w r = Ok (Some loc)).
  { intros r. unfold _find_object_id_match.
    destruct (get_object w (str_slice1 (strip desc))) as [obj|]; [|done]. simpl.
    rewrite (deref_Some _ _ _ Hme). simpl. rewrite Hadmin. simpl.
    destruct (get_location w self) as [[sl|]|]; simpl; [| |done].
    - destruct (get_location w obj) as [[ol|]|] eqn:Hol; simpl; [| |done].
      + destruct (bool_decide (sl = ol)) eqn:Hsame; simpl.
        * apply bool_decide_eq_true in Hsame as ->. intros [= <-]. right. by exists ol.
        * destruct (bool_decide (sl = obj)) eqn:Hhere; [|done].
          apply bool_decide_eq_true in Hhere as ->. intros [= ->]. by left.
      + destruct (deref w obj) as [target|]; [|done]. simpl.
        destruct (decide (base_type (cls target) = "room")); [|done].
        destruct (bool_decide (sl = obj)) eqn:Hhere; [|done].
        apply bool_decide_eq_true in Hhere as ->. intros [= ->]. by left.
    - destruct (deref w _) as [target|]; [|done]. simpl.
      by destruct (decide (base_type (cls target) = "room")). }
  destruct (if decide (first = "#"%char) then _find_object_id_match w self (strip desc)
            else Ok None) as [[oid|]|] eqn:Hoid; simpl; [| |done].
  - intros [= ->]. destruct (decide (first = "#"%char)); [|done].
    destruct (Hid _ Hoid) as [? | ?]; auto.
  - destruct (decide (lower (strip desc) = "me")); [intros [= ->]; by left|].
    destruct (decide (lower (strip desc) = "here")); [intros Hhere; right; by left|].
    destruct (get_location w self) as [[loc|]|] eqn:Hloc; simpl; [| |done].
    + unfold get_contents.
      destruct (get_object_contents w loc) as [neighbors|] eqn:Hneighbors; [|done]. simpl.
      destruct (_find_name_or_alias_match partial_ratio w neighbors (strip desc))
        as [[n_match|]|] eqn:Hmatch; simpl; [| |done].
      * intros [= ->]. right. right. left. exists loc. split; [done|].
        apply _find_name_or_alias_match_elem_of in Hmatch.
        by apply (get_object_contents_elem_of _ _ _ _ Hneighbors) in Hmatch as [_ ?].
      * destruct (get_object_contents w self) as [inventory|] eqn:Hinv; [|done]. simpl.
        intros Hcarried. apply _find_name_or_alias_match_elem_of in Hcarried.
        right. right. right.
        by apply (get_object_contents_elem_of _ _ _ _ Hinv) in Hcarried as [_ ?].
    + unfold get_contents.
      destruct (get_object_contents w self) as [inventory|] eqn:Hinv; [|done]. simpl.
      intros Hcarried. apply _find_name_or_alias_match_elem_of in Hcarried.
      right. right. right.
      by apply (get_object_contents_elem_of _ _ _ _ Hinv) in Hcarried as [_ ?].
Qed.

(** ** The handler: exits, failures *)

Lemma filter_refs_elem_of w test refs kept_refs :
  filter_refs w test refs = Ok kept_refs →
  ∀ x, x ∈ kept_refs ↔ x ∈ refs ∧ ∃ o, _objects w !! x = Some o ∧ test o = true.
Proof.
  revert kept_refs. induction refs as [|obj rest IH]; intros kept_refs; simpl.
  - intros [= <-] x. split; [by intros ?%elem_of_nil | by intros [?%elem_of_nil _]].
  - unfold deref. destruct (_objects w !! obj) as [o|] eqn:Ho; [|done]. simpl.
    destruct (filter_refs w test rest) as [l|]; [|done]. simpl.
    intros [= <-] x. specialize (IH l eq_refl x).
    destruct (test o) eqn:Ht.
    + rewrite !elem_of_cons, IH. split.
      * intros [-> | [? ?]]; [split; [by left | by exists o] | split; [by right | done]].
      * intros [[-> | ?] Hx]; [by left | right; by split].
    + rewrite elem_of_cons, IH. split.
      * intros [? ?]. split; [by right | done].
      * intros [[-> | ?] (o' & Ho' & Ht')]; [congruence | split; [done | by exists o']].
Qed.

Lemma first_ref_spec w test refs r :
  first_ref w test refs = Ok r →
  match r with
  | Some x => x ∈ refs ∧ ∃ o, _objects w !! x = Some o ∧ test o = true
  | None => ∀ x o, x ∈ refs → _objects w !! x = Some o → test o = false
  end.
Proof.
  induction refs as [|obj rest IH]; simpl.
  - intros [= <-]. by intros x o ?%elem_of_nil.
  - unfold deref. destruct (_objects w !! obj) as [o|] eqn:Ho; [|done]. simpl.
    destruct (test o) eqn:Ht.
    + intros [= <-]. split; [by left | by exists o].
    + intros Hrest. specialize (IH Hrest). destruct r as [x|].
      * destruct IH as [Hin Hx]. split; [by right | done].
      * intros x o' [-> | Hin]%elem_of_cons Hx; [congruence | by eapply IH].
Qed.

(** X14. What the handler takes for an exit: only an exit that lies in the
    invoker's location and has the typed word among its aliases, case
    ignored; and when it finds none, no exit in that location has such an
    alias.  An exit's name is not matched. *)
Theorem exit_match_is_an_exit_here (w : World) (invoker : string) (parsed : ParsedCommand)
    (exit_match : option string) :
  _match_user_input_to_exit w invoker parsed = Ok exit_match →
  match exit_match with
  | Some exit_ref =>
      ∃ loc ox,
        get_location w invoker = Ok (Some loc) ∧
        _objects w !! exit_ref = Some ox ∧ base_type (cls ox) = "exit" ∧
        truthy_id (location_id (_odata ox)) = Some loc ∧
        lower (command_str parsed) ∈ lower <$> aliases (_odata ox)
  | None =>
      ∀ loc x ox,
        get_location w invoker = Ok (Some loc) →
        _objects w !! x = Some ox → base_type (cls ox) = "exit" →
        truthy_id (location_id (_odata ox)) = Some loc →
        lower (command_str parsed) ∉ lower <$> aliases (_odata ox)
  end.
Proof.
  unfold _match_user_input_to_exit.
  destruct (get_location w invoker) as [[loc|]|] eqn:Hloc; simpl; [| |done].
  - unfold get_contents.
    destruct (get_object_contents w loc) as [contents|] eqn:Hcontents; [|done]. simpl.
    destruct (filter_refs w _ contents) as [exit_neighbors|] eqn:Hexits; [|done]. simpl.
    pose proof (filter_refs_elem_of _ _ _ _ Hexits) as Hfilter.
    pose proof (get_object_contents_char _ _ _ Hcontents) as Hchar.
    intros Hfirst%first_ref_spec. destruct exit_match as [exit_ref|].
    + destruct Hfirst as [Hin (ox & Hox & Halias%bool_decide_eq_true)].
      apply Hfilter in Hin as [Hhere (ox' & Hox' & Hexit%bool_decide_eq_true)].
      apply Hchar in Hhere as (ox'' & Hox'' & Hlocated).
      exists loc, ox. assert (ox' = ox) as -> by congruence.
      assert (ox'' = ox) as -> by congruence. done.
    + intros loc' x ox [= <-] Hox Hexit Hlocated Halias.
      assert (Hx : x ∈ exit_neighbors).
      { apply Hfilter. split; [apply Hchar; by exists ox|].
        exists ox. split; [done|]. by apply bool_decide_eq_true. }
      specialize (Hfirst x ox Hx Hox). by apply bool_decide_eq_false in Hfirst.
  - intros [= <-]. by intros loc x ox [=].
Qed.

Section HandlerMore.

Variable parse : string → ParsedCommand.
Variable lookup_command : CommandTable → ParsedCommand → option BaseCommand.
Variable func : BaseCommand → string → ParsedCommand → M unit.
Variable getTraceback : Exception → string.
Variable global_command_table : CommandTable.
Variable global_admin_command_table : CommandTable.

Local Abbreviation match_command :=
  (_match_user_input_to_command lookup_command global_command_table
     global_admin_command_table).
Local Abbreviation handle :=
  (handle_input parse lookup_command func getTraceback global_command_table
     global_admin_command_table).
Local Abbreviation move :=
  (move_to parse lookup_command func getTraceback global_command_table
     global_admin_command_table).

(** X15. Once a command matched, [handle_input] returns it whatever the
    command does: no failure of a command escapes the handler.  When the
    command succeeds the world is the one it left; when it raises
    CommandError the invoker is sent the message and nothing is logged. *)
Theorem handle_input_contains_command_failures (w : World) (invoker : string)
    (command_string : string) (exit_match : option string) (cmd : BaseCommand) :
  _match_user_input_to_exit w invoker (parse command_string) = Ok exit_match →
  match_command w invoker (effective_command (parse command_string) exit_match)
  = Ok (Some cmd) →
  (handle invoker command_string w).2 = Ok (Some cmd) ∧
  (∀ w1, func cmd invoker (effective_command (parse command_string) exit_match) w
         = (w1, Ok tt) →
         (handle invoker command_string w).1 = w1) ∧
  (∀ w1 message,
     func cmd invoker (effective_command (parse command_string) exit_match) w
     = (w1, Raise (CommandError message)) →
     (handle invoker command_string w).1
     = with_emitted (λ out, (out ++ [(invoker, message)])%list) w1).
Proof.
  intros Hexit Hcmd. unfold handle_input.
  rewrite (read_ok _ _ _ _ Hexit).
  change (match exit_match with
          | Some exit_ref =>
              mkParsed "go" ["#" +:+ exit_ref] (argument_string (parse command_string))
                       (switches (parse command_string))
          | None => parse command_string
          end) with (effective_command (parse command_string) exit_match).
  rewrite (read_ok _ _ _ _ Hcmd). rewrite bind_M_unfold. unfold catch.
  destruct (func cmd invoker (effective_command (parse command_string) exit_match) w)
    as [w1 [[]|failure]] eqn:Hfunc.
  - split; [done|]. split; [by intros ? [= <-] | by intros ? ? [=]].
  - destruct failure; simpl;
      (split; [done|]; split; [by intros ? [=] | by intros ? ? [= <- <-]]).
Qed.

(** X16. An object that has no location cannot be moved: [move_to] raises
    AttributeError before anything is announced, changed or saved. *)
Theorem move_to_needs_a_location (self destination_obj : string) (force_look : bool)
    (w : World) (o : BaseObject) :
  _objects w !! self = Some o →
  truthy_id (location_id (_odata o)) = None →
  move self destination_obj force_look w
  = (w, Raise (AttributeError
                 "'NoneType' object has no attribute 'before_object_leaves_event'")).
Proof.
  intros Ho Hloc. unfold move_to.
  rewrite (read_ok _ _ _ None); [done|].
  rewrite (get_location_Some _ _ _ Ho). unfold resolve_id. by rewrite Hloc.
Qed.

End HandlerMore.

(** ** Movement and emitting: who hears what *)

Lemma get_appearance_name_ext w w' self invoker kwargs :
  _objects w' = _objects w →
  get_appearance_name w' self invoker kwargs = get_appearance_name w self invoker kwargs.
Proof. intros Heq. unfold get_appearance_name, deref. by rewrite Heq. Qed.

Lemma shown_name_ext w w' actor viewer :
  _objects w' = _objects w → shown_name w' actor viewer = shown_name w actor viewer.
Proof. intros Heq. unfold shown_name. by rewrite (get_appearance_name_ext _ _ _ _ _ Heq). Qed.

Lemma announcements_ext w w' actor suffix hearers :
  _objects w' = _objects w →
  announcements w' actor suffix hearers = announcements w actor suffix hearers.
Proof.
  intros Heq. unfold announcements. apply list_fmap_ext. intros _ obj _.
  by rewrite (shown_name_ext _ _ _ _ Heq).
Qed.

(** The loop of the two announcing events: each hearer is sent the
    actor's name as that hearer sees it. *)
Lemma announce_spec (hearers : list string) (actor suffix : string) (w w' : World) :
  for_each hearers
    (λ obj,
       shown ← read (λ w, get_appearance_name w actor (PyObj obj) []);
       emit_to obj (shown +:+ suffix)) w = (w', Ok tt) →
  w' = with_emitted (λ out, (out ++ announcements w actor suffix hearers)%list) w.
Proof.
  revert w. induction hearers as [|obj rest IH]; intros w.
  - intros [= <-]. destruct w. unfold with_emitted, announcements. simpl.
    by rewrite app_nil_r.
  - cbn [for_each]. intros (w1 & [] & Hstep & Hrest)%bind_M_inv.
    rewrite bind_M_unfold in Hstep. unfold read in Hstep.
    destruct (get_appearance_name w actor (PyObj obj) []) as [shown|] eqn:Hshown;
      cbv beta iota in Hstep; [|done].
    unfold emit_to, modify in Hstep. injection Hstep as <-. apply IH in Hrest as ->.
    rewrite (announcements_ext _ w) by done.
    assert (Hhead : announcements w actor suffix (obj :: rest)
                    = (obj, shown +:+ suffix) :: announcements w actor suffix rest).
    { unfold announcements. rewrite fmap_cons. unfold shown_name at 1. by rewrite Hshown. }
    rewrite Hhead. destruct w. unfold with_emitted. cbn -[announcements].
    by rewrite <- app_assoc.
Qed.

Section Movement.

Variable parse : string → ParsedCommand.
Variable lookup_command : CommandTable → ParsedCommand → option BaseCommand.
Variable func : BaseCommand → string → ParsedCommand → M unit.
Variable getTraceback : Exception → string.
Variable global_command_table : CommandTable.
Variable global_admin_command_table : CommandTable.

Local Abbreviation move :=
  (move_to parse lookup_command func getTraceback global_command_table
     global_admin_command_table).

(** X17. A move without the closing 'look' that got through: the mover's
    new [location_id] is cached and saved, nothing else in the store
    changes, and what is sent is exactly '<name> has arrived' to each
    object that was in the destination before the move, then '<name> has
    left' to each object that is in the old location after it, each with
    the mover's name as that hearer sees it.  When the two places differ
    the mover is sent neither. *)
Theorem move_to_saves_and_announces (self destination_obj : string) (w w' : World)
    (o : BaseObject) :
  _objects w !! self = Some o → base_type (cls o) ≠ "room" →
  move self destination_obj false w = (w', Ok tt) →
  ∃ old_location arrivals departures,
    get_location w self = Ok (Some old_location) ∧
    get_object_contents w destination_obj = Ok arrivals ∧
    get_object_contents w' old_location = Ok departures ∧
    _objects w'
    = <[self := map_odata (with_location_id (Some destination_obj)) o]> (_objects w) ∧
    _db w' = <[self := with_location_id (Some destination_obj) (_odata o)]> (_db w) ∧
    emitted w'
    = (emitted w ++ announcements w self " has arrived" arrivals
                 ++ announcements w' self " has left" departures)%list ∧
    (old_location ≠ destination_obj → self ∉ arrivals ∧ self ∉ departures).
Proof.
  intros Ho Hnotroom Hmove. unfold move_to in Hmove.
  apply bind_M_inv in Hmove as (w0 & old & Hread & Hmove).
  injection Hread as <- Hold. destruct old as [old_location|]; [|discriminate Hmove].
  apply bind_M_inv in Hmove as (w0 & [] & Hleave & Hmove). injection Hleave as <-.
  apply bind_M_inv in Hmove as (w1 & [] & Henter & Hmove).
  unfold before_object_enters_event in Henter.
  apply bind_M_inv in Henter as (w0 & arrivals & Harrivals & Henter).
  injection Harrivals as <- Harrivals. unfold get_contents in Harrivals.
  apply announce_spec in Henter as ->.
  apply bind_M_inv in Hmove as (w2 & [] & Hset & Hmove).
  set (o' := map_odata (with_location_id (Some destination_obj)) o).
  unfold set_location in Hset. rewrite bind_M_unfold in Hset. unfold read, deref in Hset.
  simpl in Hset. rewrite Ho in Hset.
  destruct (decide (base_type (cls o) = "room")); [done|].
  unfold update_odata in Hset. simpl in Hset. rewrite Ho in Hset. injection Hset as <-.
  apply bind_M_inv in Hmove as (w3 & [] & Hsave & Hmove).
  unfold save in Hsave. rewrite bind_M_unfold in Hsave. unfold read, deref in Hsave.
  simpl in Hsave. rewrite lookup_insert_eq in Hsave. injection Hsave as <-.
  apply bind_M_inv in Hmove as (w4 & [] & Hleft & Hmove).
  unfold after_object_leaves_event in Hleft.
  apply bind_M_inv in Hleft as (w3' & departures & Hdepartures & Hleft).
  injection Hdepartures as <- Hdepartures. unfold get_contents in Hdepartures.
  apply announce_spec in Hleft as ->.
  apply bind_M_inv in Hmove as (w4' & [] & Hentered & Hmove). injection Hentered as <-.
  injection Hmove as <-.
  set (w3 := with_objects _ (with_db _ _)) in *.
  assert (Hobjs : _objects w3 = <[self := o']> (_objects w)).
  { subst w3. simpl. by rewrite insert_insert_eq. }
  exists old_location, arrivals, departures.
  split; [done|]. split; [done|].
  split; [by rewrite (get_object_contents_ext w3)|].
  split; [done|]. split; [done|]. split.
  - simpl. by rewrite <- app_assoc.
  - intros Hne. split.
    + intros [_ Hin]%(get_object_contents_elem_of _ _ _ _ Harrivals). congruence.
    + intros (ox & Hox & Hlocated)%(get_object_contents_char _ _ _ Hdepartures).
      rewrite Hobjs, lookup_insert_eq in Hox. injection Hox as <-. simpl in Hlocated.
      destruct (decide (destination_obj = "")); congruence.
Qed.

End Movement.

(** X18. [emit_to_contents] sends the message to each object inside, in
    scan order, except those listed in [exclude]; it changes nothing else.
    It raises exactly when some [location_id] of the store dangles, and
    then nothing is sent. *)
Theorem emit_to_contents_skips_the_excluded (self message : string)
    (exclude : option (list string)) (w : World) :
  match get_object_contents w self with
  | Ok contents =>
      emit_to_contents self message exclude w
      = (with_emitted
           (λ out, (out ++ ((., message) <$> filter (.∉ default [] exclude) contents))%list)
           w, Ok tt)
  | Raise e => ¬ locations_resolve w ∧ emit_to_contents self message exclude w = (w, Raise e)
  end.
Proof.
  unfold emit_to_contents, get_contents. rewrite bind_M_unfold. unfold read.
  destruct (get_object_contents w self) as [contents|e] eqn:Hcontents.
  - assert (Hexclude : match exclude with
                       | None | Some [] => []
                       | Some objs => objs
                       end = default [] exclude).
    { by destruct exclude as [[|? ?]|]. }
    rewrite Hexclude. clear Hcontents. revert w.
    induction contents as [|obj rest IH]; intros w.
    + simpl. destruct w. unfold with_emitted. simpl. by rewrite app_nil_r.
    + simpl. rewrite bind_M_unfold. rewrite filter_cons.
      destruct (decide (obj ∉ default [] exclude)) as [Hkeep|Hskip].
      * rewrite bool_decide_eq_true_2 by done. unfold emit_to at 1, modify. rewrite IH.
        destruct w. unfold with_emitted. simpl. by rewrite <- app_assoc.
      * rewrite bool_decide_eq_false_2 by done. simpl. by rewrite IH.
  - split; [|done]. intros Hres.
    destruct (locations_resolve_contents w self Hres) as [contents Hok]. congruence.
Qed.

(** ** Staff commands *)

Lemma get_appearance_name_fails w self viewer :
  fails_only lookup_error (get_appearance_name w self (PyObj viewer) []).
Proof.
  unfold get_appearance_name. apply fails_only_bind.
  - apply fails_only_bind; [apply deref_fails | intros; apply fails_only_Ok].
  - intros b. apply fails_only_bind; [apply deref_fails | intros; apply fails_only_Ok].
Qed.

(** X19. [@destroy] raises CommandError only before it has done anything:
    for a missing argument or a target it cannot find.  [destroy] never
    raises ObjectHasZoneMembers, so the clause that would turn it into a
    CommandError is never taken. *)
Theorem destroy_command_errors_change_nothing
    (partial_ratio : string → string → Z) (depth : nat) (invoker : string)
    (parsed_cmd : ParsedCommand) (w w' : World) (message : string) :
  CmdDestroy_func partial_ratio depth invoker parsed_cmd w
  = (w', Raise (CommandError message)) →
  w' = w ∧
  (message = "Destroy what?" ∧ arguments parsed_cmd = [] ∨
   message = "Unable to find your target object to destroy." ∧
   contextual_object_search partial_ratio w invoker (argument_string parsed_cmd) = Ok None).
Proof.
  unfold CmdDestroy_func. destruct (arguments parsed_cmd) as [|arg args].
  - intros [= <- <-]. split; [done|]. by left.
  - rewrite bind_M_unfold. unfold read.
    destruct (contextual_object_search partial_ratio w invoker (argument_string parsed_cmd))
      as [[obj_to_destroy|]|exc] eqn:Hsearch.
    3: { intros [= _ ->]. by apply contextual_object_search_fails in Hsearch. }
    + rewrite bind_M_unfold.
      destruct (get_appearance_name w obj_to_destroy (PyObj invoker) [])
        as [shown|exc] eqn:Hshown.
      2: { intros [= _ ->]. by apply get_appearance_name_fails in Hshown. }
      rewrite bind_M_unfold. unfold emit_to at 1, modify. unfold catch.
      destruct (destroy depth obj_to_destroy _) as [w1 [[]|exc]] eqn:Hdestroy; [done|].
      apply destroy_raises in Hdestroy. by destruct exc.
    + intros [= <- <-]. split; [done|]. by right.
Qed.


Lemma _substitute_aliased_parent_cases (parent_str : string) :
  _substitute_aliased_parent parent_str = parent_str ∨
  _substitute_aliased_parent parent_str
  ∈ ["src.game.parents.base_objects.thing.ThingObject";
     "src.game.parents.base_objects.room.RoomObject";
     "src.game.parents.base_objects.exit.ExitObject";
     "src.game.parents.base_objects.player.PlayerObject";
     "src.game.parents.base_objects.player.AdminPlayerObject"].
Proof.
  unfold _substitute_aliased_parent.
  destruct (_ !! lower parent_str) as [path|] eqn:Hpath; [right | by left].
  apply elem_of_list_to_map_2 in Hpath. simpl.
  repeat (apply elem_of_cons in Hpath as [[= _ ->] | Hpath]; [set_solver|]).
  by apply elem_of_nil in Hpath.
Qed.

(** X20. [_substitute_aliased_parent] is idempotent: what it returns for
    an alias is a full path that is no alias itself, whatever the case the
    alias was typed in. *)
Theorem substitute_aliased_parent_idempotent (parent_str : string) :
  _substitute_aliased_parent (_substitute_aliased_parent parent_str)
  = _substitute_aliased_parent parent_str ∧
  (lower parent_str ∈ ["thing"; "room"; "exit"; "player"; "admin"] →
   _substitute_aliased_parent parent_str = _substitute_aliased_parent (lower parent_str) ∧
   _substitute_aliased_parent parent_str ≠ parent_str).
Proof.
  split.
  - destruct (_substitute_aliased_parent_cases parent_str) as [Hsame | Hpath];
      [by rewrite Hsame|].
    repeat (apply elem_of_cons in Hpath as [-> | Hpath]; [by vm_compute|]).
    by apply elem_of_nil in Hpath.
  - intros Halias.
    assert (Hlower : lower (lower parent_str) = lower parent_str).
    { repeat (apply elem_of_cons in Halias as [-> | Halias]; [done|]).
      by apply elem_of_nil in Halias. }
    unfold _substitute_aliased_parent. rewrite Hlower.
    repeat (apply elem_of_cons in Halias as [Halias | Halias];
            [rewrite Halias; split; [done|]; intros Hsame; vm_compute in Hsame;
             rewrite <- Hsame in Halias; by vm_compute in Halias|]).
    by apply elem_of_nil in Halias.
Qed.


Lemma get_appearance_name_is_Ok w self viewer :
  is_Some (_objects w !! self) → is_Some (_objects w !! viewer) →
  is_Ok (get_appearance_name w self (PyObj viewer) []).
Proof.
  intros [o Ho] [v Hv]. unfold get_appearance_name.
  rewrite (deref_Some _ _ _ Hv), (deref_Some _ _ _ Ho). by eexists.
Qed.



Lemma locations_resolve_insert w id o :
  locations_resolve w → resolves w (location_id (_odata o)) →
  locations_resolve (with_objects (<[id := o]>) w).
Proof.
  intros Hall Ho k ok Hk.
  assert (Hmono : ∀ v, resolves w v → resolves (with_objects (<[id := o]>) w) v).
  { intros v. unfold resolves. destruct (truthy_id v) as [ref|]; [|done]. cbn.
    intros [x Hx]. destruct (decide (ref = id)) as [->|Hne].
    - rewrite lookup_insert_eq. by eexists.
    - rewrite lookup_insert_ne by done. by eexists. }
  cbn in Hk. destruct (decide (k = id)) as [->|Hne].
  - rewrite lookup_insert_eq in Hk. injection Hk as <-. by apply Hmono.
  - rewrite lookup_insert_ne in Hk by done. apply Hmono. by apply (Hall k).
Qed.

Lemma locations_resolve_ext w w' :
  _objects w' = _objects w → locations_resolve w → locations_resolve w'.
Proof.
  intros Heq Hall k o Hk. rewrite Heq in Hk. specialize (Hall k o Hk).
  unfold resolves in *. destruct (truthy_id _); [|done]. by rewrite Heq.
Qed.


Lemma zones_resolve_insert w id o :
  zones_resolve w → resolves (with_objects (<[id := o]>) w) (zone_id (_odata o)) →
  zones_resolve (with_objects (<[id := o]>) w).
Proof.
  intros Hall Ho k ok Hk.
  assert (Hmono : ∀ v, resolves w v → resolves (with_objects (<[id := o]>) w) v).
  { intros v. unfold resolves. destruct (truthy_id v) as [ref|]; [|done]. cbn.
    intros [x Hx]. destruct (decide (ref = id)) as [->|Hne].
    - rewrite lookup_insert_eq. by eexists.
    - rewrite lookup_insert_ne by done. by eexists. }
  cbn in Hk. destruct (decide (k = id)) as [->|Hne].
  - rewrite lookup_insert_eq in Hk. by injection Hk as <-.
  - rewrite lookup_insert_ne in Hk by done. apply Hmono. by apply (Hall k).
Qed.

Lemma zones_resolve_ext w w' :
  _objects w' = _objects w → zones_resolve w → zones_resolve w'.
Proof.
  intros Heq Hall k o Hk. rewrite Heq in Hk. specialize (Hall k o Hk).
  unfold resolves in *. destruct (truthy_id _); [|done]. by rewrite Heq.
Qed.

(** X23. [@zone <object>=<zone master>], when both are found: the
    object's [zone_id] is set to the zone master's id in the cache and in
    the saved document, nothing else in the store changes, and the object
    is from then on among the members [find_objects_in_zone] lists for the
    zone master. *)
Theorem zone_command_makes_a_member
    (partial_ratio : string → string → Z) (invoker : string) (parsed_cmd : ParsedCommand)
    (w : World) (obj_to_zone_str zone_obj_str obj_to_zone zone_obj : string)
    (o : BaseObject) :
  arguments parsed_cmd ≠ [] →
  split_once "=" (argument_string parsed_cmd) = (obj_to_zone_str, Some zone_obj_str) →
  zone_obj_str ≠ "" →
  contextual_object_search partial_ratio w invoker obj_to_zone_str = Ok (Some obj_to_zone) →
  contextual_object_search partial_ratio w invoker zone_obj_str = Ok (Some zone_obj) →
  _objects w !! obj_to_zone = Some o →
  is_Some (_objects w !! zone_obj) → zone_obj ≠ "" →
  is_Some (_objects w !! invoker) →
  zones_resolve w →
  ∃ w' members,
    CmdZone_func partial_ratio invoker parsed_cmd w = (w', Ok tt) ∧
    _objects w' = <[obj_to_zone := map_odata (with_zone_id (Some zone_obj)) o]> (_objects w) ∧
    _db w' = <[obj_to_zone := with_zone_id (Some zone_obj) (_odata o)]> (_db w) ∧
    find_objects_in_zone w' zone_obj = Ok members ∧
    obj_to_zone ∈ members.
Proof.
  intros Hargs Hsplit Hzone_str Hsearch Hzone Ho Hz Hne Hinvoker Hres.
  unfold CmdZone_func.
  destruct (arguments parsed_cmd) as [|arg args]; [done|]. rewrite Hsplit.
  rewrite (read_ok _ _ _ _ Hsearch). rewrite decide_False by done.
  rewrite bind_M_unfold. rewrite (read_ok _ _ _ _ Hzone).
  unfold mret at 1, M_ret at 1. rewrite bind_M_unfold.
  unfold set_zone, update_odata. rewrite Ho. rewrite bind_M_unfold.
  unfold save. rewrite bind_M_unfold. unfold read at 1, deref at 1.
  cbn [_objects with_objects]. rewrite lookup_insert_eq.
  unfold save_object, modify.
  set (o' := map_odata (with_zone_id (Some zone_obj)) o).
  set (w2 := with_objects (<[obj_to_zone := o']>) (with_db _ (with_objects _ w))).
  assert (Hobjs : _objects w2 = <[obj_to_zone := o']> (_objects w)).
  { subst w2. cbn. by rewrite insert_insert_eq. }
  assert (Hcached : ∀ k, is_Some (_objects w !! k) → is_Some (_objects w2 !! k)).
  { intros k [x Hx]. rewrite Hobjs. destruct (decide (k = obj_to_zone)) as [->|Hk].
    - rewrite lookup_insert_eq. by eexists.
    - rewrite lookup_insert_ne by done. by eexists. }
  destruct (get_appearance_name_is_Ok w2 obj_to_zone invoker) as [shown Hshown];
    [apply Hcached; by eexists | by apply Hcached |].
  destruct (get_appearance_name_is_Ok w2 zone_obj invoker) as [shown_zone Hshown_zone];
    [by apply Hcached | by apply Hcached |].
  rewrite (read_ok _ _ _ _ Hshown), (read_ok _ _ _ _ Hshown_zone).
  unfold emit_to, modify. set (w' := with_emitted _ w2).
  assert (Hres' : zones_resolve w').
  { apply (zones_resolve_ext (with_objects (<[obj_to_zone := o']>) w)); [done|].
    apply zones_resolve_insert; [done|]. unfold resolves, o'. cbn.
    rewrite decide_False by done. destruct Hz as [x Hx].
    destruct (decide (zone_obj = obj_to_zone)) as [->|Hk].
    - rewrite lookup_insert_eq. by eexists.
    - rewrite lookup_insert_ne by done. by eexists. }
  destruct (find_objects_in_zone_ok w' zone_obj Hres') as (members & Hmembers & _ & Hchar).
  exists w', members. split; [done|]. split; [done|].
  split; [subst w' w2; cbn; done|]. split; [done|].
  apply Hchar. exists o'.
  split; [change (_objects w') with (_objects w2); by rewrite Hobjs, lookup_insert_eq|].
  unfold o'. cbn. by rewrite decide_False.
Qed.

Section Dig.

Variable parse : string → ParsedCommand.
Variable lookup_command : CommandTable → ParsedCommand → option BaseCommand.
Variable func : BaseCommand → string → ParsedCommand → M unit.
Variable getTraceback : Exception → string.
Variable global_command_table : CommandTable.
Variable global_admin_command_table : CommandTable.
Variable load_parent : string → option ParentClass.

Local Abbreviation dig :=
  (CmdDig_func load_parent parse lookup_command func getTraceback global_command_table
     global_admin_command_table).


End Dig.

(** ** The proxy link *)

(** X25. On a fresh process with an empty database (the counter is 1),
    start-up followed by [create_player_object_command] puts the new
    player, id 2, into the starter room: the room got the id 1 that
    NEW_PLAYER_LOCATION_ID names, and the player is its whole contents. *)
Theorem new_player_lands_in_the_starter_room
    (load_parent : string → option ParentClass) (RoomClass PlayerClass : ParentClass)
    (username : string) (w : World) :
  _db w = ∅ → next_dbref w = 1%Z →
  load_parent "src.game.parents.base_objects.room.RoomObject" = Some RoomClass →
  load_parent "src.game.parents.base_objects.player.PlayerObject" = Some PlayerClass →
  ∃ w1 w2,
    _prepare_at_load load_parent w = (w1, Ok tt) ∧
    create_player_object_command load_parent username w1 = (w2, Ok "2") ∧
    _objects w2 !! NEW_PLAYER_LOCATION_ID
    = Some (mkObject RoomClass
              (mkOdata "src.game.parents.base_objects.room.RoomObject"
                       "And so it begins..." [] None None None)) ∧
    _objects w2 !! "2"
    = Some (mkObject PlayerClass
              (mkOdata "src.game.parents.base_objects.player.PlayerObject" username []
                       (Some NEW_PLAYER_LOCATION_ID) None None)) ∧
    get_location w2 "2" = Ok (Some NEW_PLAYER_LOCATION_ID) ∧
    get_object_contents w2 NEW_PLAYER_LOCATION_ID = Ok ["2"].
Proof.
  intros Hdb Hcounter Hroom Hplayer.
  set (room := mkOdata "src.game.parents.base_objects.room.RoomObject"
                       "And so it begins..." [] None None None).
  assert (Hprepare : ∃ w1, _prepare_at_load load_parent w = (w1, Ok tt) ∧
                           _objects w1 = {["1" := mkObject RoomClass room]} ∧
                           next_dbref w1 = 2%Z).
  { rewrite _prepare_at_load_unfold.
    rewrite decide_True by (by apply map_size_empty_iff).
    rewrite (create_object_ok _ _ _ _ _ Hroom).
    set (w0 := with_next_dbref _ _).
    destruct (load_single_document load_parent w0 "1" room RoomClass 1)
      as (w1 & Hload & _ & Hobjs1 & Hcounter1).
    - subst w0. simpl. by rewrite Hdb, Hcounter, insert_empty.
    - subst w0. simpl. by rewrite Hcounter, insert_empty.
    - done.
    - done.
    - subst w0. simpl. lia.
    - exists w1. split; [done|]. split; [done|]. rewrite Hcounter1. subst w0. simpl. lia. }
  destruct Hprepare as (w1 & Hprepare & Hobjs1 & Hcounter1).
  exists w1. eexists. split; [done|].
  unfold create_player_object_command. rewrite (create_object_ok _ _ _ _ _ Hplayer).
  rewrite Hcounter1. change (pretty 2%Z) with "2". split; [reflexivity|].
  set (w2 := with_next_dbref _ _).
  set (player := mkObject PlayerClass _).
  assert (Hobjs2 : _objects w2 = <["2" := player]> {["1" := mkObject RoomClass room]}).
  { subst w2. cbn. by rewrite Hobjs1. }
  set (store := mkWorld (<["2" := player]> {["1" := mkObject RoomClass room]}) ∅ 0 [] [] []).
  split; [by rewrite Hobjs2|]. split; [by rewrite Hobjs2|].
  rewrite (get_location_ext store w2) by done.
  rewrite (get_object_contents_ext store w2) by done.
  split; by vm_compute.
Qed.

Section Proxy.

Variable parse : string → ParsedCommand.
Variable lookup_command : CommandTable → ParsedCommand → option BaseCommand.
Variable func : BaseCommand → string → ParsedCommand → M unit.
Variable getTraceback : Exception → string.
Variable global_command_table : CommandTable.
Variable global_admin_command_table : CommandTable.

Local Abbreviation match_command :=
  (_match_user_input_to_command lookup_command global_command_table
     global_admin_command_table).
Local Abbreviation send_through :=
  (send_through_object_command parse lookup_command func getTraceback
     global_command_table global_admin_command_table).

(** X26. One dangling [location_id] anywhere in the store stops every
    object that has a location from running any command: the input raises
    InvalidObjectId out of the exit matching, before a command is looked
    up, and nothing is sent to the object, not even 'Huh?'. *)
Theorem dangling_location_blocks_every_command (object_id input : string) (w : World)
    (location_obj : string) :
  ¬ locations_resolve w →
  get_location w object_id = Ok (Some location_obj) →
  ∃ message, send_through object_id input w = (w, Raise (InvalidObjectId message)).
Proof.
  intros Hdangling Hloc. unfold send_through_object_command.
  assert (Hcached : get_object w object_id = Ok object_id).
  { apply get_object_Some. unfold get_location, deref in Hloc.
    destruct (_objects w !! object_id); [by eexists | done]. }
  rewrite (read_ok _ _ _ _ Hcached). unfold execute_command, handle_input.
  destruct (get_object_contents w location_obj) as [contents|e] eqn:Hcontents.
  { destruct Hdangling. intros k o Hk. apply resolve_id_is_Ok.
    rewrite <- (get_location_Some _ _ _ Hk).
    by eapply get_object_contents_locations. }
  apply get_object_contents_Raise in Hcontents as Hmessage. destruct Hmessage as [message ->].
  exists message.
  assert (Hexit : _match_user_input_to_exit w object_id (parse input)
                  = Raise (InvalidObjectId message)).
  { unfold _match_user_input_to_exit. rewrite Hloc. simpl. unfold get_contents.
    by rewrite Hcontents. }
  rewrite !bind_M_unfold. unfold read at 1. by rewrite Hexit.
Qed.

(** X27. Input that names no exit and matches no command is answered with
    'Huh?' to the sending object, and nothing else happens; input sent
    through an id the store does not hold raises InvalidObjectId and
    nothing is sent at all. *)
Theorem unmatched_input_is_answered_with_huh (object_id input : string) (w : World) :
  match _objects w !! object_id with
  | None =>
      send_through object_id input w
      = (w, Raise (InvalidObjectId ("Invalid object ID requested: " +:+ object_id)))
  | Some _ =>
      _match_user_input_to_exit w object_id (parse input) = Ok None →
      match_command w object_id (parse input) = Ok None →
      send_through object_id input w
      = (with_emitted (λ out, (out ++ [(object_id, "Huh?")])%list) w, Ok tt)
  end.
Proof.
  unfold send_through_object_command.
  destruct (_objects w !! object_id) as [o|] eqn:Ho.
  - intros Hexit Hcmd.
    rewrite (read_ok _ _ _ object_id) by (unfold get_object; by rewrite Ho).
    unfold execute_command, handle_input.
    rewrite bind_M_unfold. by rewrite (read_ok _ _ _ _ Hexit), (read_ok _ _ _ _ Hcmd).
  - rewrite bind_M_unfold. unfold read, get_object. by rewrite Ho.
Qed.

End Proxy.

(** * The theorems at concrete stores *)

Lemma two_rooms_consistent : consistent two_rooms.
Proof. apply (bool_decide_unpack _). vm_compute. exact I. Defined.

Lemma destroy_removes_linked_exits_and_self_witness :
  consistent two_rooms ∧ exits_lead_to_non_exits two_rooms ∧
  ∃ exits members w',
    find_exits_linked_to_obj two_rooms "2" = Ok exits ∧
    find_objects_in_zone two_rooms "2" = Ok members ∧
    destroy 2 "2" two_rooms = (w', Ok tt) ∧
    dom (_objects w') = dom (_objects two_rooms) ∖ (list_to_set exits ∪ {["2"]}) ∧
    size (_objects two_rooms) = (size (_objects w') + (length exits + 1))%nat ∧
    (∀ m, m ∈ members → m ≠ "2" → m ∉ exits →
          ∃ o, _objects w' !! m = Some o ∧ zone_id (_odata o) = None) ∧
    zones_resolve w' ∧ destinations_resolve w'.
Proof.
  assert (Hl : exits_lead_to_non_exits two_rooms)
    by (apply (bool_decide_unpack _); vm_compute; exact I).
  split; [exact two_rooms_consistent|]. split; [exact Hl|].
  apply (destroy_removes_linked_exits_and_self 2 "2" two_rooms);
    [lia | eexists; vm_compute; reflexivity | exact two_rooms_consistent | exact Hl].
Defined.

(** C1 as stated fails: room #2 has N = 1 linked exit and M = 1 zone
    member, and [destroy()] removes 2 instances, not N+M+1 = 3; the zone
    member #3 is still in the store, its zone un-set. *)
Lemma destroy_keeps_zone_members :
  find_exits_linked_to_obj two_rooms "2" = Ok ["4"] ∧
  find_objects_in_zone two_rooms "2" = Ok ["3"] ∧
  (destroy 2 "2" two_rooms).2 = Ok tt ∧
  size (_objects two_rooms) = 5%nat ∧
  size (_objects (destroy 2 "2" two_rooms).1) = 3%nat ∧
  (zone_id ∘ _odata) <$> _objects (destroy 2 "2" two_rooms).1 !! "3" = Some None.
Proof. vm_compute. repeat split; reflexivity. Qed.

Lemma destroy_unzones_members_instead_of_failing_witness :
  consistent two_rooms ∧
  find_objects_in_zone two_rooms "2" = Ok ["3"] ∧
  (∀ message, (destroy 2 "2" two_rooms).2 ≠ Raise (ObjectHasZoneMembers message)) ∧
  ∃ w', destroy 2 "2" two_rooms = (w', Ok tt) ∧
        _objects w' !! "2" = None ∧
        _objects w' ≠ _objects two_rooms ∧
        ∀ m o', m ∈ ["3"] → _objects w' !! m = Some o' → zone_id (_odata o') = None.
Proof.
  split; [exact two_rooms_consistent|]. split; [vm_compute; reflexivity|].
  apply (destroy_unzones_members_instead_of_failing 2 "2" two_rooms ["3"]);
    [lia | eexists; vm_compute; reflexivity | exact two_rooms_consistent
     | vm_compute; reflexivity | discriminate].
Defined.

(** C2 as stated fails: room #2 still has the zone member #3, and
    [@destroy #2] neither raises nor leaves the store unchanged: it
    succeeds, room #2 is gone and #3 has lost its zone. *)
Lemma destroy_command_succeeds_on_zone_master :
  find_objects_in_zone two_rooms "2" = Ok ["3"] ∧
  (CmdDestroy_func no_fuzzy_match 2 "5" (mkParsed "@destroy" ["#2"] "#2" []) two_rooms).2
  = Ok tt ∧
  _objects (CmdDestroy_func no_fuzzy_match 2 "5"
              (mkParsed "@destroy" ["#2"] "#2" []) two_rooms).1 !! "2" = None ∧
  (zone_id ∘ _odata)
    <$> _objects (CmdDestroy_func no_fuzzy_match 2 "5"
                    (mkParsed "@destroy" ["#2"] "#2" []) two_rooms).1 !! "3"
  = Some None.
Proof. vm_compute. repeat split; reflexivity. Qed.

Lemma emit_or_boom_read_only : commands_read_only emit_or_boom.
Proof.
  intros cmd invoker parsed w. unfold emit_or_boom.
  destruct (decide (cmd_name cmd = "boom")); reflexivity.
Defined.

Lemma move_to_relocates_witness :
  ∃ old_location o',
    get_location two_rooms "5" = Ok (Some old_location) ∧
    _objects (move_to verb_only lookup_by_name emit_or_boom short_traceback global_table
                global_admin_table "5" "2" true two_rooms).1 !! "5" = Some o' ∧
    location_id (_odata o') = Some "2" ∧
    (∃ contents,
       get_object_contents
         (move_to verb_only lookup_by_name emit_or_boom short_traceback global_table
            global_admin_table "5" "2" true two_rooms).1 "2" = Ok contents ∧
       "5" ∈ contents) ∧
    (∃ contents,
       get_object_contents
         (move_to verb_only lookup_by_name emit_or_boom short_traceback global_table
            global_admin_table "5" "2" true two_rooms).1 old_location = Ok contents ∧
       (old_location ≠ "2" → "5" ∉ contents)).
Proof.
  apply (move_to_relocates verb_only lookup_by_name emit_or_boom short_traceback
           global_table global_admin_table "5" "2" true two_rooms _ wizard);
    [reflexivity | apply (bool_decide_unpack _); vm_compute; exact I | discriminate
     | intros _; exact emit_or_boom_read_only | vm_compute; reflexivity].
Defined.

(** C4 as stated fails: moving the player #5 to the room it is already in
    completes without error, and the mover is still in what
    [get_object_contents] returns for the old location. *)
Lemma move_to_same_location_keeps_mover_in_origin :
  get_location two_rooms "5" = Ok (Some "1") ∧
  (move_to verb_only lookup_by_name emit_or_boom short_traceback global_table
     global_admin_table "5" "1" false two_rooms).2 = Ok tt ∧
  get_object_contents
    (move_to verb_only lookup_by_name emit_or_boom short_traceback global_table
       global_admin_table "5" "1" false two_rooms).1 "1" = Ok ["3"; "5"; "4"].
Proof. vm_compute. repeat split; reflexivity. Qed.

(** Why C4 asks for the Room invariant: [set_location] does nothing on an
    object of the room class, so one that has a [location_id] all the same
    goes through [move_to] without error and stays where it was. *)
Lemma move_to_leaves_rooms_in_place :
  (move_to verb_only lookup_by_name emit_or_boom short_traceback global_table
     global_admin_table "2" "3" false reparented).2 = Ok tt ∧
  (location_id ∘ _odata)
    <$> _objects (move_to verb_only lookup_by_name emit_or_boom short_traceback
                    global_table global_admin_table "2" "3" false reparented).1 !! "2"
  = Some (Some "1").
Proof. vm_compute. split; reflexivity. Qed.

Lemma command_tables_tried_in_fixed_order_witness :
  lookup_by_name global_table (verb_only "LOOK") = Some CmdLook ∧
  _match_user_input_to_command lookup_by_name global_table global_admin_table shop "2"
    (verb_only "LOOK")
  = Ok (first_match
          [ if is_admin (cls guest)
            then location_table_match lookup_by_name shop (Some "1")
                   local_admin_command_table (verb_only "LOOK")
            else None;
            location_table_match lookup_by_name shop (Some "1") local_command_table
              (verb_only "LOOK");
            if is_admin (cls guest)
            then lookup_by_name global_admin_table (verb_only "LOOK") else None;
            lookup_by_name global_table (verb_only "LOOK") ]) ∧
  (∀ cmd,
     location_table_match lookup_by_name shop (Some "1") local_command_table
       (verb_only "LOOK") = Some cmd →
     is_admin (cls guest) = false ∨
     location_table_match lookup_by_name shop (Some "1") local_admin_command_table
       (verb_only "LOOK") = None →
     _match_user_input_to_command lookup_by_name global_table global_admin_table shop "2"
       (verb_only "LOOK") = Ok (Some cmd)).
Proof.
  split; [reflexivity|].
  apply (command_tables_tried_in_fixed_order lookup_by_name global_table
           global_admin_table shop "2" guest (Some "1") (verb_only "LOOK"));
    reflexivity.
Defined.

Lemma id_search_visibility_witness :
  ((is_admin (cls guest) = true →
    contextual_object_search no_fuzzy_match strangers "3" ("#" +:+ "2") = Ok (Some "2")) ∧
   (is_admin (cls guest) = false →
    ∀ self_location target_location,
      get_location strangers "3" = Ok self_location →
      get_location strangers "2" = Ok target_location →
      self_location ≠ target_location → self_location ≠ Some "2" →
      _find_object_id_match strangers "3" ("#" +:+ "2") = Ok None ∧
      contextual_object_search no_fuzzy_match strangers "3" ("#" +:+ "2")
      = search_by_name no_fuzzy_match strangers "3" ("#" +:+ "2"))) ∧
  ((is_admin (cls wizard) = true →
    contextual_object_search no_fuzzy_match strangers "6" ("#" +:+ "4") = Ok (Some "4")) ∧
   (is_admin (cls wizard) = false →
    ∀ self_location target_location,
      get_location strangers "6" = Ok self_location →
      get_location strangers "4" = Ok target_location →
      self_location ≠ target_location → self_location ≠ Some "4" →
      _find_object_id_match strangers "6" ("#" +:+ "4") = Ok None ∧
      contextual_object_search no_fuzzy_match strangers "6" ("#" +:+ "4")
      = search_by_name no_fuzzy_match strangers "6" ("#" +:+ "4"))).
Proof.
  split.
  - apply (id_search_visibility no_fuzzy_match strangers "3" "2" guest);
      [reflexivity | eexists; vm_compute; reflexivity | reflexivity].
  - apply (id_search_visibility no_fuzzy_match strangers "6" "4" wizard);
      [reflexivity | eexists; vm_compute; reflexivity | reflexivity].
Defined.

(** C6 as stated fails: the player #3 is not an admin, the lamp #4 lies in
    another room and is not the player's location, and
    [contextual_object_search("#4")] does not return None: it returns the
    coin #5, a neighbour whose alias is the text "#4". *)
Lemma id_search_falls_through_to_alias :
  is_admin (cls guest) = false ∧
  _objects strangers !! "3" = Some guest ∧
  get_location strangers "3" = Ok (Some "1") ∧
  get_location strangers "4" = Ok (Some "2") ∧
  contextual_object_search no_fuzzy_match strangers "3" "#4" = Ok (Some "5").
Proof. vm_compute. repeat split; reflexivity. Qed.

Lemma alias_match_outranks_fuzzy_match_witness :
  top_fuzzy_match "North" "north gate" = 100%Z ∧
  ∃ found,
    _find_name_or_alias_match top_fuzzy_match gate ["2"; "3"] "North" = Ok (Some found) ∧
    alias_match gate "North" found = true ∧
    (∃ pre post, ["2"; "3"] = (pre ++ found :: post)%list ∧
                 Forall (λ x, alias_match gate "North" x = false) pre) ∧
    ((∀ x, x ∈ ["2"; "3"] → alias_match gate "North" x = true → x = "3") → found = "3").
Proof.
  split; [reflexivity|].
  apply (alias_match_outranks_fuzzy_match top_fuzzy_match gate ["2"; "3"] "North" "3").
  - intros x Hx.
    repeat (apply elem_of_cons in Hx as [->|Hx]; [eexists; vm_compute; reflexivity|]).
    by apply elem_of_nil in Hx.
  - apply elem_of_cons. right. apply elem_of_cons. by left.
  - vm_compute. reflexivity.
Defined.

Lemma unexpected_failure_report_witness :
  (handle_input verb_only lookup_by_name emit_or_boom short_traceback global_table
     global_admin_table "5" "boom" two_rooms).2 = Ok (Some CmdBoom) ∧
  emitted (handle_input verb_only lookup_by_name emit_or_boom short_traceback global_table
             global_admin_table "5" "boom" two_rooms).1
  = (emitted two_rooms
     ++ [("5", "ERROR: A critical error has occurred. Please notify the staff.");
         ("5", short_traceback (ValueError "boom"))])%list ∧
  logger_error (handle_input verb_only lookup_by_name emit_or_boom short_traceback
                  global_table global_admin_table "5" "boom" two_rooms).1
  = (logger_error two_rooms ++ ["Command handler encountered an error"])%list ∧
  log_err (handle_input verb_only lookup_by_name emit_or_boom short_traceback global_table
             global_admin_table "5" "boom" two_rooms).1
  = (log_err two_rooms
     ++ [TypeError
           "get_appearance_name() got an unexpected keyword argument 'force_admin_view'"])%list.
Proof.
  apply (unexpected_failure_report verb_only lookup_by_name emit_or_boom short_traceback
           global_table global_admin_table two_rooms two_rooms "5" "boom" CmdBoom
           (ValueError "boom"));
    [vm_compute; reflexivity | vm_compute; reflexivity | reflexivity | discriminate].
Defined.

Lemma exit_has_no_linked_exits_witness :
  get_destination exit_to_exit "4" = Ok (Some "3") ∧
  find_exits_linked_to_obj exit_to_exit "3" = Ok [] ∧
  (∀ x, x ≠ "3" → x ∈ dom (_objects exit_to_exit) →
        x ∈ dom (_objects (destroy 2 "3" exit_to_exit).1)) ∧
  ((1 ≤ 2)%nat → zones_resolve exit_to_exit → persisted exit_to_exit →
   ∃ w', destroy 2 "3" exit_to_exit = (w', Ok tt) ∧
         dom (_objects w') = dom (_objects exit_to_exit) ∖ {["3"]}).
Proof.
  split; [vm_compute; reflexivity|].
  apply (exit_has_no_linked_exits 2 "3" exit_to_exit
           (mkObject ExitObject (mkOdata exit_path "Door" ["north"] (Some "1") None (Some "2"))));
    reflexivity.
Defined.

(** C3 at work: two objects are created, #6 and #1 are destroyed, a create
    with an unknown parent fails, the store is loaded again: the three ids
    handed out are 6, 7 and 8. *)
Example created_ids_run :
  (run_ops base_parents
     [OpCreate room_path (mkOdata "" "C" [] None None None);
      OpDestroy 2 "6"; OpDestroy 2 "1";
      OpCreate "no.such.Parent" (mkOdata "" "X" [] None None None);
      OpCreate thing_path (mkOdata "" "D" [] None None None);
      OpLoad;
      OpCreate thing_path (mkOdata "" "E" [] None None None)]
     two_rooms).2 = ["6"; "7"; "8"].
Proof. vm_compute. reflexivity. Qed.

(** C10 at work: blank strings of several kinds. *)
Example blank_search_run :
  let tab_newline := String (ascii_of_nat 9) (String (ascii_of_nat 10) " ") in
  contextual_object_search no_fuzzy_match two_rooms "5" "" = Ok None ∧
  contextual_object_search no_fuzzy_match two_rooms "5" "   " = Ok None ∧
  contextual_object_search no_fuzzy_match two_rooms "5" tab_newline = Ok None ∧
  contextual_object_search no_fuzzy_match two_rooms "5" " me " = Ok (Some "5").
Proof. vm_compute. repeat split; reflexivity. Qed.


(** * The further properties at concrete stores *)

Lemma load_caches_every_document_witness :
  _db two_rooms_loaded = _db two_rooms ∧
  (next_dbref two_rooms_loaded = next_dbref two_rooms ∨
   ∃ id, is_Some (_db two_rooms !! id) ∧ int id = Ok (next_dbref two_rooms_loaded - 1)%Z) ∧
  (next_dbref two_rooms ≤ next_dbref two_rooms_loaded)%Z ∧
  (∀ k, _db two_rooms !! k = None →
        _objects two_rooms_loaded !! k = _objects two_rooms !! k) ∧
  (∀ id doc, _db two_rooms !! id = Some doc →
             _objects two_rooms_loaded !! id = instance_of base_parents doc ∧
             is_Some (instance_of base_parents doc) ∧
             ∃ n, int id = Ok n ∧ (n < next_dbref two_rooms_loaded)%Z).
Proof.
  apply (load_caches_every_document base_parents two_rooms two_rooms_loaded).
  vm_compute. reflexivity.
Defined.

Lemma create_after_load_overwrites_nothing_witness :
  _db two_rooms !! "6" = None ∧
  (∀ k doc, _db two_rooms !! k = Some doc →
            _db (create_object base_parents thing_path
                   (mkOdata "" "ball" [] (Some "1") None None) two_rooms_loaded).1 !! k
            = Some doc) ∧
  (∀ k doc, _db two_rooms !! k = Some doc →
            _objects (create_object base_parents thing_path
                        (mkOdata "" "ball" [] (Some "1") None None) two_rooms_loaded).1 !! k
            = instance_of base_parents doc).
Proof.
  apply (create_after_load_overwrites_nothing base_parents thing_path
           (mkOdata "" "ball" [] (Some "1") None None) two_rooms two_rooms_loaded);
    [vm_compute; discriminate | vm_compute; reflexivity | vm_compute; reflexivity].
Defined.

Lemma empty_database_gets_the_starter_room_witness :
  ∃ w', _prepare_at_load base_parents fresh_store = (w', Ok tt) ∧
        _db w' = {["1" := mkOdata room_path "And so it begins..." [] None None None]} ∧
        _objects w'
        = {["1" := mkObject RoomObject
                     (mkOdata room_path "And so it begins..." [] None None None)]} ∧
        next_dbref w' = 2%Z.
Proof.
  apply (empty_database_gets_the_starter_room base_parents RoomObject fresh_store);
    [reflexivity | vm_compute; discriminate | reflexivity].
Defined.


Lemma created_object_survives_reload_witness :
  ∃ NewObject,
    base_parents thing_path = Some NewObject ∧
    _objects (create_object base_parents thing_path
                (mkOdata "" "ball" [] (Some "1") None None) two_rooms).1 !! "6"
    = Some (mkObject NewObject (mkOdata thing_path "ball" [] (Some "1") None None)) ∧
    _db (create_object base_parents thing_path
           (mkOdata "" "ball" [] (Some "1") None None) two_rooms).1 !! "6"
    = Some (mkOdata thing_path "ball" [] (Some "1") None None) ∧
    get_object (create_object base_parents thing_path
                  (mkOdata "" "ball" [] (Some "1") None None) two_rooms).1 "6" = Ok "6" ∧
    reload_object base_parents "6"
      (create_object base_parents thing_path
         (mkOdata "" "ball" [] (Some "1") None None) two_rooms).1
    = ((create_object base_parents thing_path
          (mkOdata "" "ball" [] (Some "1") None None) two_rooms).1, Ok "6").
Proof.
  apply (created_object_survives_reload base_parents thing_path
           (mkOdata "" "ball" [] (Some "1") None None) two_rooms).
  vm_compute. reflexivity.
Defined.

Lemma save_then_reload_round_trip_witness :
  ∃ w', (save "5" ;; reload_object base_parents "5") two_rooms = (w', Ok "5") ∧
        _objects w' = <["5" := mkObject AdminPlayerObject (_odata wizard)]> (_objects two_rooms) ∧
        _db w' = <["5" := _odata wizard]> (_db two_rooms) ∧
        next_dbref w' = next_dbref two_rooms ∧ emitted w' = emitted two_rooms.
Proof.
  apply (save_then_reload_round_trip base_parents "5" wizard AdminPlayerObject two_rooms);
    reflexivity.
Defined.

Lemma failed_reload_evicts_the_object_witness :
  _objects (reload_object no_parents "3" two_rooms).1 = delete "3" (_objects two_rooms) ∧
  _db (reload_object no_parents "3" two_rooms).1 = _db two_rooms ∧
  get_object (reload_object no_parents "3" two_rooms).1 "3"
  = Raise (InvalidObjectId ("Invalid object ID requested: " +:+ "3")) ∧
  match _db two_rooms !! "3" with
  | None =>
      InvalidParent ("Attempting to load invalid parent on object #3: " +:+ thing_path)
      = ResourceNotFound "3"
  | Some doc =>
      no_parents (parent doc) = None ∧
      ∃ message,
        InvalidParent ("Attempting to load invalid parent on object #3: " +:+ thing_path)
        = InvalidParent message
  end.
Proof.
  apply (failed_reload_evicts_the_object no_parents "3" two_rooms);
    [eexists; vm_compute; reflexivity | vm_compute; reflexivity].
Defined.

Lemma exit_scan_reads_every_destination_witness :
  (is_Ok (find_exits_linked_to_obj two_rooms "2") ↔ destinations_resolve two_rooms) ∧
  ∀ exits, find_exits_linked_to_obj two_rooms "2" = Ok exits →
    NoDup exits ∧
    ∀ x, x ∈ exits ↔
         ∃ ox, _objects two_rooms !! x = Some ox ∧ base_type (cls ox) = "exit" ∧
               truthy_id (destination_id (_odata ox)) = Some "2".
Proof.
  apply (exit_scan_reads_every_destination two_rooms "2"
           (mkObject RoomObject (mkOdata room_path "B" [] None None None)));
    [reflexivity | vm_compute; discriminate].
Defined.

Lemma destroy_strands_the_contents_witness :
  ∃ w', destroy 2 "1" two_rooms = (w', Ok tt) ∧
        get_object w' "1" = Raise (InvalidObjectId ("Invalid object ID requested: " +:+ "1")) ∧
        (∃ o', _objects w' !! "5" = Some o' ∧
               location_id (_odata o') = location_id (_odata wizard)) ∧
        ∀ obj, ∃ message, get_object_contents w' obj = Raise (InvalidObjectId message).
Proof.
  apply (destroy_strands_the_contents 2 "1" "5" wizard two_rooms);
    [lia | exact two_rooms_consistent | eexists; vm_compute; reflexivity | reflexivity
     | discriminate | vm_compute; discriminate | reflexivity].
Defined.

Lemma fuzzy_match_picks_the_first_best_score_witness :
  ∃ result,
    _find_name_or_alias_match length_fuzzy_match strangers ["5"; "3"; "6"] "x" = Ok result ∧
    match result with
    | None => ∀ obj, obj ∈ ["5"; "3"; "6"] →
                     (score length_fuzzy_match strangers "x" obj ≤ 50)%Z
    | Some found =>
        (50 < score length_fuzzy_match strangers "x" found)%Z ∧
        ∃ before after,
          ["5"; "3"; "6"] = (before ++ found :: after)%list ∧
          (∀ b, b ∈ before →
                (score length_fuzzy_match strangers "x" b
                 < score length_fuzzy_match strangers "x" found)%Z) ∧
          (∀ a, a ∈ after →
                (score length_fuzzy_match strangers "x" a
                 ≤ score length_fuzzy_match strangers "x" found)%Z)
    end.
Proof.
  apply (fuzzy_match_picks_the_first_best_score length_fuzzy_match strangers
           ["5"; "3"; "6"] "x");
    apply Forall_forall; apply (bool_decide_unpack _); vm_compute; exact I.
Defined.

Lemma search_finds_only_what_is_near_witness : near strangers "3" "5".
Proof.
  apply (search_finds_only_what_is_near no_fuzzy_match strangers "3" guest "#5" "5");
    [reflexivity | reflexivity | vm_compute; reflexivity].
Defined.

Lemma exit_match_is_an_exit_here_witness :
  ∃ loc ox,
    get_location two_rooms "5" = Ok (Some loc) ∧
    _objects two_rooms !! "4" = Some ox ∧ base_type (cls ox) = "exit" ∧
    truthy_id (location_id (_odata ox)) = Some loc ∧
    lower "NORTH" ∈ lower <$> aliases (_odata ox).
Proof.
  apply (exit_match_is_an_exit_here two_rooms "5" (verb_only "NORTH") (Some "4")).
  vm_compute. reflexivity.
Defined.

Lemma handle_input_contains_command_failures_witness :
  (handle_input verb_only lookup_by_name emit_or_boom short_traceback global_table
     global_admin_table "5" "boom" two_rooms).2 = Ok (Some CmdBoom) ∧
  (∀ w1, emit_or_boom CmdBoom "5" (effective_command (verb_only "boom") None) two_rooms
         = (w1, Ok tt) →
         (handle_input verb_only lookup_by_name emit_or_boom short_traceback global_table
            global_admin_table "5" "boom" two_rooms).1 = w1) ∧
  (∀ w1 message,
     emit_or_boom CmdBoom "5" (effective_command (verb_only "boom") None) two_rooms
     = (w1, Raise (CommandError message)) →
     (handle_input verb_only lookup_by_name emit_or_boom short_traceback global_table
        global_admin_table "5" "boom" two_rooms).1
     = with_emitted (λ out, (out ++ [("5", message)])%list) w1).
Proof.
  apply (handle_input_contains_command_failures verb_only lookup_by_name emit_or_boom
           short_traceback global_table global_admin_table two_rooms "5" "boom" None
           CmdBoom);
    vm_compute; reflexivity.
Defined.

Lemma move_to_needs_a_location_witness :
  move_to verb_only lookup_by_name emit_or_boom short_traceback global_table
    global_admin_table "1" "2" true two_rooms
  = (two_rooms,
     Raise (AttributeError
              "'NoneType' object has no attribute 'before_object_leaves_event'")).
Proof.
  apply (move_to_needs_a_location verb_only lookup_by_name emit_or_boom short_traceback
           global_table global_admin_table "1" "2" true two_rooms
           (mkObject RoomObject
              (mkOdata room_path "And so it begins..." [] None None None)));
    reflexivity.
Defined.

Lemma move_to_saves_and_announces_witness :
  ∃ old_location arrivals departures,
    get_location two_rooms "3" = Ok (Some old_location) ∧
    get_object_contents two_rooms "2" = Ok arrivals ∧
    get_object_contents
      (move_to verb_only lookup_by_name emit_or_boom short_traceback global_table
         global_admin_table "3" "2" false two_rooms).1 old_location = Ok departures ∧
    _objects (move_to verb_only lookup_by_name emit_or_boom short_traceback global_table
                global_admin_table "3" "2" false two_rooms).1
    = <["3" := map_odata (with_location_id (Some "2"))
                 (mkObject ThingObject
                    (mkOdata thing_path "rock" [] (Some "1") (Some "2") None))]>
        (_objects two_rooms) ∧
    _db (move_to verb_only lookup_by_name emit_or_boom short_traceback global_table
           global_admin_table "3" "2" false two_rooms).1
    = <["3" := with_location_id (Some "2")
                 (mkOdata thing_path "rock" [] (Some "1") (Some "2") None)]>
        (_db two_rooms) ∧
    emitted (move_to verb_only lookup_by_name emit_or_boom short_traceback global_table
               global_admin_table "3" "2" false two_rooms).1
    = (emitted two_rooms ++ announcements two_rooms "3" " has arrived" arrivals
         ++ announcements
              (move_to verb_only lookup_by_name emit_or_boom short_traceback global_table
                 global_admin_table "3" "2" false two_rooms).1 "3" " has left"
              departures)%list ∧
    (old_location ≠ "2" → "3" ∉ arrivals ∧ "3" ∉ departures).
Proof.
  apply (move_to_saves_and_announces verb_only lookup_by_name emit_or_boom short_traceback
           global_table global_admin_table "3" "2" two_rooms);
    [reflexivity | vm_compute; discriminate | vm_compute; reflexivity].
Defined.

Lemma destroy_command_errors_change_nothing_witness :
  two_rooms = two_rooms ∧
  ("Destroy what?" = "Destroy what?" ∧ arguments (mkParsed "@destroy" [] "" []) = [] ∨
   "Destroy what?" = "Unable to find your target object to destroy." ∧
   contextual_object_search no_fuzzy_match two_rooms "5"
     (argument_string (mkParsed "@destroy" [] "" [])) = Ok None).
Proof.
  apply (destroy_command_errors_change_nothing no_fuzzy_match 2 "5"
           (mkParsed "@destroy" [] "" []) two_rooms two_rooms "Destroy what?").
  reflexivity.
Defined.



Lemma zone_command_makes_a_member_witness :
  ∃ w' members,
    CmdZone_func no_fuzzy_match "5" (mkParsed "@zone" ["#4=#1"] "#4=#1" []) two_rooms
    = (w', Ok tt) ∧
    _objects w'
    = <["4" := map_odata (with_zone_id (Some "1"))
                 (mkObject ExitObject
                    (mkOdata exit_path "Door" ["north"] (Some "1") None (Some "2")))]>
        (_objects two_rooms) ∧
    _db w'
    = <["4" := with_zone_id (Some "1")
                 (mkOdata exit_path "Door" ["north"] (Some "1") None (Some "2"))]>
        (_db two_rooms) ∧
    find_objects_in_zone w' "1" = Ok members ∧
    "4" ∈ members.
Proof.
  apply (zone_command_makes_a_member no_fuzzy_match "5"
           (mkParsed "@zone" ["#4=#1"] "#4=#1" []) two_rooms "#4" "#1" "4" "1");
    [discriminate | vm_compute; reflexivity | discriminate | vm_compute; reflexivity
     | vm_compute; reflexivity | reflexivity | eexists; vm_compute; reflexivity
     | discriminate | eexists; vm_compute; reflexivity
     | apply (bool_decide_unpack _); vm_compute; exact I].
Defined.


Lemma new_player_lands_in_the_starter_room_witness :
  ∃ w1 w2,
    _prepare_at_load base_parents fresh_store = (w1, Ok tt) ∧
    create_player_object_command base_parents "alice" w1 = (w2, Ok "2") ∧
    _objects w2 !! NEW_PLAYER_LOCATION_ID
    = Some (mkObject RoomObject
              (mkOdata room_path "And so it begins..." [] None None None)) ∧
    _objects w2 !! "2"
    = Some (mkObject PlayerObject
              (mkOdata player_path "alice" [] (Some NEW_PLAYER_LOCATION_ID) None None)) ∧
    get_location w2 "2" = Ok (Some NEW_PLAYER_LOCATION_ID) ∧
    get_object_contents w2 NEW_PLAYER_LOCATION_ID = Ok ["2"].
Proof.
  apply (new_player_lands_in_the_starter_room base_parents RoomObject PlayerObject "alice"
           fresh_store); reflexivity.
Defined.

Lemma dangling_location_blocks_every_command_witness :
  ∃ message,
    send_through_object_command verb_only lookup_by_name emit_or_boom short_traceback
      global_table global_admin_table "2" "look" stranded
    = (stranded, Raise (InvalidObjectId message)).
Proof.
  apply (dangling_location_blocks_every_command verb_only lookup_by_name emit_or_boom
           short_traceback global_table global_admin_table "2" "look" stranded "1");
    [apply (bool_decide_unpack _); vm_compute; exact I | vm_compute; reflexivity].
Defined.
